(** * go-iost: consensus core, transaction pool, key pairs and the tx codec

    A shallow embedding of the parts of the node that the specification
    talks about, together with the properties established of them:

    - [Account]: [NewKeyPair] (package account);
    - [Native]: the [IssueIOST] system ABI (package vm/native);
    - [TxPool]: the pending-transaction pool (package core/new_txpool);
    - [PoB]: block reception and linking (package consensus/pob);
    - [TxCodec]: the generated wire codec of [TxRaw] (package core/tx).

    Conventions.  Go's [int64] and [int] are integers of 64 bits: they are
    modelled in [Z] and [wrap64] is written where the source computes
    with them.  Byte slices and strings are [list byte].  A [nil] pointer
    or a [nil] slice that the source tests for is an [option].  Functions
    that can panic or loop return in [run]. *)

From Stdlib Require Import ZArith List Lia Bool.
From Stdlib.Strings Require Import Byte.
From stdpp Require Import gmap strings list fin_maps sorting pretty.

#[local] Open Scope Z_scope.

(** ** Shared vocabulary *)

(** Go's [error]: the message of [errors.New] or [fmt.Errorf]. *)
Definition error := string.

(** Outcome of a call: a normal return, a run-time panic (nil dereference,
    failed type assertion, slice bound out of range), or a loop that did
    not finish within the recursion budget. *)
Inductive run (A : Type) : Type :=
| Done (a : A)
| Panic
| OutOfFuel.
Arguments Done {A} a.
Arguments Panic {A}.
Arguments OutOfFuel {A}.

#[global] Instance run_ret : MRet run := fun A a => Done a.

#[global] Instance run_bind : MBind run := fun A B k m =>
  match m with
  | Done a => k a
  | Panic => Panic
  | OutOfFuel => OutOfFuel
  end.

(** Two's complement reduction to 64 bits, as every [int64] operation does. *)
Definition wrap64 (z : Z) : Z := (z + 2 ^ 63) mod 2 ^ 64 - 2 ^ 63.

Definition int64_range (z : Z) : Prop := - 2 ^ 63 <= z < 2 ^ 63.

Lemma wrap64_id z : int64_range z -> wrap64 z = z.
Proof.
  unfold int64_range, wrap64. intros H.
  rewrite Z.mod_small by lia. lia.
Qed.

Lemma wrap64_range z : int64_range (wrap64 z).
Proof.
  unfold int64_range, wrap64.
  pose proof (Z.mod_pos_bound (z + 2 ^ 63) (2 ^ 64) ltac:(lia)). lia.
Qed.

(** ** Package account *)

Module Account.

Section WithCrypto.

(** [crypto.Algorithm] and its methods live in package crypto; here they
    are what [NewKeyPair] is given.  [GenSeckey] draws from the system's
    randomness, which is the [Entropy] argument. *)
Context {Algorithm : Type} `{EqDecision Algorithm}.
Variables (Secp256k1 Ed25519 : Algorithm).
Variable Entropy : Type.
Variable GenSeckey : Algorithm -> Entropy -> list byte.
Variable GetPubkey : Algorithm -> list byte -> list byte.

Record KeyPair : Type := mkKeyPair {
  kp_Algorithm : Algorithm;
  Pubkey : list byte;
  Seckey : list byte
}.

(** [NewKeyPair(seckey, algo)]; a [nil] [seckey] is [None]. *)
Definition NewKeyPair (rnd : Entropy) (seckey : option (list byte))
    (algo : Algorithm) : KeyPair + error :=
  let seckey :=
    match seckey with
    | None => GenSeckey algo rnd
    | Some sk => sk
    end in
  if (negb (Nat.eqb (length seckey) 32) && bool_decide (algo = Secp256k1))
     || (negb (Nat.eqb (length seckey) 64) && bool_decide (algo = Ed25519))
  then inr "seckey length error"%string
  else
    let pubkey := GetPubkey algo seckey in
    inl {| kp_Algorithm := algo; Pubkey := pubkey; Seckey := seckey |}.

Definition is_err {A : Type} (r : A + error) : Prop :=
  match r with inr _ => True | inl _ => False end.

(** C10.  For a secret key that is not nil, [NewKeyPair] fails exactly when
    the key is not 32 bytes long under Secp256k1 or not 64 bytes long under
    Ed25519, and otherwise returns the pair of the key and the public key
    derived from it.  For a nil secret key, with a generator that yields 32
    bytes for Secp256k1 and 64 bytes for Ed25519, the call succeeds with the
    generated key and the public key derived from it. *)
Theorem NewKeyPair_spec (rnd : Entropy) (algo : Algorithm)
    (Hdistinct : Secp256k1 <> Ed25519)
    (Hgen_secp : length (GenSeckey Secp256k1 rnd) = 32%nat)
    (Hgen_ed : length (GenSeckey Ed25519 rnd) = 64%nat) :
  (forall sk : list byte,
      (is_err (NewKeyPair rnd (Some sk) algo) <->
         (length sk <> 32%nat /\ algo = Secp256k1) \/
         (length sk <> 64%nat /\ algo = Ed25519)) /\
      (~ is_err (NewKeyPair rnd (Some sk) algo) ->
         NewKeyPair rnd (Some sk) algo =
           inl (mkKeyPair algo (GetPubkey algo sk) sk))) /\
  NewKeyPair rnd None algo =
    inl (mkKeyPair algo (GetPubkey algo (GenSeckey algo rnd))
           (GenSeckey algo rnd)).
Proof.
  split.
  - intros sk. unfold NewKeyPair.
    destruct (Nat.eqb_spec (length sk) 32) as [H32|H32];
      destruct (Nat.eqb_spec (length sk) 64) as [H64|H64];
      repeat case_bool_decide; subst; simpl; split;
      try tauto; try congruence; try lia; intuition congruence.
  - unfold NewKeyPair.
    destruct (decide (algo = Secp256k1)) as [->|Hs];
      [|destruct (decide (algo = Ed25519)) as [->|He]].
    + rewrite Hgen_secp. simpl. case_bool_decide; [congruence | reflexivity].
    + rewrite Hgen_ed. simpl. case_bool_decide; [congruence | reflexivity].
    + repeat case_bool_decide; try congruence.
      rewrite !andb_false_r. reflexivity.
Qed.

End WithCrypto.

(** A concrete instance: two algorithms, a generator of zero bytes, and a
    public key that is the first half of the secret key. *)
Inductive algorithm : Type := ASecp256k1 | AEd25519 | AUnknown.

#[global] Instance algorithm_eq_dec : EqDecision algorithm.
Proof. solve_decision. Defined.

Definition zero_seckey (a : algorithm) (_ : unit) : list byte :=
  match a with
  | ASecp256k1 => repeat x00 32
  | AEd25519 => repeat x00 64
  | AUnknown => []
  end.

Definition half_pubkey (_ : algorithm) (sk : list byte) : list byte :=
  firstn (length sk / 2) sk.

Lemma NewKeyPair_spec_witness :
  (forall sk : list byte,
      (is_err (NewKeyPair ASecp256k1 AEd25519 unit zero_seckey half_pubkey
                 tt (Some sk) AEd25519) <->
         (length sk <> 32%nat /\ AEd25519 = ASecp256k1) \/
         (length sk <> 64%nat /\ AEd25519 = AEd25519)) /\
      (~ is_err (NewKeyPair ASecp256k1 AEd25519 unit zero_seckey half_pubkey
                   tt (Some sk) AEd25519) ->
         NewKeyPair ASecp256k1 AEd25519 unit zero_seckey half_pubkey
           tt (Some sk) AEd25519 =
           inl (mkKeyPair AEd25519 (half_pubkey AEd25519 sk) sk))) /\
  NewKeyPair ASecp256k1 AEd25519 unit zero_seckey half_pubkey tt None AEd25519 =
    inl (mkKeyPair AEd25519
           (half_pubkey AEd25519 (zero_seckey AEd25519 tt))
           (zero_seckey AEd25519 tt)).
Proof.
  apply (NewKeyPair_spec ASecp256k1 AEd25519 unit zero_seckey half_pubkey
           tt AEd25519); [discriminate | reflexivity | reflexivity].
Defined.

End Account.

(** ** Package vm/native: the system ABIs *)

Module Native.

(** A Go [interface{}] argument, by dynamic type. *)
Inductive value : Type :=
| VString (s : string)
| VInt64 (n : Z)
| VBool (b : bool)
| VBytes (bs : list byte).

(** [contract.Cost], the record of the generated contract package. *)
Record Cost : Type := mkCost { Data : Z; Net : Z; CPU : Z }.

(** [contract.Cost0()]: the cost with every component zero. *)
Definition Cost0 : Cost := {| Data := 0; Net := 0; CPU := 0 |}.

Section WithHost.

(** The state database behind [host.Host] belongs to package vm/host: the
    ABI only calls [SetBalance] on it, [Balance] reads an account back. *)
Variable DB : Type.
Variable SetBalance : DB -> string -> Z -> DB.
Variable Balance : DB -> string -> Z.

Record Host : Type := mkHost {
  Context_ : gmap string value;   (* h.Context(), read with Value(key) *)
  DB_ : DB                        (* h.DB() *)
}.

(** What an ABI's [do] returns: [(rtn, cost, err)]. *)
Definition abi_result : Type := (list value * Cost * option error)%type.

(** [issueIOST.do(h, args...)].  The type assertions [.(int64)] and
    [.(string)] panic on a value of another dynamic type, on a missing
    context key and on a missing argument. *)
Definition issueIOST (h : Host) (args : list value) : run (Host * abi_result) :=
  match Context_ h !! "number"%string with
  | Some (VInt64 number) =>
      if negb (number =? 0) then
        Done (h, ([], Cost0, Some "issue IOST in normal block"%string))
      else
        match args !! 0%nat with
        | Some (VString name) =>
            match args !! 1%nat with
            | Some (VInt64 amount) =>
                Done ({| Context_ := Context_ h;
                         DB_ := SetBalance (DB_ h) name amount |},
                      ([], Cost0, None))
            | _ => Panic
            end
        | _ => Panic
        end
  | _ => Panic
  end.

(** C9.  In a context whose block number is not zero [IssueIOST] returns an
    error and leaves the host, hence every balance, as it was; in a context
    whose block number is zero it returns no error and the host's database
    is the old one with the target account's balance set to the amount, so
    that the account reads back the amount.  The cost returned is zero in
    both cases. *)
Theorem issueIOST_spec (h : Host) (number : Z) (name : string) (amount : Z)
    (rest : list value)
    (Hnumber : Context_ h !! "number"%string = Some (VInt64 number))
    (Hget_set : forall d a v, Balance (SetBalance d a v) a = v) :
  (number <> 0 ->
     forall args,
       issueIOST h args =
         Done (h, ([], Cost0, Some "issue IOST in normal block"%string))) /\
  (number = 0 ->
     exists h', issueIOST h (VString name :: VInt64 amount :: rest) =
                  Done (h', ([], Cost0, None)) /\
                DB_ h' = SetBalance (DB_ h) name amount /\
                Context_ h' = Context_ h /\
                Balance (DB_ h') name = amount).
Proof.
  unfold issueIOST. rewrite Hnumber. split.
  - intros Hne args. apply Z.eqb_neq in Hne. rewrite Hne. reflexivity.
  - intros ->. simpl. eexists. split; [reflexivity |]. simpl. auto.
Qed.

End WithHost.

(** A concrete host: balances in a finite map, absent accounts at zero. *)
Definition map_SetBalance (d : gmap string Z) (a : string) (v : Z) : gmap string Z :=
  <[a := v]> d.

Definition map_Balance (d : gmap string Z) (a : string) : Z :=
  default 0 (d !! a).

Definition genesis_host : Host (gmap string Z) :=
  {| Context_ := {[ "number"%string := VInt64 0 ]}; DB_ := ∅ |}.

Lemma issueIOST_spec_witness :
  (0 <> 0 ->
     forall args,
       issueIOST _ map_SetBalance genesis_host args =
         Done (genesis_host, ([], Cost0, Some "issue IOST in normal block"%string))) /\
  (0 = 0 ->
     exists h', issueIOST _ map_SetBalance genesis_host
                  [VString "alice"; VInt64 21000] =
                  Done (h', ([], Cost0, None)) /\
                DB_ _ h' = map_SetBalance (DB_ _ genesis_host) "alice" 21000 /\
                Context_ _ h' = Context_ _ genesis_host /\
                map_Balance (DB_ _ h') "alice" = 21000).
Proof.
  apply (issueIOST_spec _ map_SetBalance map_Balance genesis_host 0
           "alice" 21000 []).
  - reflexivity.
  - intros d a v. unfold map_Balance, map_SetBalance.
    rewrite lookup_insert_eq. reflexivity.
Defined.

(** In a normal block (number 7 here) nothing is issued. *)
Example issueIOST_normal_block :
  issueIOST _ map_SetBalance
    {| Context_ := {[ "number"%string := VInt64 7 ]}; DB_ := ∅ |}
    [VString "alice"; VInt64 21000] =
  Done ({| Context_ := {[ "number"%string := VInt64 7 ]}; DB_ := ∅ |},
        ([], Cost0, Some "issue IOST in normal block"%string)).
Proof. reflexivity. Qed.


(** *** [UpdateCode] *)

Section WithContracts.

(** [contract.Contract] with its [Decode], the host's [UpdateCode],
    [host.CommonErrorCost] and [Cost.AddAssign] belong to packages
    core/contract and vm/host.  [Decode] fills the contract it is called on
    and returns its error. *)
Variable DB : Type.
Variable Contract : Type.
Variable Contract_Decode : string -> Contract * option error.
Variable UpdateCode : Host DB -> Contract -> list byte -> Host DB * (Cost * option error).
Variable CommonErrorCost : Z -> Cost.
Variable AddAssign : Cost -> Cost -> Cost.

(** The ABI's declaration: its name and the types of its arguments. *)
Definition updateCode_name : string := "UpdateCode".
Definition updateCode_args : list string := ["string"%string].

(** [updateCode.do(h, args...)].  [args[0]] is read before [Decode] runs;
    [args[1]] is read, and asserted to be a string, before the host's
    [UpdateCode] is called. *)
Definition updateCode (h : Host DB) (args : list value) : run (Host DB * abi_result) :=
  let cost := Cost0 in
  match args !! 0%nat with
  | Some (VString code) =>
      let '(con, err) := Contract_Decode code in
      match err with
      | Some e => Done (h, ([], CommonErrorCost 1, Some e))
      | None =>
          match args !! 1%nat with
          | Some (VString id) =>
              let '(h', (cost1, err)) := UpdateCode h con (String.list_byte_of_string id) in
              Done (h', ([], AddAssign cost cost1, err))
          | _ => Panic
          end
      end
  | _ => Panic
  end.

(** X29.  [UpdateCode] declares one argument and reads two.  Called with
    as many arguments as it declares, or with fewer, it never reaches the
    host: it returns the error of [Decode] with the cost of a common error
    and the host untouched when the code does not decode, and panics in
    every other case, a code that decodes included.  With a second string
    it hands the decoded contract and that string to the host and returns
    the host's error with the host's cost added to the zero cost. *)
Theorem updateCode_arity (h : Host DB) (args : list value) :
  ((length args <= length updateCode_args)%nat ->
     match args with
     | [VString code] =>
         match (Contract_Decode code).2 with
         | Some e => updateCode h args = Done (h, ([], CommonErrorCost 1, Some e))
         | None => updateCode h args = Panic
         end
     | _ => updateCode h args = Panic
     end) /\
  (forall code id rest,
     args = VString code :: VString id :: rest ->
     (Contract_Decode code).2 = None ->
     updateCode h args =
       let r := UpdateCode h (Contract_Decode code).1 (String.list_byte_of_string id) in
       Done (r.1, ([], AddAssign Cost0 r.2.1, r.2.2))).
Proof.
  split.
  - intros Hlen. destruct args as [|a [|b rest]]; simpl in Hlen; [reflexivity | | lia].
    unfold updateCode. simpl.
    destruct a as [code| | |]; try reflexivity.
    destruct (Contract_Decode code) as [con [e|]]; reflexivity.
  - intros code id rest -> Hdecode. unfold updateCode. simpl.
    destruct (Contract_Decode code) as [con err]. simpl in Hdecode. subst err.
    simpl. destruct (UpdateCode h con (String.list_byte_of_string id)) as [h' [cost1 err]].
    reflexivity.
Qed.

End WithContracts.

(** A host that installs any code: contracts are their text, a text that
    starts with a brace decodes. *)
Definition toy_Contract_Decode (code : string) : string * option error :=
  if String.prefix "{" code then (code, None)
  else (code, Some "invalid character"%string).

Definition toy_UpdateCode (h : Host (gmap string Z)) (con : string) (id : list byte)
    : Host (gmap string Z) * (Cost * option error) :=
  (h, (mkCost (Z.of_nat (String.length con)) 0 0, None)).

Definition toy_CommonErrorCost (n : Z) : Cost := mkCost 0 0 n.

Definition toy_AddAssign (a b : Cost) : Cost :=
  mkCost (Data a + Data b) (Net a + Net b) (CPU a + CPU b).

Lemma updateCode_arity_witness :
  updateCode _ _ toy_Contract_Decode toy_UpdateCode toy_CommonErrorCost toy_AddAssign
    genesis_host [VString "{}"] = Panic /\
  updateCode _ _ toy_Contract_Decode toy_UpdateCode toy_CommonErrorCost toy_AddAssign
    genesis_host [VString "x"] =
    Done (genesis_host, ([], toy_CommonErrorCost 1, Some "invalid character"%string)).
Proof.
  split.
  - apply (proj1 (updateCode_arity _ _ toy_Contract_Decode toy_UpdateCode
                    toy_CommonErrorCost toy_AddAssign genesis_host [VString "{}"])).
    simpl. lia.
  - apply (proj1 (updateCode_arity _ _ toy_Contract_Decode toy_UpdateCode
                    toy_CommonErrorCost toy_AddAssign genesis_host [VString "x"])).
    simpl. lia.
Defined.

End Native.

(** ** Package core/new_txpool: the pending-transaction pool *)

Module TxPool.

(** Hashes are byte slices ([[]byte]) compared with [bytes.Equal].  The
    pool also passes them as keys to its [sync.Map]s ([blockList],
    [pendingTx] and the [txMap] of every block), where Go's runtime has to
    hash them and cannot: see [Load], [Store] and [Delete] below.  What a
    map holds is a finite map here, by the content of the keys that
    [Range] hands back. *)
Abbreviation hash := string (only parsing).


Inductive TFork : Type := NotFork | Fork | ForkError.

(** [tx.Tx]: the fields the pool reads, and the rest of the transaction
    (actions, signers, signatures) as uninterpreted bytes. *)
Record Tx : Type := mkTx {
  Time : Z;
  Expiration : Z;
  GasLimit : Z;
  GasPrice : Z;
  Payload : list byte
}.

Record BlockHead : Type := mkBlockHead {
  Number : Z;
  ParentHash : hash;
  bh_Time : Z;
  Info : list byte
}.

Record Block : Type := mkBlock {
  Head : BlockHead;
  Txs : list Tx
}.

Record BlockCacheNode : Type := mkBlockCacheNode {
  bcn_Block : Block
}.

(** [blockcache.BlockCache] as the pool uses it: the root of the linked
    tree and the lookup of a block by hash. *)
Record BlockCache : Type := mkBlockCache {
  LinkedTree : BlockCacheNode;
  FindBlock : hash -> Block + error
}.

Record RecNode : Type := mkRecNode {
  LinkedNode : BlockCacheNode;
  HeadNode : BlockCacheNode
}.

(** A nil [*BlockCacheNode] is [None]; a nil [ForkBlockHash] is the empty
    hash. *)
Record ForkChain : Type := mkForkChain {
  NewHead : option BlockCacheNode;
  OldHead : option BlockCacheNode;
  ForkBlockHash : hash
}.

Record blockTx : Type := mkBlockTx {
  txMap : gset hash;
  bt_ParentHash : hash;
  cTime : Z
}.

Record TxPoolImpl : Type := mkTxPoolImpl {
  chain : BlockCache;
  forkChain : ForkChain;
  blockList : gmap hash blockTx;
  pendingTx : gmap hash Tx
}.

(** [network.Message]: only the body reaches the pool. *)
Record Message : Type := mkMessage { Body : list byte }.

Definition expiration : Z := 60.
Definition filterTime : Z := expiration + Z.quot expiration 2.

(** [TxsList.Less(i, j)] on the elements at [i] and [j]. *)
Definition Less (a b : Tx) : bool :=
  if GasPrice a >? GasPrice b then true
  else if GasPrice a =? GasPrice b then
    if Time a >? Time b then false else true
  else false.

(** [sort.Sort] is the standard library's.  It is driven by [Less] only;
    the model is its insertion sort (the algorithm it runs on slices of
    fewer than twelve elements): each element in turn moves left while it
    is [Less] than its left neighbour.  [insert_left] works on the sorted
    prefix stored right to left. *)
Fixpoint insert_left (x : Tx) (rprefix : list Tx) : list Tx :=
  match rprefix with
  | [] => [x]
  | y :: rest => if Less x y then y :: insert_left x rest else x :: y :: rest
  end.

Definition sort_Sort (l : list Tx) : list Tx :=
  reverse (fold_left (fun acc x => insert_left x acc) l []).

Definition time (b : blockTx) : Z := cTime b.

Section WithEnvironment.

(** Go's runtime, asked to look a key it cannot hash up in a map that holds
    no entry: the releases that hash the key before they look at the map
    panic there ([true]), the earlier ones return at once ([false]).
    Nothing below fixes which. *)
Variable hashes_on_empty : bool.

(** Methods of packages that the pool imports: the hash of a transaction,
    of a block and of a block head, the signature check and the decoder
    of package tx, the slot clock of package consensus/common. *)
Variable tx_Hash : Tx -> hash.
Variable Block_Hash : Block -> hash.
Variable Head_Hash : BlockHead -> hash.
Variable VerifySelf : Tx -> option error.
Variable Decode : list byte -> Tx + error.
Variable slotToSec : Z -> Z.

(** [sync.Map.Range] visits the entries in an order that is not
    specified. *)
Variable Range : gmap hash Tx -> list (hash * Tx).

(** *** The maps under keys that cannot be hashed

    A [sync.Map] keeps its entries in Go maps whose keys are
    [interface{}] values.  Every key that the pool computes is a [[]byte]:
    [tx.Hash()], [Block.Hash()], a parameter [hash []byte], the assertion
    [key.([]byte)].  The runtime panics ("hash of unhashable type
    []uint8") whenever it hashes such a key. *)

(** [m.Load(key)]: the key is hashed to search a map that holds an entry;
    a map that holds none is searched as [hashes_on_empty] says, and
    nothing is found in it. *)
Definition Load {V : Type} (m : gmap hash V) (key : hash) : run (option V) :=
  if (size m =? 0)%nat
  then (if hashes_on_empty then Panic else Done None)
  else Panic.

(** [m.Store(key, value)]: the key is hashed to insert the entry, whatever
    the map holds. *)
Definition Store {V : Type} (m : gmap hash V) (key : hash) (value : V)
    : run (gmap hash V) := Panic.

(** [m.Delete(key)] searches as [Load] does; a map that holds no entry has
    nothing to lose. *)
Definition Delete {V : Type} (m : gmap hash V) (key : hash) : run (gmap hash V) :=
  if (size m =? 0)%nat
  then (if hashes_on_empty then Panic else Done m)
  else Panic.

(** The same on a [txMap], whose values are all nil: the set of its
    keys. *)
Definition Load_txMap (m : gset hash) (key : hash) : run bool :=
  if (size m =? 0)%nat
  then (if hashes_on_empty then Panic else Done false)
  else Panic.

Definition Store_txMap (m : gset hash) (key : hash) : run (gset hash) := Panic.

(** *** The functions of the pool *)

Definition existTx (b : blockTx) (h : hash) : run bool := Load_txMap (txMap b) h.

(** The loop of [b.addBlock(ib)]: one [Store] for each transaction. *)
Fixpoint storeTxs (txs : list Tx) (m : gset hash) : run (gset hash) :=
  match txs with
  | [] => Done m
  | v :: rest =>
      m ← Store_txMap m (tx_Hash v);
      storeTxs rest m
  end.

Definition blockTx_addBlock (b : blockTx) (ib : Block) : run blockTx :=
  m ← storeTxs (Txs ib) (txMap b);
  Done {| txMap := m; bt_ParentHash := ParentHash (Head ib); cTime := cTime b |}.

Definition set_blockList (pool : TxPoolImpl) (bl : gmap hash blockTx) : TxPoolImpl :=
  {| chain := chain pool; forkChain := forkChain pool;
     blockList := bl; pendingTx := pendingTx pool |}.

Definition set_pendingTx (pool : TxPoolImpl) (p : gmap hash Tx) : TxPoolImpl :=
  {| chain := chain pool; forkChain := forkChain pool;
     blockList := blockList pool; pendingTx := p |}.

Definition set_forkChain (pool : TxPoolImpl) (f : ForkChain) : TxPoolImpl :=
  {| chain := chain pool; forkChain := f;
     blockList := blockList pool; pendingTx := pendingTx pool |}.

Definition set_chain (pool : TxPoolImpl) (c : BlockCache) : TxPoolImpl :=
  {| chain := c; forkChain := forkChain pool;
     blockList := blockList pool; pendingTx := pendingTx pool |}.

(** [addBlock]: the error it returns is always nil. *)
Definition addBlock (pool : TxPoolImpl) (linkedBlock : Block) : run TxPoolImpl :=
  found ← Load (blockList pool) (Block_Hash linkedBlock);
  match found with
  | Some _ => Done pool
  | None =>
      let b := {| txMap := ∅; bt_ParentHash := String.EmptyString;
                  cTime := slotToSec (bh_Time (Head linkedBlock)) |} in
      b ← blockTx_addBlock b linkedBlock;
      bl ← Store (blockList pool) (Block_Hash linkedBlock) b;
      Done (set_blockList pool bl)
  end.

Definition block (pool : TxPoolImpl) (h : hash) : run (option blockTx) :=
  Load (blockList pool) h.

Definition parentHash (pool : TxPoolImpl) (h : hash) : run (option hash) :=
  v ← block pool h;
  match v with
  | Some v => Done (Some (bt_ParentHash v))
  | None => Done None
  end.

Definition existTxInBlock (pool : TxPoolImpl) (txHash blockHash : hash) : run bool :=
  b ← Load (blockList pool) blockHash;
  match b with
  | None => Done false
  | Some b => existTx b txHash
  end.

Definition existTxInPending (pool : TxPoolImpl) (h : hash) : run bool :=
  v ← Load (pendingTx pool) h;
  match v with
  | Some _ => Done true
  | None => Done false
  end.

(** The [for] loop of [existTxInChain], from block hash [h]. *)
Fixpoint existTxInChain_loop (fuel : nat) (pool : TxPoolImpl) (txHash : hash)
    (t : Z) (h : hash) : run bool :=
  match fuel with
  | O => OutOfFuel
  | S fuel' =>
      ret ← existTxInBlock pool txHash h;
      if ret : bool then Done true
      else
        p ← parentHash pool h;
        match p with
        | None => Done false
        | Some h' =>
            b ← block pool h';
            match b with
            | Some b =>
                if wrap64 (t - time b) >? filterTime then Done false
                else existTxInChain_loop fuel' pool txHash t h'
            | None => existTxInChain_loop fuel' pool txHash t h'
            end
        end
  end.

Definition existTxInChain (fuel : nat) (pool : TxPoolImpl) (txHash : hash)
    (blk : Block) : run bool :=
  let h := Head_Hash (Head blk) in
  let t := slotToSec (bh_Time (Head blk)) in
  existTxInChain_loop fuel pool txHash t h.


(** [txTimeOut], with [time.Now().Unix()] as [now]. *)
Definition txTimeOut (now : Z) (tx : Tx) : bool :=
  let nTime := now in
  let txTime := Z.quot (Time tx) 1000000000 in
  let exTime := Z.quot (Expiration tx) 1000000000 in
  if exTime <=? nTime then true
  else if wrap64 (nTime - txTime) >? expiration then true
  else false.

(** [addTx(tx)]: [pool.forkChain.NewHead.Block] is read before the walk;
    the pending map is searched only when the walk has not found the
    hash.  The entry to store is the pointer [tx], whose pointee is
    [stored] when the map is read. *)
Definition addTx (fuel : nat) (pool : TxPoolImpl) (tx stored : Tx) : run TxPoolImpl :=
  let h := tx_Hash tx in
  match NewHead (forkChain pool) with
  | None => Panic
  | Some newHead =>
      inChain ← existTxInChain fuel pool h (bcn_Block newHead);
      if inChain : bool then Done pool
      else
        inPending ← existTxInPending pool h;
        if inPending : bool then Done pool
        else
          p ← Store (pendingTx pool) h stored;
          Done (set_pendingTx pool p)
  end.

(** The [chTx] case of [loop]. *)
Definition loop_chTx (fuel : nat) (now : Z) (pool : TxPoolImpl) (tr : Message) : run TxPoolImpl :=
  match Decode (Body tr) with
  | inr _ => Done pool
  | inl tx =>
      if txTimeOut now tx then Done pool
      else
        match VerifySelf tx with
        | Some _ => addTx fuel pool tx tx
        | None => Done pool
        end
  end.

Definition delTxInPending (pool : TxPoolImpl) (h : hash) : run TxPoolImpl :=
  p ← Delete (pendingTx pool) h;
  Done (set_pendingTx pool p).

(** [b.txMap.Range] in [delBlockTxInPending]: [pendingTx.Delete(key)] with
    the key as [Range] hands it back. *)
Definition delTxs (pool : TxPoolImpl) (b : blockTx) : TxPoolImpl :=
  set_pendingTx pool (filter (fun kv => kv.1 ∉ txMap b) (pendingTx pool)).

(** [delBlockTxInPending]: the error it returns is always nil. *)
Definition delBlockTxInPending (pool : TxPoolImpl) (h : hash) : run TxPoolImpl :=
  b ← block pool h;
  match b with
  | None => Done pool
  | Some b => Done (delTxs pool b)
  end.

Definition clearTxPending (pool : TxPoolImpl) : TxPoolImpl :=
  set_pendingTx pool ∅.

Fixpoint fundBlockInChain_loop (fuel : nat) (pool : TxPoolImpl) (h c : hash) : run (option hash) :=
  match fuel with
  | O => OutOfFuel
  | S fuel' =>
      b ← block pool c;
      match b with
      | None => Done None
      | Some b =>
          if bool_decide (bt_ParentHash b = h) then Done (Some h)
          else fundBlockInChain_loop fuel' pool h (bt_ParentHash b)
      end
  end.

Definition fundBlockInChain (fuel : nat) (pool : TxPoolImpl) (h chainHead : hash) : run (option hash) :=
  if bool_decide (h = chainHead) then Done (Some h)
  else fundBlockInChain_loop fuel pool h chainHead.

Fixpoint fundForkBlockHash_loop (fuel k : nat) (pool : TxPoolImpl) (n o : hash)
    : run (TxPoolImpl * option hash) :=
  match k with
  | O => OutOfFuel
  | S k' =>
      r ← fundBlockInChain fuel pool n o;
      match r with
      | Some forkHash => Done (pool, Some forkHash)
      | None =>
          let next (pool : TxPoolImpl) (b : blockTx) :=
            if bool_decide
                 (ParentHash (Head (bcn_Block (LinkedTree (chain pool)))) = bt_ParentHash b)
            then Done (pool, None)
            else fundForkBlockHash_loop fuel k' pool (bt_ParentHash b) o in
          b ← block pool n;
          match b with
          | Some b => next pool b
          | None =>
              match FindBlock (chain pool) n with
              | inr _ => Done (pool, None)
              | inl bb =>
                  pool ← addBlock pool bb;
                  b ← block pool n;
                  match b with
                  | None => Done (pool, None)
                  | Some b => next pool b
                  end
              end
          end
      end
  end.

Definition fundForkBlockHash (fuel : nat) (pool : TxPoolImpl) (newHash oldHash : hash)
    : run (TxPoolImpl * option hash) :=
  if bool_decide (newHash = oldHash) then Done (pool, Some newHash)
  else fundForkBlockHash_loop fuel fuel pool newHash oldHash.

Definition updateForkChain (fuel : nat) (pool : TxPoolImpl) (headNode : BlockCacheNode)
    : run (TxPoolImpl * TFork) :=
  match NewHead (forkChain pool) with
  | None =>
      Done (set_forkChain pool
              {| NewHead := Some headNode; OldHead := OldHead (forkChain pool);
                 ForkBlockHash := ForkBlockHash (forkChain pool) |}, NotFork)
  | Some newHead =>
      if bool_decide (Block_Hash (bcn_Block newHead) = ParentHash (Head (bcn_Block headNode)))
      then
        Done (set_forkChain pool
                {| NewHead := Some headNode; OldHead := OldHead (forkChain pool);
                   ForkBlockHash := ForkBlockHash (forkChain pool) |}, NotFork)
      else
        let pool := set_forkChain pool
                      {| NewHead := Some headNode; OldHead := Some newHead;
                         ForkBlockHash := ForkBlockHash (forkChain pool) |} in
        r ← fundForkBlockHash fuel pool (Block_Hash (bcn_Block headNode))
              (Block_Hash (bcn_Block newHead));
        match r with
        | (pool, None) => Done (pool, ForkError)
        | (pool, Some h) =>
            Done (set_forkChain pool
                    {| NewHead := NewHead (forkChain pool);
                       OldHead := OldHead (forkChain pool);
                       ForkBlockHash := h |}, Fork)
        end
  end.

(** [for _, v := range b.Txs { pool.addTx(&v) }]: every call receives the
    address of the one loop variable [v], whose last value is [final]. *)
Fixpoint replayTxs (fuel : nat) (pool : TxPoolImpl) (txs : list Tx) (final : Tx) : run TxPoolImpl :=
  match txs with
  | [] => Done pool
  | v :: rest =>
      pool ← addTx fuel pool v final;
      replayTxs fuel pool rest final
  end.

(** [b.txMap.Range] in [doChainChange]: [delTxInPending(key.([]byte))] for
    every key, in the order of [Range]. *)
Fixpoint delKeysInPending (pool : TxPoolImpl) (keys : list hash) : run TxPoolImpl :=
  match keys with
  | [] => Done pool
  | key :: rest =>
      pool ← delTxInPending pool key;
      delKeysInPending pool rest
  end.

(** Second loop of [doChainChange]: drop the transactions of the new
    branch from [pendingTx]. *)
Fixpoint doChainChange_dup (k : nat) (pool : TxPoolImpl) (n f : hash) : run (TxPoolImpl * option error) :=
  match k with
  | O => OutOfFuel
  | S k' =>
      b ← block pool n;
      match b with
      | None => Done (pool, Some "doForkChain is error"%string)
      | Some b =>
          pool ← delKeysInPending pool (elements (txMap b));
          if bool_decide (bt_ParentHash b = f) then Done (pool, None)
          else doChainChange_dup k' pool (bt_ParentHash b) f
      end
  end.

(** First loop of [doChainChange]: put back the transactions of the
    abandoned branch; then the second loop. *)
Fixpoint doChainChange_reply (fuel k : nat) (pool : TxPoolImpl) (n o f : hash) : run (TxPoolImpl * option error) :=
  match k with
  | O => OutOfFuel
  | S k' =>
      match FindBlock (chain pool) o with
      | inr err => Done (pool, Some err)
      | inl b =>
          pool ← replayTxs fuel pool (Txs b) (List.last (Txs b) (mkTx 0 0 0 0 []));
          if bool_decide (ParentHash (Head b) = f)
          then doChainChange_dup fuel pool n f
          else doChainChange_reply fuel k' pool n (ParentHash (Head b)) f
      end
  end.

Definition doChainChange (fuel : nat) (pool : TxPoolImpl) : run (TxPoolImpl * option error) :=
  match NewHead (forkChain pool), OldHead (forkChain pool) with
  | Some newHead, Some oldHead =>
      let n := Block_Hash (bcn_Block newHead) in
      let o := Block_Hash (bcn_Block oldHead) in
      let f := ForkBlockHash (forkChain pool) in
      doChainChange_reply fuel fuel pool n o f
  | _, _ => Panic
  end.

(** The [chLinkedNode] case of [loop] from [updateForkChain] on: the
    [switch] on what it returns. *)
Definition loop_chLinkedNode_switch (fuel : nat) (pool : TxPoolImpl) (bl : RecNode)
    : run TxPoolImpl :=
  r ← updateForkChain fuel pool (HeadNode bl);
  match r with
  | (pool, ForkError) => Done (clearTxPending pool)
  | (pool, Fork) =>
      r ← doChainChange fuel pool;
      match r with
      | (pool, Some _) => Done (clearTxPending pool)
      | (pool, None) => Done pool
      end
  | (pool, NotFork) =>
      delBlockTxInPending pool (Block_Hash (bcn_Block (LinkedNode bl)))
  end.

(** The [chLinkedNode] case of [loop]: [addBlock], whose error is never
    other than nil, and then the [switch]. *)
Definition loop_chLinkedNode (fuel : nat) (pool : TxPoolImpl) (bl : RecNode) : run TxPoolImpl :=
  pool ← addBlock pool (bcn_Block (LinkedNode bl));
  loop_chLinkedNode_switch fuel pool bl.

(** [PendingTxs(maxCnt)]; the slice expression [pendingList[:len]] panics
    on a negative bound. *)
Definition PendingTxs (pool : TxPoolImpl) (maxCnt : Z) : run (list Tx * option error) :=
  let pendingList := map snd (Range (pendingTx pool)) in
  let pendingList := sort_Sort pendingList in
  let len := Z.of_nat (length pendingList) in
  let len := if len >=? maxCnt then maxCnt else len in
  if len <? 0 then Panic
  else Done (firstn (Z.to_nat len) pendingList, None).

(** *** The order of [PendingTxs] *)

(** [a] may stand before [b]: a higher gas price, or the same gas price
    and a time that is not later. *)
Definition before (a b : Tx) : Prop :=
  GasPrice a > GasPrice b \/ (GasPrice a = GasPrice b /\ Time a <= Time b).

Lemma Less_before a b : Less a b = true <-> before a b.
Proof.
  unfold Less, before.
  destruct (Z.gtb_spec (GasPrice a) (GasPrice b));
    destruct (Z.eqb_spec (GasPrice a) (GasPrice b));
    destruct (Z.gtb_spec (Time a) (Time b)); split; intros; try lia;
    try discriminate; try reflexivity.
Qed.

Lemma before_total a b : before a b \/ before b a.
Proof. unfold before. lia. Qed.

Lemma before_trans a b c : before a b -> before b c -> before a c.
Proof. unfold before. lia. Qed.

Lemma insert_left_perm x acc : insert_left x acc ≡ₚ x :: acc.
Proof.
  induction acc as [|y rest IH]; simpl; [reflexivity |].
  destruct (Less x y); [| reflexivity].
  rewrite IH. apply Permutation_swap.
Qed.

Lemma insert_left_sorted x acc :
  StronglySorted (flip before) acc ->
  StronglySorted (flip before) (insert_left x acc).
Proof.
  induction acc as [|y rest IH]; simpl; intros Hs.
  - repeat constructor.
  - apply StronglySorted_cons in Hs as [Hall Hrest].
    destruct (Less x y) eqn:Hxy.
    + apply StronglySorted_cons. split; [| auto].
      rewrite insert_left_perm. constructor; [| exact Hall].
      apply Less_before in Hxy. exact Hxy.
    + assert (Hyx : before y x).
      { destruct (before_total x y) as [H|H]; [| exact H].
        apply Less_before in H. congruence. }
      apply StronglySorted_cons. split.
      * constructor; [exact Hyx |].
        eapply Forall_impl; [exact Hall |].
        intros z Hz. unfold flip in *. eauto using before_trans.
      * apply StronglySorted_cons. auto.
Qed.

Lemma fold_insert_left_sorted l acc :
  StronglySorted (flip before) acc ->
  StronglySorted (flip before) (fold_left (fun acc x => insert_left x acc) l acc)
  /\ fold_left (fun acc x => insert_left x acc) l acc ≡ₚ l ++ acc.
Proof.
  revert acc. induction l as [|x l IH]; simpl; intros acc Hs.
  - split; [exact Hs | reflexivity].
  - destruct (IH (insert_left x acc) (insert_left_sorted x acc Hs)) as [H1 H2].
    split; [exact H1 |].
    rewrite H2, insert_left_perm. symmetry. apply Permutation_middle.
Qed.

Lemma StronglySorted_reverse (R : relation Tx) l :
  StronglySorted (flip R) l -> StronglySorted R (reverse l).
Proof.
  induction l as [|x l IH]; intros Hs.
  - constructor.
  - apply StronglySorted_cons in Hs as [Hall Hrest].
    rewrite reverse_cons. apply StronglySorted_app_2.
    + intros x1 x2 H1 H2. apply list_elem_of_singleton in H2 as ->.
      rewrite elem_of_reverse in H1.
      rewrite Forall_forall in Hall. apply Hall. exact H1.
    + auto.
    + repeat constructor.
Qed.

Lemma sort_Sort_sorted l : StronglySorted before (sort_Sort l).
Proof.
  unfold sort_Sort. apply StronglySorted_reverse.
  apply fold_insert_left_sorted. constructor.
Qed.

Lemma sort_Sort_perm l : sort_Sort l ≡ₚ l.
Proof.
  unfold sort_Sort. rewrite reverse_Permutation.
  destruct (fold_insert_left_sorted l [] ltac:(constructor)) as [_ H].
  rewrite H, app_nil_r. reflexivity.
Qed.

(** C7 (as amended).  For a bound that is not negative, [PendingTxs]
    returns, with a nil error and nothing else, the first [maxCnt] elements
    of a list that holds the values of [pendingTx], each entry once, in the
    order of [before]: gas price descending, time ascending among equal gas
    prices.  Hence it returns at most [maxCnt] transactions, all of them
    from [pendingTx]. *)
Theorem PendingTxs_spec (pool : TxPoolImpl) (maxCnt : Z)
    (HRange : forall m, Range m ≡ₚ map_to_list m)
    (Hmax : 0 <= maxCnt) :
  exists sorted : list Tx,
    PendingTxs pool maxCnt = Done (firstn (Z.to_nat maxCnt) sorted, None) /\
    sorted ≡ₚ map snd (map_to_list (pendingTx pool)) /\
    StronglySorted before sorted /\
    StronglySorted before (firstn (Z.to_nat maxCnt) sorted) /\
    Z.of_nat (length (firstn (Z.to_nat maxCnt) sorted)) <= maxCnt /\
    (forall tx, tx ∈ firstn (Z.to_nat maxCnt) sorted ->
       exists h, pendingTx pool !! h = Some tx).
Proof.
  exists (sort_Sort (map snd (Range (pendingTx pool)))).
  assert (Hperm : sort_Sort (map snd (Range (pendingTx pool))) ≡ₚ
                    map snd (map_to_list (pendingTx pool))).
  { rewrite sort_Sort_perm, HRange. reflexivity. }
  repeat split.
  - unfold PendingTxs.
    set (l := sort_Sort (map snd (Range (pendingTx pool)))).
    destruct (Z.geb_spec (Z.of_nat (length l)) maxCnt) as [Hge|Hlt].
    + destruct (Z.ltb_spec maxCnt 0); [lia | reflexivity].
    + destruct (Z.ltb_spec (Z.of_nat (length l)) 0); [lia |].
      rewrite Nat2Z.id.
      rewrite firstn_all, (firstn_all2 (n := Z.to_nat maxCnt)) by lia.
      reflexivity.
  - exact Hperm.
  - apply sort_Sort_sorted.
  - pose proof (sort_Sort_sorted (map snd (Range (pendingTx pool)))) as Hs.
    rewrite <- (firstn_skipn (Z.to_nat maxCnt)) in Hs.
    eapply StronglySorted_app_1_l. exact Hs.
  - rewrite length_firstn. lia.
  - intros tx Hin.
    assert (Hin' : tx ∈ map snd (map_to_list (pendingTx pool))).
    { rewrite <- Hperm. eapply subseteq_take. exact Hin. }
    apply list_elem_of_In, in_map_iff in Hin' as ([h tx'] & Heq & Hin').
    simpl in Heq. subst tx'. exists h.
    apply elem_of_map_to_list, list_elem_of_In. exact Hin'.
Qed.

(** *** What the keyed operations do *)

Lemma Load_Done {V : Type} (m : gmap hash V) (key : hash) (r : option V) :
  Load m key = Done r -> r = None /\ m = ∅ /\ hashes_on_empty = false.
Proof.
  unfold Load. destruct (Nat.eqb_spec (size m) 0) as [Hsize|]; [| discriminate].
  destruct hashes_on_empty; [discriminate |]. intros [= <-].
  split; [reflexivity |]. split; [apply map_size_empty_iff; exact Hsize | reflexivity].
Qed.

Lemma Load_empty {V : Type} (m : gmap hash V) (key : hash) :
  hashes_on_empty = false -> m = ∅ -> Load m key = Done None.
Proof. intros Hrt ->. unfold Load. rewrite map_size_empty, Hrt. reflexivity. Qed.

Lemma Load_held {V : Type} (m : gmap hash V) (key : hash) :
  m <> ∅ -> Load m key = Panic.
Proof.
  intros Hm. unfold Load. destruct (Nat.eqb_spec (size m) 0) as [Hsize|]; [| reflexivity].
  apply map_size_empty_iff in Hsize. contradiction.
Qed.

Lemma Load_cases {V : Type} (m : gmap hash V) (key : hash) :
  Load m key = Panic \/
  (Load m key = Done None /\ m = ∅ /\ hashes_on_empty = false).
Proof.
  destruct (Load m key) as [r| |] eqn:Hload.
  - right. destruct (Load_Done _ _ _ Hload) as (-> & Hm & Hrt). auto.
  - left. reflexivity.
  - unfold Load in Hload. destruct (size m =? 0)%nat, hashes_on_empty; discriminate.
Qed.

Lemma Delete_Done {V : Type} (m : gmap hash V) (key : hash) (m' : gmap hash V) :
  Delete m key = Done m' -> m' = m /\ m = ∅ /\ hashes_on_empty = false.
Proof.
  unfold Delete. destruct (Nat.eqb_spec (size m) 0) as [Hsize|]; [| discriminate].
  destruct hashes_on_empty; [discriminate |]. intros [= <-].
  split; [reflexivity |]. split; [apply map_size_empty_iff; exact Hsize | reflexivity].
Qed.

Lemma Delete_held {V : Type} (m : gmap hash V) (key : hash) :
  m <> ∅ -> Delete m key = Panic.
Proof.
  intros Hm. unfold Delete. destruct (Nat.eqb_spec (size m) 0) as [Hsize|]; [| reflexivity].
  apply map_size_empty_iff in Hsize. contradiction.
Qed.

(** *** Looking a transaction up *)

(** One round of the walk is all there is: the block is not found, so
    neither is its parent. *)
Lemma existTxInChain_loop_S (fuel : nat) (pool : TxPoolImpl) (txHash : hash)
    (t : Z) (h : hash) :
  existTxInChain_loop (S fuel) pool txHash t h =
  (b ← Load (blockList pool) h; Done false).
Proof.
  cbn [existTxInChain_loop]. unfold existTxInBlock, parentHash, block.
  destruct (Load_cases (blockList pool) h) as [-> | (-> & _)]; reflexivity.
Qed.

Lemma existTxInChain_Done (fuel : nat) (pool : TxPoolImpl) (txHash : hash)
    (blk : Block) (r : bool) :
  existTxInChain fuel pool txHash blk = Done r ->
  r = false /\ blockList pool = ∅ /\ hashes_on_empty = false.
Proof.
  unfold existTxInChain. destruct fuel as [|fuel]; [discriminate |].
  rewrite existTxInChain_loop_S.
  destruct (Load_cases (blockList pool) (Head_Hash (Head blk))) as [-> | (-> & Hbl & Hrt)];
    [discriminate |].
  intros [= <-]. auto.
Qed.






(** *** Admission of a received transaction *)

(** [addTx] does not come back: a map that holds an entry stops the
    searches, and on maps that hold none the transaction is neither on the
    chain nor pending, so that [Store] is called. *)
Lemma addTx_S (fuel : nat) (pool : TxPoolImpl) (tx stored : Tx) :
  addTx (S fuel) pool tx stored = Panic.
Proof.
  unfold addTx. destruct (NewHead (forkChain pool)) as [newHead|]; [| reflexivity].
  unfold existTxInChain. rewrite existTxInChain_loop_S.
  destruct (Load_cases (blockList pool) (Head_Hash (Head (bcn_Block newHead))))
    as [-> | (-> & _)]; [reflexivity |].
  unfold existTxInPending. cbn [mbind run_bind].
  destruct (Load_cases (pendingTx pool) (tx_Hash tx)) as [-> | (-> & _)]; reflexivity.
Qed.

Lemma addTx_not_Done (fuel : nat) (pool pool' : TxPoolImpl) (tx stored : Tx) :
  addTx fuel pool tx stored <> Done pool'.
Proof.
  destruct fuel as [|fuel]; [| rewrite addTx_S; discriminate].
  unfold addTx. destruct (NewHead (forkChain pool)); discriminate.
Qed.

(** C1.  A step of the loop on a received message changes nothing when it
    completes: no transaction is inserted into [pendingTx], so none whose
    [VerifySelf] fails and none that is on the chain already.  Of the
    transactions that decode and are not timed out, the one whose
    [VerifySelf] returns nil is dropped and the step completes; the one
    whose [VerifySelf] returns an error is handed to [addTx], where the
    step panics. *)
Theorem loop_chTx_inserts_nothing (fuel : nat) (now : Z) (pool : TxPoolImpl)
    (tr : Message) :
  (forall pool', loop_chTx fuel now pool tr = Done pool' -> pool' = pool) /\
  (forall tx,
     Decode (Body tr) = inl tx -> txTimeOut now tx = false ->
     (VerifySelf tx = None -> loop_chTx fuel now pool tr = Done pool) /\
     (VerifySelf tx <> None ->
        loop_chTx (S fuel) now pool tr = Panic /\
        forall pool', loop_chTx fuel now pool tr <> Done pool')).
Proof.
  split.
  - intros pool'. unfold loop_chTx.
    destruct (Decode (Body tr)) as [tx|e]; [| intros [= <-]; reflexivity].
    destruct (txTimeOut now tx); [intros [= <-]; reflexivity |].
    destruct (VerifySelf tx); [| intros [= <-]; reflexivity].
    intros Hadd. exfalso. exact (addTx_not_Done _ _ _ _ _ Hadd).
  - intros tx HD HT. unfold loop_chTx. rewrite HD, HT. split.
    + intros ->. reflexivity.
    + intros HV. destruct (VerifySelf tx) as [e|]; [| contradiction].
      split; [apply addTx_S | intros pool'; apply addTx_not_Done].
Qed.

(** *** Reorganisation *)


(** *** Pending transactions *)

(** X4.  [txTimeOut] does not go back: a transaction that is timed out at
    one second is timed out at every later one, as long as the age of the
    transaction fits an [int64]. *)
Theorem txTimeOut_later (now later : Z) (tx : Tx) :
  now <= later ->
  int64_range (later - Z.quot (Time tx) 1000000000) ->
  int64_range (now - Z.quot (Time tx) 1000000000) ->
  txTimeOut now tx = true -> txTimeOut later tx = true.
Proof.
  unfold txTimeOut. intros Hle Hlater Hnow.
  rewrite !wrap64_id by assumption.
  destruct (Z.leb_spec (Z.quot (Expiration tx) 1000000000) now);
    destruct (Z.leb_spec (Z.quot (Expiration tx) 1000000000) later);
    try reflexivity; try lia.
  unfold expiration.
  destruct (Z.gtb_spec (now - Z.quot (Time tx) 1000000000) 60);
    destruct (Z.gtb_spec (later - Z.quot (Time tx) 1000000000) 60);
    try reflexivity; try discriminate; lia.
Qed.

(** *** The sweeps of the ticker *)

(** [sync.Map.Range] on the block list; like [Range], in an order that is
    not specified. *)
Variable RangeBlocks : gmap hash blockTx -> list (hash * blockTx).

(** [blockList.Range] in [clearBlock]: [Range] walks the entries it found
    at the start and skips those deleted since. *)
Fixpoint clearBlock_range (ft : Z) (pool : TxPoolImpl)
    (entries : list (hash * blockTx)) : TxPoolImpl :=
  match entries with
  | [] => pool
  | (key, _) :: rest =>
      match blockList pool !! key with
      | None => clearBlock_range ft pool rest
      | Some value =>
          if time value <? ft
          then clearBlock_range ft
                 (set_blockList pool (delete key (blockList pool))) rest
          else clearBlock_range ft pool rest
      end
  end.

Definition clearBlock (pool : TxPoolImpl) : TxPoolImpl :=
  let ft :=
    wrap64 (slotToSec (bh_Time (Head (bcn_Block (LinkedTree (chain pool)))))
            - filterTime) in
  clearBlock_range ft pool (RangeBlocks (blockList pool)).

(** [pendingTx.Range] in [clearTimeOutTx]: a timed-out value is handed to
    [delTxInPending] under its own hash.  The clock is read for every
    entry; the sweep is taken within one second [now].  [delTxInPending]
    removes no entry when it returns, so the walk meets every entry that
    [Range] found. *)
Fixpoint clearTimeOutTx_range (now : Z) (pool : TxPoolImpl)
    (entries : list (hash * Tx)) : run TxPoolImpl :=
  match entries with
  | [] => Done pool
  | (_, value) :: rest =>
      if txTimeOut now value
      then
        pool ← delTxInPending pool (tx_Hash value);
        clearTimeOutTx_range now pool rest
      else clearTimeOutTx_range now pool rest
  end.

Definition clearTimeOutTx (now : Z) (pool : TxPoolImpl) : run TxPoolImpl :=
  clearTimeOutTx_range now pool (Range (pendingTx pool)).

Lemma clearBlock_range_spec ft :
  forall entries pool,
    NoDup entries.*1 ->
    (forall k v, (k, v) ∈ entries -> blockList pool !! k = Some v) ->
    blockList (clearBlock_range ft pool entries) =
      filter (fun kv => kv.1 ∉ entries.*1 \/ ft <= cTime kv.2) (blockList pool) /\
    pendingTx (clearBlock_range ft pool entries) = pendingTx pool /\
    forkChain (clearBlock_range ft pool entries) = forkChain pool.
Proof.
  induction entries as [|[k v] rest IH]; intros pool Hnodup Hentries; simpl.
  - split; [| auto]. symmetry. apply map_filter_id. intros i x _. left.
    simpl. apply not_elem_of_nil.
  - apply NoDup_cons in Hnodup as [Hk Hrest].
    rewrite (Hentries k v) by apply list_elem_of_here. unfold time.
    destruct (Z.ltb_spec (cTime v) ft) as [Hold|Hyoung].
    + destruct (IH (set_blockList pool (delete k (blockList pool))) Hrest)
        as (Hbl & Hp & Hf).
      { intros k' v' Hin. simpl.
        rewrite lookup_delete_ne.
        - apply Hentries. apply list_elem_of_further. exact Hin.
        - intros <-. apply Hk. apply list_elem_of_fmap. exists (k, v'). auto. }
      rewrite Hbl, Hp, Hf. simpl. split; [| auto].
      apply map_eq. intros i. apply option_eq. intros x.
      rewrite !map_lookup_filter_Some, lookup_delete_Some. simpl.
      rewrite elem_of_cons. split.
      * intros [[Hne Hi] [Hnot | Hge]]; (split; [exact Hi |]); [left | right; exact Hge].
        intros [-> | Hin]; [congruence | contradiction].
      * intros [Hi [Hnot | Hge]].
        -- split; [split; [| exact Hi] | left]; intros ?; apply Hnot; auto.
        -- split; [split; [| exact Hi] | right; exact Hge].
           intros <-. rewrite (Hentries k v) in Hi by apply list_elem_of_here.
           injection Hi as <-. lia.
    + destruct (IH pool Hrest) as (Hbl & Hp & Hf).
      { intros k' v' Hin. apply Hentries. apply list_elem_of_further. exact Hin. }
      rewrite Hbl, Hp, Hf. split; [| auto].
      apply map_filter_ext. intros i x Hi. simpl. rewrite elem_of_cons. split.
      * intros [Hnot | Hge]; [| auto].
        destruct (decide (i = k)) as [->|Hne]; [| left; intros [? | ?]; auto].
        right. rewrite (Hentries k v) in Hi by apply list_elem_of_here.
        injection Hi as <-. exact Hyoung.
      * intros [Hnot | Hge]; [left | right; exact Hge].
        intros Hin. apply Hnot. auto.
Qed.

(** X11.  After [clearBlock] the block list holds exactly the blocks that
    it held and that are not older than the time of the root of the linked
    tree less [filterTime]; nothing else of the pool changes. *)
Theorem clearBlock_spec (pool : TxPoolImpl)
    (HRange : forall m, RangeBlocks m ≡ₚ map_to_list m) :
  let ft :=
    wrap64 (slotToSec (bh_Time (Head (bcn_Block (LinkedTree (chain pool)))))
            - filterTime) in
  blockList (clearBlock pool) = filter (fun kv => ft <= cTime kv.2) (blockList pool) /\
  pendingTx (clearBlock pool) = pendingTx pool /\
  forkChain (clearBlock pool) = forkChain pool.
Proof.
  intros ft. unfold clearBlock. fold ft.
  destruct (clearBlock_range_spec ft (RangeBlocks (blockList pool)) pool)
    as (Hbl & Hp & Hf).
  - rewrite HRange. apply NoDup_fst_map_to_list.
  - intros k v Hin. rewrite HRange in Hin. apply elem_of_map_to_list. exact Hin.
  - rewrite Hbl. split; [| auto].
    apply map_filter_ext. intros i x Hi. simpl. split; [| auto].
    intros [Hnot | Hge]; [| exact Hge]. exfalso. apply Hnot.
    apply list_elem_of_fmap. exists (i, x). split; [reflexivity |].
    rewrite HRange. apply elem_of_map_to_list. exact Hi.
Qed.

(** X13.  [TxsList.Less] is total and transitive, and it holds of an
    element and itself: it is the order "not after", not the strict order
    that [sort.Interface] asks for. *)
Theorem Less_total_preorder (a b c : Tx) :
  Less a a = true /\
  (Less a b = true \/ Less b a = true) /\
  (Less a b = true -> Less b c = true -> Less a c = true) /\
  (Less a b = true -> Less b a = true ->
     GasPrice a = GasPrice b /\ Time a = Time b).
Proof.
  rewrite !Less_before. unfold before. repeat split; lia.
Qed.

(** *** What the unhashable keys leave of the pool *)

Lemma addBlock_Panic (pool : TxPoolImpl) (linkedBlock : Block) :
  addBlock pool linkedBlock = Panic.
Proof.
  unfold addBlock.
  destruct (Load_cases (blockList pool) (Block_Hash linkedBlock)) as [-> | (-> & _)];
    [reflexivity |].
  cbn [mbind run_bind]. unfold blockTx_addBlock. cbn [txMap].
  destruct (Txs linkedBlock); reflexivity.
Qed.

(** X1.  [addBlock] lists no block: whatever the pool and the block, the
    call panics, at the search of [blockList] when that holds an entry or
    the runtime hashes on an empty map, else at the [Store] of the block's
    first transaction, else at the [Store] of the block itself.  So does
    the step of the loop on a linked node, which starts with it. *)
Theorem addBlock_panics (pool : TxPoolImpl) (linkedBlock : Block) :
  addBlock pool linkedBlock = Panic /\
  forall fuel bl, loop_chLinkedNode fuel pool bl = Panic.
Proof.
  split; [apply addBlock_Panic |].
  intros fuel bl. unfold loop_chLinkedNode. rewrite addBlock_Panic. reflexivity.
Qed.

Lemma replayTxs_Done (fuel : nat) (pool pool' : TxPoolImpl) (txs : list Tx) (final : Tx) :
  replayTxs fuel pool txs final = Done pool' -> txs = [] /\ pool' = pool.
Proof.
  destruct txs as [|v rest]; simpl.
  - intros [= <-]. auto.
  - destruct (addTx fuel pool v final) as [p| |] eqn:Hadd; try discriminate.
    exfalso. exact (addTx_not_Done _ _ _ _ _ Hadd).
Qed.

(** X2.  [addTx] never returns, so nothing gets into [pendingTx] through
    it: it panics at the nil [NewHead], at a search of a map that holds an
    entry, or else at its own [Store]; the one round of the walk before is
    all it needs.  The loop of [doChainChange] that puts transactions back
    therefore only gets past a block without transactions. *)
Theorem addTx_panics (fuel : nat) (pool : TxPoolImpl) (tx stored : Tx) :
  addTx (S fuel) pool tx stored = Panic /\
  (forall pool', addTx fuel pool tx stored <> Done pool') /\
  (forall txs final pool',
     replayTxs fuel pool txs final = Done pool' -> txs = [] /\ pool' = pool).
Proof.
  split; [apply addTx_S |]. split; [intros pool'; apply addTx_not_Done |].
  intros txs final pool'. apply replayTxs_Done.
Qed.

(** X5.  The walk of [existTxInChain] finds no transaction and takes one
    round: it returns false on a block list without entries, under a
    runtime that does not hash on an empty map, and panics in every other
    case. *)
Theorem existTxInChain_never_finds (fuel : nat) (pool : TxPoolImpl) (txHash : hash)
    (blk : Block) :
  (forall r, existTxInChain fuel pool txHash blk = Done r ->
     r = false /\ blockList pool = ∅ /\ hashes_on_empty = false) /\
  (hashes_on_empty = false -> blockList pool = ∅ ->
     existTxInChain (S fuel) pool txHash blk = Done false) /\
  (hashes_on_empty = true \/ blockList pool <> ∅ ->
     existTxInChain (S fuel) pool txHash blk = Panic).
Proof.
  split; [intros r; apply existTxInChain_Done |].
  unfold existTxInChain. rewrite existTxInChain_loop_S. split.
  - intros Hrt Hbl. rewrite Load_empty by assumption. reflexivity.
  - intros Hcase.
    destruct (Load_cases (blockList pool) (Head_Hash (Head blk)))
      as [-> | (_ & Hbl & Hrt)]; [reflexivity |].
    destruct Hcase as [Hcase | Hcase]; congruence.
Qed.

(** *** The fork chain *)

Lemma fundBlockInChain_differ (fuel : nat) (pool : TxPoolImpl) (h c : hash) :
  h <> c ->
  fundBlockInChain (S fuel) pool h c = (b ← Load (blockList pool) c; Done None).
Proof.
  intros Hne. unfold fundBlockInChain. rewrite bool_decide_eq_false_2 by exact Hne.
  cbn [fundBlockInChain_loop]. unfold block.
  destruct (Load_cases (blockList pool) c) as [-> | (-> & _)]; reflexivity.
Qed.

Lemma fundForkBlockHash_differ (fuel : nat) (pool : TxPoolImpl) (n o : hash) :
  n <> o ->
  forall pool' r,
    fundForkBlockHash fuel pool n o = Done (pool', r) ->
    r = None /\ pool' = pool /\ blockList pool = ∅ /\ hashes_on_empty = false /\
    exists e, FindBlock (chain pool) n = inr e.
Proof.
  intros Hne pool' r. unfold fundForkBlockHash.
  rewrite bool_decide_eq_false_2 by exact Hne.
  destruct fuel as [|fuel]; [discriminate |].
  cbn [fundForkBlockHash_loop]. rewrite fundBlockInChain_differ by exact Hne.
  destruct (Load_cases (blockList pool) o) as [-> | (-> & Hbl & Hrt)]; [discriminate |].
  cbn [mbind run_bind]. unfold block.
  rewrite (Load_empty _ n Hrt Hbl). cbn [mbind run_bind].
  destruct (FindBlock (chain pool) n) as [bb|e] eqn:Hfind.
  - rewrite addBlock_Panic. discriminate.
  - intros [= <- <-]. eauto 6.
Qed.

Lemma fundForkBlockHash_lost (fuel : nat) (pool : TxPoolImpl) (n o : hash) (e : error) :
  n <> o -> hashes_on_empty = false -> blockList pool = ∅ ->
  FindBlock (chain pool) n = inr e ->
  fundForkBlockHash (S fuel) pool n o = Done (pool, None).
Proof.
  intros Hne Hrt Hbl Hfind. unfold fundForkBlockHash.
  rewrite bool_decide_eq_false_2 by exact Hne.
  cbn [fundForkBlockHash_loop]. rewrite fundBlockInChain_differ by exact Hne.
  unfold block. rewrite !Load_empty by assumption. cbn [mbind run_bind].
  rewrite Hfind. reflexivity.
Qed.

(** X9.  [updateForkChain] records the head it is given as the new head.
    It answers [NotFork] when no head was recorded or when the head given
    has the recorded one as its parent.  Otherwise the recorded head
    becomes the old head, and the answer is [Fork] only when both heads
    have the same hash, which is then the fork hash: between heads of
    different hashes no fork point is ever found, the call answers
    [ForkError] (on a block list without entries, the chain store not
    knowing the new head) or does not return. *)
Theorem updateForkChain_spec (fuel : nat) (pool : TxPoolImpl) (headNode : BlockCacheNode) :
  let recorded :=
    set_forkChain pool
      {| NewHead := Some headNode; OldHead := OldHead (forkChain pool);
         ForkBlockHash := ForkBlockHash (forkChain pool) |} in
  (NewHead (forkChain pool) = None ->
     updateForkChain fuel pool headNode = Done (recorded, NotFork)) /\
  (forall last,
     NewHead (forkChain pool) = Some last ->
     Block_Hash (bcn_Block last) = ParentHash (Head (bcn_Block headNode)) ->
     updateForkChain fuel pool headNode = Done (recorded, NotFork)) /\
  (forall last,
     NewHead (forkChain pool) = Some last ->
     Block_Hash (bcn_Block last) <> ParentHash (Head (bcn_Block headNode)) ->
     let swapped f :=
       set_forkChain pool
         {| NewHead := Some headNode; OldHead := Some last; ForkBlockHash := f |} in
     (Block_Hash (bcn_Block headNode) = Block_Hash (bcn_Block last) ->
        updateForkChain fuel pool headNode =
          Done (swapped (Block_Hash (bcn_Block headNode)), Fork)) /\
     (Block_Hash (bcn_Block headNode) <> Block_Hash (bcn_Block last) ->
        (forall pool' r,
           updateForkChain fuel pool headNode = Done (pool', r) ->
           r = ForkError /\ pool' = swapped (ForkBlockHash (forkChain pool)) /\
           blockList pool = ∅) /\
        (forall e,
           hashes_on_empty = false -> blockList pool = ∅ ->
           FindBlock (chain pool) (Block_Hash (bcn_Block headNode)) = inr e ->
           updateForkChain (S fuel) pool headNode =
             Done (swapped (ForkBlockHash (forkChain pool)), ForkError)))).
Proof.
  intros recorded. split; [| split].
  - intros Hnone. unfold updateForkChain. rewrite Hnone. reflexivity.
  - intros last Hlast Hparent. unfold updateForkChain. rewrite Hlast.
    rewrite bool_decide_eq_true_2 by exact Hparent. reflexivity.
  - intros last Hlast Hparent swapped. split.
    + intros Hsame. unfold updateForkChain. rewrite Hlast.
      rewrite bool_decide_eq_false_2 by exact Hparent.
      unfold fundForkBlockHash. rewrite bool_decide_eq_true_2 by exact Hsame.
      reflexivity.
    + intros Hdiffer. split.
      * intros pool' r. unfold updateForkChain. rewrite Hlast.
        rewrite bool_decide_eq_false_2 by exact Hparent.
        destruct (fundForkBlockHash fuel _ _ _) as [[p f]| |] eqn:Hsearch;
          try discriminate.
        destruct (fundForkBlockHash_differ _ _ _ _ Hdiffer _ _ Hsearch)
          as (-> & -> & Hbl & _).
        cbn [mbind run_bind]. intros [= <- <-]. auto.
      * intros e Hrt Hbl Hfind. unfold updateForkChain. rewrite Hlast.
        rewrite bool_decide_eq_false_2 by exact Hparent.
        rewrite (fundForkBlockHash_lost _ _ _ _ e Hdiffer Hrt) by assumption.
        reflexivity.
Qed.

Lemma doChainChange_dup_Done (k : nat) (pool pool' : TxPoolImpl) (n f : hash)
    (err : option error) :
  doChainChange_dup k pool n f = Done (pool', err) -> err <> None /\ pool' = pool.
Proof.
  destruct k as [|k]; [discriminate |]. cbn [doChainChange_dup]. unfold block.
  destruct (Load_cases (blockList pool) n) as [-> | (-> & _)]; [discriminate |].
  intros [= <- <-]. split; [discriminate | reflexivity].
Qed.

Lemma doChainChange_reply_Done (fuel : nat) :
  forall k pool pool' n o f err,
    doChainChange_reply fuel k pool n o f = Done (pool', err) ->
    err <> None /\ pool' = pool.
Proof.
  induction k as [|k IH]; intros pool pool' n o f err; [discriminate |].
  cbn [doChainChange_reply].
  destruct (FindBlock (chain pool) o) as [b|e].
  - destruct (replayTxs fuel pool (Txs b) _) as [p| |] eqn:Hreplay; try discriminate.
    destruct (replayTxs_Done _ _ _ _ _ Hreplay) as (_ & ->).
    cbn [mbind run_bind]. case_bool_decide.
    + apply doChainChange_dup_Done.
    + apply IH.
  - intros [= <- <-]. split; [discriminate | reflexivity].
Qed.

(** X14.  [doChainChange] never succeeds: when it returns, it returns an
    error and the pool as it was.  It does return the error of the chain
    store when that does not know the old head. *)
Theorem doChainChange_never_nil (fuel : nat) (pool : TxPoolImpl) :
  (forall pool' err,
     doChainChange fuel pool = Done (pool', err) -> err <> None /\ pool' = pool) /\
  (forall newHead oldHead e,
     NewHead (forkChain pool) = Some newHead ->
     OldHead (forkChain pool) = Some oldHead ->
     FindBlock (chain pool) (Block_Hash (bcn_Block oldHead)) = inr e ->
     doChainChange (S fuel) pool = Done (pool, Some e)).
Proof.
  split.
  - intros pool' err. unfold doChainChange.
    destruct (NewHead (forkChain pool)); [| discriminate].
    destruct (OldHead (forkChain pool)); [| discriminate].
    apply doChainChange_reply_Done.
  - intros newHead oldHead e Hnew Hold Hfind. unfold doChainChange.
    rewrite Hnew, Hold. cbn [doChainChange_reply]. rewrite Hfind. reflexivity.
Qed.

(** *** The sweep of the pending transactions *)

Lemma clearTimeOutTx_range_quiet now pool entries :
  (forall kv, kv ∈ entries -> txTimeOut now kv.2 = false) ->
  clearTimeOutTx_range now pool entries = Done pool.
Proof.
  induction entries as [|[k v] rest IH]; intros Hall; [reflexivity |].
  cbn [clearTimeOutTx_range].
  pose proof (Hall (k, v) ltac:(apply elem_of_cons; auto)) as Hv.
  simpl in Hv. rewrite Hv.
  apply IH. intros kv Hin. apply Hall. apply elem_of_cons. auto.
Qed.

Lemma clearTimeOutTx_range_stops now pool entries :
  pendingTx pool <> ∅ ->
  (exists kv, kv ∈ entries /\ txTimeOut now kv.2 = true) ->
  clearTimeOutTx_range now pool entries = Panic.
Proof.
  intros Hheld. induction entries as [|[k v] rest IH]; intros (kv & Hin & Hout).
  - inversion Hin.
  - cbn [clearTimeOutTx_range]. destruct (txTimeOut now v) eqn:Hv.
    + unfold delTxInPending. rewrite Delete_held by exact Hheld. reflexivity.
    + apply IH. exists kv. split; [| exact Hout].
      apply elem_of_cons in Hin as [-> | Hin]; [| exact Hin].
      simpl in Hout. congruence.
Qed.

(** X12.  [clearTimeOutTx] removes no transaction.  When no pending
    transaction is timed out it returns the pool as it was; when one is,
    the call panics at the [Delete] of the first one that [Range] meets. *)
Theorem clearTimeOutTx_spec (now : Z) (pool : TxPoolImpl)
    (HRange : forall m, Range m ≡ₚ map_to_list m) :
  ((forall k v, pendingTx pool !! k = Some v -> txTimeOut now v = false) ->
     clearTimeOutTx now pool = Done pool) /\
  ((exists k v, pendingTx pool !! k = Some v /\ txTimeOut now v = true) ->
     clearTimeOutTx now pool = Panic).
Proof.
  unfold clearTimeOutTx. split.
  - intros Hall. apply clearTimeOutTx_range_quiet.
    intros [k v] Hin. rewrite HRange in Hin.
    apply elem_of_map_to_list in Hin. exact (Hall k v Hin).
  - intros (k & v & Hkv & Hout). apply clearTimeOutTx_range_stops.
    + intros Hempty. rewrite Hempty, lookup_empty in Hkv. discriminate.
    + exists (k, v). split; [| exact Hout].
      rewrite HRange. apply elem_of_map_to_list. exact Hkv.
Qed.

(** *** Loading the chain when the pool starts *)

(** The test of [initBlockTx] on a block of the chain: its time, in
    seconds, is at most [filterTime] behind [timeNow]. *)
Definition recent (timeNow : Z) (blk : Block) : bool :=
  wrap64 (timeNow - slotToSec (bh_Time (Head blk))) <=? filterTime.

(** The loop of [initBlockTx], from [i] down to 1.  [GetBlockByNumber]
    is the chain's lookup, a nil block being [None]. *)
Fixpoint initBlockTx_loop (fuel : nat) (GetBlockByNumber : Z -> option Block)
    (timeNow : Z) (i : Z) (pool : TxPoolImpl) : run TxPoolImpl :=
  if i >? 0 then
    match fuel with
    | O => OutOfFuel
    | S fuel' =>
        match GetBlockByNumber i with
        | None => Done pool
        | Some blk =>
            pool ← (if recent timeNow blk then addBlock pool blk else Done pool);
            initBlockTx_loop fuel' GetBlockByNumber timeNow (i - 1) pool
        end
    end
  else Done pool.

(** [initBlockTx], with [pool.global.BlockChain()] given by its [Length]
    and [GetBlockByNumber], and [time.Now().Unix()] by [timeNow].  For a
    chain that is not empty, [Length - 1] is the same number whatever
    integer type [Length()] has. *)
Definition initBlockTx (fuel : nat) (Length : Z) (GetBlockByNumber : Z -> option Block)
    (timeNow : Z) (pool : TxPoolImpl) : run TxPoolImpl :=
  initBlockTx_loop fuel GetBlockByNumber timeNow (Length - 1) pool.

(** Block [i] is recent and the chain has every block from [i] to
    [top]: the walk down from [top] reaches it. *)
Definition reached (GetBlockByNumber : Z -> option Block) (timeNow : Z)
    (i top : Z) : Prop :=
  0 < i <= top /\
  (forall j, i <= j <= top -> is_Some (GetBlockByNumber j)) /\
  exists blk, GetBlockByNumber i = Some blk /\ recent timeNow blk = true.

Lemma initBlockTx_loop_spec (G : Z -> option Block) (timeNow : Z) (pool : TxPoolImpl) :
  forall fuel i,
    (Z.to_nat i <= fuel)%nat ->
    ((exists k, reached G timeNow k i) ->
       initBlockTx_loop fuel G timeNow i pool = Panic) /\
    (~ (exists k, reached G timeNow k i) ->
       initBlockTx_loop fuel G timeNow i pool = Done pool).
Proof.
  induction fuel as [|fuel IH]; intros i Hfuel.
  - assert (Hi : i <= 0) by lia. simpl.
    destruct (Z.gtb_spec i 0); [lia |]. split; [| reflexivity].
    intros (k & Hk & _). lia.
  - cbn [initBlockTx_loop]. destruct (Z.gtb_spec i 0) as [Hpos|Hle].
    2:{ split; [| reflexivity]. intros (k & Hk & _). lia. }
    destruct (G i) as [blk|] eqn:Hblk.
    2:{ split; [| reflexivity].
        intros (k & Hk & Hpresent & _).
        destruct (Hpresent i ltac:(lia)) as [x Hx]. congruence. }
    destruct (recent timeNow blk) eqn:Hrecent.
    + rewrite addBlock_Panic. split; [reflexivity |].
      intros Hnone. exfalso. apply Hnone. exists i.
      split; [lia |]. split; [| eauto].
      intros j Hj. assert (j = i) as -> by lia. rewrite Hblk. eauto.
    + cbn [mbind run_bind].
      destruct (IH (i - 1) ltac:(lia)) as [Hstop Hquiet].
      assert (Hsame : (exists k, reached G timeNow k i) <->
                      (exists k, reached G timeNow k (i - 1))).
      { split; intros (k & Hk & Hpresent & (b & Hb & Hr)).
        - assert (Hki : k <> i) by (intros ->; congruence).
          exists k. split; [lia |]. split; [| eauto].
          intros j Hj. apply Hpresent. lia.
        - exists k. split; [lia |]. split; [| eauto].
          intros j Hj. destruct (decide (j = i)) as [->|Hne]; [rewrite Hblk; eauto |].
          apply Hpresent. lia. }
      split.
      * intros Hex. apply Hstop, Hsame, Hex.
      * intros Hnone. apply Hquiet. intros Hex. apply Hnone, Hsame, Hex.
Qed.

(** X27.  On a chain that is not empty [initBlockTx], given as many
    steps as the chain is long, loads no block.  It walks down from the
    last block to block 1 or to the first missing block: when none of the
    blocks it meets is at most [filterTime] seconds old it returns the
    pool as it was, and when one is it panics in [addBlock]. *)
Theorem initBlockTx_spec (fuel : nat) (Length : Z) (GetBlockByNumber : Z -> option Block)
    (timeNow : Z) (pool : TxPoolImpl) :
  1 <= Length -> (Z.to_nat Length <= fuel)%nat ->
  ((exists i, reached GetBlockByNumber timeNow i (Length - 1)) ->
     initBlockTx fuel Length GetBlockByNumber timeNow pool = Panic) /\
  (~ (exists i, reached GetBlockByNumber timeNow i (Length - 1)) ->
     initBlockTx fuel Length GetBlockByNumber timeNow pool = Done pool).
Proof.
  intros Hlen Hfuel. unfold initBlockTx.
  apply initBlockTx_loop_spec. lia.
Qed.

End WithEnvironment.
(** *** A small concrete pool

    Toy stand-ins for the imported methods: a transaction hashes to its
    payload and a block to the info field of its head; a transaction
    verifies when its payload starts with the byte 01; the decoder reads
    the body as the payload of a transaction issued at second 1000 that
    expires at second 1100. *)

Definition toy_tx_Hash (tx : Tx) : hash := String.string_of_list_byte (Payload tx).

Definition toy_Head_Hash (h : BlockHead) : hash := String.string_of_list_byte (Info h).

Definition toy_Block_Hash (b : Block) : hash := toy_Head_Hash (Head b).

Definition toy_VerifySelf (tx : Tx) : option error :=
  match Payload tx with
  | x01 :: _ => None
  | _ => Some "signature error"%string
  end.

Definition toy_Decode (body : list byte) : Tx + error :=
  match body with
  | [] => inr "decode error"%string
  | _ => inl (mkTx 1000000000000 1100000000000 1 1 body)
  end.

Definition toy_slotToSec (t : Z) : Z := t.

Definition block_of (info parent : string) (t : Z) (txs : list Tx) : Block :=
  {| Head := {| Number := 0; ParentHash := parent; bh_Time := t;
                Info := String.list_byte_of_string info |};
     Txs := txs |}.

Definition tx_a : Tx := mkTx 1000000000000 1100000000000 1 5 [x01; x61].
Definition tx_b : Tx := mkTx 1001000000000 1100000000000 1 7 [x01; x62].
Definition tx_c : Tx := mkTx 999000000000 1100000000000 1 5 [x01; x63].
Definition tx_forged : Tx := mkTx 1000000000000 1100000000000 1 1 [x02; x61].

Definition block_r : Block := block_of "r" "q" 1000 [].
Definition block_1 : Block := block_of "b1" "r" 1003 [tx_a].
Definition block_2 : Block := block_of "b2" "b1" 1006 [tx_b].
Definition block_x : Block := block_of "x" "w" 1006 [].

Definition no_store : BlockCache :=
  {| LinkedTree := mkBlockCacheNode block_r;
     FindBlock := fun _ => inr "block not found"%string |}.


Definition pool_at (c : BlockCache) (head : Block) (pending : gmap hash Tx) : TxPoolImpl :=
  {| chain := c;
     forkChain := {| NewHead := Some (mkBlockCacheNode head); OldHead := None;
                     ForkBlockHash := ""%string |};
     blockList := ∅;
     pendingTx := pending |}.

(** A pool whose block list holds blocks [b1] and [b2] on top of [r]. *)
Definition pool_linked : TxPoolImpl :=
  {| chain := no_store;
     forkChain := {| NewHead := Some (mkBlockCacheNode block_2); OldHead := None;
                     ForkBlockHash := String.EmptyString |};
     blockList :=
       {[ "b1"%string := mkBlockTx {[ toy_tx_Hash tx_a ]} "r" 1003;
          "b2"%string := mkBlockTx {[ toy_tx_Hash tx_b ]} "b1" 1006 ]};
     pendingTx := {[ "c"%string := tx_c ]} |}.

(** The pool as [NewTxPoolImpl] makes it: no head recorded, no entry in
    either map. *)
Definition pool_new (c : BlockCache) : TxPoolImpl :=
  {| chain := c;
     forkChain := {| NewHead := None; OldHead := None;
                     ForkBlockHash := String.EmptyString |};
     blockList := ∅;
     pendingTx := ∅ |}.

(** C1 at work on the new pool: the message whose transaction verifies is
    dropped, the one whose transaction does not verify makes the step
    panic, here at the nil [NewHead]. *)
Lemma loop_chTx_inserts_nothing_witness :
  loop_chTx false toy_tx_Hash toy_Head_Hash toy_VerifySelf toy_Decode toy_slotToSec
    1 1010 (pool_new no_store) (mkMessage [x01; x61]) = Done (pool_new no_store) /\
  loop_chTx false toy_tx_Hash toy_Head_Hash toy_VerifySelf toy_Decode toy_slotToSec
    1 1010 (pool_new no_store) (mkMessage [x02; x61]) = Panic.
Proof.
  destruct (loop_chTx_inserts_nothing false toy_tx_Hash toy_Head_Hash toy_VerifySelf
              toy_Decode toy_slotToSec 1 1010 (pool_new no_store)
              (mkMessage [x01; x61])) as [_ Hgood].
  destruct (loop_chTx_inserts_nothing false toy_tx_Hash toy_Head_Hash toy_VerifySelf
              toy_Decode toy_slotToSec 0 1010 (pool_new no_store)
              (mkMessage [x02; x61])) as [_ Hbad].
  split.
  - apply (Hgood (mkTx 1000000000000 1100000000000 1 1 [x01; x61]));
      reflexivity.
  - apply (Hbad tx_forged); [reflexivity | reflexivity | discriminate].
Defined.

(** With a head recorded the same message makes the step panic at the
    [Store] of [addTx]. *)
Example loop_chTx_Store_panics :
  loop_chTx false toy_tx_Hash toy_Head_Hash toy_VerifySelf toy_Decode toy_slotToSec
    1 1010 (pool_at no_store block_r ∅) (mkMessage [x02; x61]) = Panic.
Proof. reflexivity. Qed.




(** C7, the claim as stated fails: the value returned is determined by
    [pendingTx] alone, so no head can be read off it. *)
Lemma PendingTxs_not_paired_with_head :
  ~ (exists head_of : list Tx * option error -> option BlockCacheNode,
       forall pool r,
         PendingTxs map_to_list pool 10 = Done r ->
         head_of r = NewHead (forkChain pool)).
Proof.
  intros [head_of H].
  pose proof (H (pool_at no_store block_1 ∅) _ eq_refl) as H1.
  pose proof (H (pool_at no_store block_2 ∅) _ eq_refl) as H2.
  vm_compute in H1, H2. congruence.
Qed.

Definition pool_three : TxPoolImpl :=
  pool_at no_store block_r
    {[ "a"%string := tx_a; "b"%string := tx_b; "c"%string := tx_c ]}.

(** A negative bound makes the slice expression panic. *)
Example PendingTxs_negative_bound :
  PendingTxs map_to_list pool_three (-1) = Panic.
Proof. reflexivity. Qed.

Lemma PendingTxs_spec_witness :
  PendingTxs map_to_list pool_three 2 = Done ([tx_b; tx_c], None) /\
  exists sorted : list Tx,
    [tx_b; tx_c] = firstn 2 sorted /\ StronglySorted before sorted.
Proof.
  destruct (PendingTxs_spec map_to_list pool_three 2)
    as (sorted & Hrun & _ & Hsorted & _).
  - reflexivity.
  - lia.
  - split; [reflexivity |].
    exists sorted. split; [| exact Hsorted].
    assert (Heq : PendingTxs map_to_list pool_three 2 = Done ([tx_b; tx_c], None))
      by reflexivity.
    rewrite Heq in Hrun. injection Hrun as Hrun. exact Hrun.
Defined.


(** *** The rest of the pool at work *)

Definition tx_old : Tx := mkTx 900000000000 1100000000000 1 5 [x01; x6f].

Lemma txTimeOut_later_witness :
  txTimeOut 1100 tx_a = true /\ txTimeOut 1200 tx_a = true.
Proof.
  split; [reflexivity |].
  apply (txTimeOut_later 1100 1200 tx_a);
    [lia | vm_compute; split; [discriminate | reflexivity]
    | vm_compute; split; [discriminate | reflexivity] | reflexivity].
Defined.

(** With the root of the linked tree at second 1095, block [b1] of second
    1003 is swept and block [b2] of second 1006 stays. *)
Definition late_store : BlockCache :=
  {| LinkedTree := mkBlockCacheNode (block_of "late" "b2" 1095 []);
     FindBlock := fun _ => inr "block not found"%string |}.

Lemma clearBlock_spec_witness :
  blockList (clearBlock toy_slotToSec map_to_list (set_chain pool_linked late_store)) =
    filter (fun kv => 1005 <= cTime kv.2) (blockList pool_linked) /\
  blockList (clearBlock toy_slotToSec map_to_list (set_chain pool_linked late_store))
    !! "b1"%string = None /\
  is_Some (blockList (clearBlock toy_slotToSec map_to_list
                        (set_chain pool_linked late_store)) !! "b2"%string).
Proof.
  destruct (clearBlock_spec toy_slotToSec map_to_list (set_chain pool_linked late_store))
    as (Hbl & _).
  - reflexivity.
  - split; [exact Hbl |]. split; [vm_compute; reflexivity |].
    vm_compute. eexists. reflexivity.
Defined.

Lemma Less_total_preorder_witness :
  Less tx_a tx_a = true /\
  (Less tx_a tx_b = true \/ Less tx_b tx_a = true) /\
  (Less tx_b tx_a = true -> Less tx_a tx_c = true -> Less tx_b tx_c = true).
Proof.
  destruct (Less_total_preorder tx_a tx_b tx_c) as (Hrefl & Htotal & _).
  destruct (Less_total_preorder tx_b tx_a tx_c) as (_ & _ & Htrans & _).
  auto.
Defined.

Lemma addTx_panics_witness :
  addTx false toy_tx_Hash toy_Head_Hash toy_slotToSec 1 (pool_at no_store block_r ∅)
    tx_a tx_a = Panic /\
  forall pool',
    replayTxs false toy_tx_Hash toy_Head_Hash toy_slotToSec 1
      (pool_at no_store block_r ∅) (Txs block_1) tx_a <> Done pool'.
Proof.
  destruct (addTx_panics false toy_tx_Hash toy_Head_Hash toy_slotToSec 0
              (pool_at no_store block_r ∅) tx_a tx_a) as (Hpanic & _).
  destruct (addTx_panics false toy_tx_Hash toy_Head_Hash toy_slotToSec 1
              (pool_at no_store block_r ∅) tx_a tx_a) as (_ & _ & Hreplay).
  split; [exact Hpanic |].
  intros pool' Hdone. destruct (Hreplay _ _ _ Hdone) as [Hnil _]. discriminate.
Defined.

Lemma existTxInChain_never_finds_witness :
  existTxInChain false toy_Head_Hash toy_slotToSec 1 (pool_new no_store)
    (toy_tx_Hash tx_a) block_1 = Done false /\
  existTxInChain false toy_Head_Hash toy_slotToSec 1 pool_linked
    (toy_tx_Hash tx_b) block_2 = Panic.
Proof.
  destruct (existTxInChain_never_finds false toy_Head_Hash toy_slotToSec 0
              (pool_new no_store) (toy_tx_Hash tx_a) block_1) as (_ & Hquiet & _).
  destruct (existTxInChain_never_finds false toy_Head_Hash toy_slotToSec 0
              pool_linked (toy_tx_Hash tx_b) block_2) as (_ & _ & Hheld).
  split; [apply Hquiet; reflexivity |].
  apply Hheld. right. intros Hempty.
  apply (f_equal (fun m => m !! "b1"%string)) in Hempty.
  vm_compute in Hempty. discriminate.
Defined.

(** Head [x] arrives after head [r], which is not its parent: no fork
    point.  Head [x] arrives twice: a fork at [x]. *)
Lemma updateForkChain_spec_witness :
  updateForkChain false toy_tx_Hash toy_Block_Hash toy_slotToSec 1
    (pool_at no_store block_r ∅) (mkBlockCacheNode block_x) =
  Done (set_forkChain (pool_at no_store block_r ∅)
          {| NewHead := Some (mkBlockCacheNode block_x);
             OldHead := Some (mkBlockCacheNode block_r);
             ForkBlockHash := String.EmptyString |}, ForkError) /\
  updateForkChain false toy_tx_Hash toy_Block_Hash toy_slotToSec 1
    (pool_at no_store block_x ∅) (mkBlockCacheNode block_x) =
  Done (set_forkChain (pool_at no_store block_x ∅)
          {| NewHead := Some (mkBlockCacheNode block_x);
             OldHead := Some (mkBlockCacheNode block_x);
             ForkBlockHash := "x" |}, Fork).
Proof.
  destruct (updateForkChain_spec false toy_tx_Hash toy_Block_Hash toy_slotToSec 0
              (pool_at no_store block_r ∅) (mkBlockCacheNode block_x))
    as (_ & _ & Hr).
  destruct (updateForkChain_spec false toy_tx_Hash toy_Block_Hash toy_slotToSec 1
              (pool_at no_store block_x ∅) (mkBlockCacheNode block_x))
    as (_ & _ & Hx).
  split.
  - destruct (Hr (mkBlockCacheNode block_r)) as (_ & Hdiffer);
      [reflexivity | vm_compute; discriminate |].
    destruct Hdiffer as (_ & Hlost); [vm_compute; discriminate |].
    apply (Hlost "block not found"%string); reflexivity.
  - destruct (Hx (mkBlockCacheNode block_x)) as (Hsame & _);
      [reflexivity | vm_compute; discriminate |].
    apply Hsame. reflexivity.
Defined.

Definition pool_aging : TxPoolImpl :=
  pool_at no_store block_r
    {[ toy_tx_Hash tx_a := tx_a; toy_tx_Hash tx_old := tx_old ]}.

(** At second 1010 [tx_old], issued at second 900, is timed out and the
    sweep panics; without it the sweep returns. *)
Lemma clearTimeOutTx_spec_witness :
  clearTimeOutTx false toy_tx_Hash map_to_list 1010 pool_aging = Panic /\
  clearTimeOutTx false toy_tx_Hash map_to_list 1010
    (pool_at no_store block_r {[ toy_tx_Hash tx_a := tx_a ]}) =
  Done (pool_at no_store block_r {[ toy_tx_Hash tx_a := tx_a ]}).
Proof.
  destruct (clearTimeOutTx_spec false toy_tx_Hash map_to_list 1010 pool_aging)
    as (_ & Hstops); [reflexivity |].
  destruct (clearTimeOutTx_spec false toy_tx_Hash map_to_list 1010
              (pool_at no_store block_r {[ toy_tx_Hash tx_a := tx_a ]}))
    as (Hquiet & _); [reflexivity |].
  split.
  - apply Hstops. exists (toy_tx_Hash tx_old), tx_old.
    split; vm_compute; reflexivity.
  - apply Hquiet. intros k v Hkv. simpl in Hkv.
    apply lookup_singleton_Some in Hkv as [_ <-]. reflexivity.
Defined.

(** Head [x] recorded twice, as after the fork at [x]: the chain store
    does not know [x]. *)
Lemma doChainChange_never_nil_witness :
  doChainChange false toy_tx_Hash toy_Block_Hash toy_Head_Hash toy_slotToSec 1
    (set_forkChain (pool_at no_store block_x ∅)
       {| NewHead := Some (mkBlockCacheNode block_x);
          OldHead := Some (mkBlockCacheNode block_x);
          ForkBlockHash := "x" |}) =
  Done (set_forkChain (pool_at no_store block_x ∅)
          {| NewHead := Some (mkBlockCacheNode block_x);
             OldHead := Some (mkBlockCacheNode block_x);
             ForkBlockHash := "x" |}, Some "block not found"%string).
Proof.
  destruct (doChainChange_never_nil false toy_tx_Hash toy_Block_Hash toy_Head_Hash
              toy_slotToSec 0
              (set_forkChain (pool_at no_store block_x ∅)
                 {| NewHead := Some (mkBlockCacheNode block_x);
                    OldHead := Some (mkBlockCacheNode block_x);
                    ForkBlockHash := "x" |})) as (_ & Hfails).
  apply (Hfails (mkBlockCacheNode block_x) (mkBlockCacheNode block_x));
    reflexivity.
Defined.

(** A chain of five blocks with block 2 missing.  At second 1010 blocks 4
    and 3 are recent and the pool panics at block 4; at second 2000 none
    is and the pool starts with nothing loaded. *)
Definition block_y : Block := block_of "y" "b1" 1006 [tx_c].

Definition toy_chain (i : Z) : option Block :=
  if i =? 0 then Some block_r
  else if i =? 1 then Some block_1
  else if i =? 3 then Some block_2
  else if i =? 4 then Some block_y
  else None.

Lemma initBlockTx_spec_witness :
  initBlockTx false toy_tx_Hash toy_Block_Hash toy_slotToSec 5 5 toy_chain 1010
    (pool_new no_store) = Panic /\
  initBlockTx false toy_tx_Hash toy_Block_Hash toy_slotToSec 5 5 toy_chain 2000
    (pool_new no_store) = Done (pool_new no_store).
Proof.
  destruct (initBlockTx_spec false toy_tx_Hash toy_Block_Hash toy_slotToSec 5 5
              toy_chain 1010 (pool_new no_store)) as (Hstops & _);
    [lia | vm_compute; lia |].
  destruct (initBlockTx_spec false toy_tx_Hash toy_Block_Hash toy_slotToSec 5 5
              toy_chain 2000 (pool_new no_store)) as (_ & Hquiet);
    [lia | vm_compute; lia |].
  split.
  - apply Hstops. exists 4. split; [lia |]. split.
    + intros j Hj. assert (j = 4) as -> by lia. eexists. reflexivity.
    + exists block_y. split; reflexivity.
  - apply Hquiet. intros (i & Hi & _ & blk & Hblk & Hrecent).
    assert (Hcases : i = 1 \/ i = 2 \/ i = 3 \/ i = 4) by lia.
    destruct Hcases as [-> | [-> | [-> | ->]]]; vm_compute in Hblk;
      try discriminate; injection Hblk as <-; vm_compute in Hrecent; discriminate.
Defined.

End TxPool.

(** ** Package consensus/pob: reception and linking of blocks *)

Module PoB.

Abbreviation hash := string (only parsing).

(** The errors [handleRecvBlock] can return: the three variables of the
    package, compared by identity in the source, and any other error
    (of [verifyBasics] or [verifyBlock]). *)
Inductive perror : Type :=
| errSingle
| errDuplicate
| errOutOfLimit
| errOther (msg : string).

#[global] Instance perror_eq_dec : EqDecision perror.
Proof. solve_decision. Defined.

Definition blockNumPerWitness : Z := 6.

Record BlockHead : Type := mkBlockHead {
  Number : Z;
  ParentHash : hash;
  Witness : string;
  Time : Z
}.

Record Block : Type := mkBlock {
  Head : BlockHead;
  Sign : list byte
}.

(** [blockcache.BCNType], as the specification names its values. *)
Inductive BCNType : Type := Linked | Single.

#[global] Instance BCNType_eq_dec : EqDecision BCNType.
Proof. solve_decision. Defined.

Record BlockCacheNode : Type := mkBlockCacheNode {
  bcn_Block : Block;
  Type_ : BCNType;
  SerialNum : Z
}.

(** Message types and priorities of package p2p that the engine uses. *)
Inductive MessageType : Type := NewBlock | NewBlockHash | SyncBlockResponse.

#[global] Instance MessageType_eq_dec : EqDecision MessageType.
Proof. solve_decision. Defined.

Inductive MessagePriority : Type := UrgentMessage | NormalMessage.

(** A call on [p2pService]. *)
Inductive P2PCall : Type :=
| Broadcast (data : list byte) (typ : MessageType) (pri : MessagePriority)
| ConnectBPs (asWitness : bool).

(** [msgpb.BlockInfo]. *)
Record BlockInfo : Type := mkBlockInfo {
  bi_Number : Z;
  bi_Hash : hash
}.

(** [synchro.BlockMessage]. *)
Record BlockMessage : Type := mkBlockMessage {
  Blk : Block;
  P2PType : MessageType
}.

(** The engine: the block cache as an arena of nodes keyed by head hash,
    the tags committed in [verifyDB], the calls made on [p2pService] and
    the nodes handed to [txPool.AddLinkedNode], oldest first. *)
Record PoB : Type := mkPoB {
  blockCache : gmap hash BlockCacheNode;
  verifyDB : gset hash;
  p2pService : list P2PCall;
  txPool : list hash
}.

Definition set_blockCache (p : PoB) (c : gmap hash BlockCacheNode) : PoB :=
  {| blockCache := c; verifyDB := verifyDB p;
     p2pService := p2pService p; txPool := txPool p |}.

Definition set_SerialNum (n : BlockCacheNode) (s : Z) : BlockCacheNode :=
  {| bcn_Block := bcn_Block n; Type_ := Type_ n; SerialNum := s |}.

Definition set_Type (n : BlockCacheNode) (t : BCNType) : BlockCacheNode :=
  {| bcn_Block := bcn_Block n; Type_ := t; SerialNum := SerialNum n |}.

(** The [NewBlockHash] payloads among the calls made on [p2pService]. *)
Definition hashBroadcasts (calls : list P2PCall) : list (list byte) :=
  omap (fun c => match c with
                 | Broadcast data NewBlockHash _ => Some data
                 | _ => None
                 end) calls.

Section WithCollaborators.

(** What the engine calls but does not define: the hash of a block head,
    the slot of a second, the two verifiers, the marshaller of protocol
    buffers, and of the block cache [UpdateLib], [Del], the children of a
    node and whether the account is a witness of the head; the readable
    public key of the account. *)
Variable HeadHash : Block -> hash.
Variable slotOfSec : Z -> Z.
Variable verifyBasics : Block -> list byte -> option perror.
Variable verifyBlock : Block -> Block -> bool -> option perror.
Variable proto_Marshal : BlockInfo -> list byte + string.
Variable UpdateLib : gmap hash BlockCacheNode -> BlockCacheNode -> gmap hash BlockCacheNode.
Variable Del : gmap hash BlockCacheNode -> BlockCacheNode -> gmap hash BlockCacheNode.
Variable Children : gmap hash BlockCacheNode -> hash -> list Block.
Variable isWitnessOfHead : gmap hash BlockCacheNode -> bool.
Variable ReadablePubkey : string.

(** Modelled from the spec: [blockCache.Add], which is not in the engine's
    package; "insert as Single", the node being the arena's entry at the
    head hash of the block. *)
Definition Add (c : gmap hash BlockCacheNode) (blk : Block) : gmap hash BlockCacheNode :=
  <[HeadHash blk := {| bcn_Block := blk; Type_ := Single; SerialNum := 0 |}]> c.

(** Modelled from the spec: [blockCache.Link], which is not in the engine's
    package; "mark Linked".  The serial number and the recursion over the
    children, which the same sentence of the specification names, are
    [addExistingBlock]'s in the source; the write-ahead log is left out. *)
Definition Link (c : gmap hash BlockCacheNode) (node : BlockCacheNode) : gmap hash BlockCacheNode :=
  <[HeadHash (bcn_Block node) := set_Type node Linked]> c.

(** The serial number [addExistingBlock] assigns. *)
Definition serialNum_of (parentNode : BlockCacheNode) (blk : Block) : Z :=
  if negb (String.eqb (Witness (Head (bcn_Block parentNode))) (Witness (Head blk)))
     || negb (slotOfSec (Z.quot (Time (Head (bcn_Block parentNode))) 1000000000)
              =? slotOfSec (Z.quot (Time (Head blk)) 1000000000))
  then 0
  else wrap64 (SerialNum parentNode + 1).

(** The log line [addExistingBlock] writes for a block of another witness
    evaluates [node.Head.Witness[:10]], which panics on a witness of fewer
    than ten bytes. *)
Definition logPanics (node : BlockCacheNode) : bool :=
  negb (String.eqb (Witness (Head (bcn_Block node))) ReadablePubkey)
  && Nat.ltb (String.length (Witness (Head (bcn_Block node)))) 10.

(** The loop over [node.Children], given what to do with one child; the
    error returned for a child is dropped. *)
Fixpoint forChildren (attach : PoB -> Block -> run (PoB * option perror))
    (p : PoB) (children : list Block) : run PoB :=
  match children with
  | [] => Done p
  | child :: rest =>
      r ← attach p child;
      forChildren attach r.1 rest
  end.

Fixpoint addExistingBlock (fuel : nat) (p : PoB) (blk : Block)
    (parentNode : BlockCacheNode) (replay : bool) : run (PoB * option perror) :=
  match fuel with
  | O => OutOfFuel
  | S fuel' =>
      match blockCache p !! HeadHash blk with
      | None => Panic
      | Some node =>
          let node := set_SerialNum node (serialNum_of parentNode blk) in
          let p := set_blockCache p (<[HeadHash blk := node]> (blockCache p)) in
          if SerialNum node >=? blockNumPerWitness then Done (p, Some errOutOfLimit)
          else
            let verified : PoB + perror :=
              if bool_decide (HeadHash blk ∈ verifyDB p) then inl p
              else
                match verifyBlock blk (bcn_Block parentNode) replay with
                | Some err => inr err
                | None =>
                    inl {| blockCache := blockCache p;
                           verifyDB := {[ HeadHash blk ]} ∪ verifyDB p;
                           p2pService := p2pService p; txPool := txPool p |}
                end in
            match verified with
            | inr err => Done (set_blockCache p (Del (blockCache p) node), Some err)
            | inl p =>
                let p := set_blockCache p (Link (blockCache p) node) in
                let node := set_Type node Linked in
                let p := set_blockCache p (UpdateLib (blockCache p) node) in
                let p := {| blockCache := blockCache p; verifyDB := verifyDB p;
                            p2pService := p2pService p;
                            txPool := txPool p ++ [HeadHash blk] |} in
                let p := {| blockCache := blockCache p; verifyDB := verifyDB p;
                            p2pService := p2pService p ++
                                          [ConnectBPs (isWitnessOfHead (blockCache p))];
                            txPool := txPool p |} in
                if logPanics node then Panic
                else
                  p ← forChildren
                        (fun p child => addExistingBlock fuel' p child node replay)
                        p (Children (blockCache p) (HeadHash blk));
                  Done (p, None)
            end
      end
  end.

Definition handleRecvBlock (fuel : nat) (p : PoB) (blk : Block) : run (PoB * option perror) :=
  match blockCache p !! HeadHash blk with
  | Some _ => Done (p, Some errDuplicate)
  | None =>
      match verifyBasics blk (Sign blk) with
      | Some err => Done (p, Some err)
      | None =>
          let parent := blockCache p !! ParentHash (Head blk) in
          let p := set_blockCache p (Add (blockCache p) blk) in
          match parent with
          | Some parent =>
              if bool_decide (Type_ parent = Linked)
              then addExistingBlock fuel p blk parent false
              else Done (p, Some errSingle)
          | None => Done (p, Some errSingle)
          end
      end
  end.

Definition broadcastBlockHash (p : PoB) (blk : Block) : PoB :=
  let blkInfo := {| bi_Number := Number (Head blk); bi_Hash := HeadHash blk |} in
  match proto_Marshal blkInfo with
  | inr _ => p
  | inl b =>
      {| blockCache := blockCache p; verifyDB := verifyDB p;
         p2pService := p2pService p ++ [Broadcast b NewBlockHash UrgentMessage];
         txPool := txPool p |}
  end.

(** [doVerifyBlock]; the counters of package metrics are left out.  A
    message of another type falls through the [switch]. *)
Definition doVerifyBlock (fuel : nat) (p : PoB) (blkMsg : BlockMessage) : run PoB :=
  let blk := Blk blkMsg in
  match P2PType blkMsg with
  | NewBlock =>
      r ← handleRecvBlock fuel p blk;
      let '(p, err) := r in
      let p :=
        if bool_decide (err = Some errSingle) || bool_decide (err = None)
        then broadcastBlockHash p blk else p in
      Done p
  | SyncBlockResponse =>
      r ← handleRecvBlock fuel p blk;
      Done r.1
  | NewBlockHash => Done p
  end.

(** *** What the loop over the children preserves *)

Lemma forChildren_preserves (P : PoB -> Prop)
    (attach : PoB -> Block -> run (PoB * option perror)) :
  (forall p child p' r, P p -> attach p child = Done (p', r) -> P p') ->
  forall children p p',
    P p -> forChildren attach p children = Done p' -> P p'.
Proof.
  intros Hstep children.
  induction children as [|child rest IH]; simpl; intros p p' HP Hrun.
  - injection Hrun as <-. exact HP.
  - destruct (attach p child) as [[p1 r]| |] eqn:Hattach; try discriminate.
    simpl in Hrun. eapply IH; [| exact Hrun]. eauto.
Qed.

Lemma hashBroadcasts_app calls1 calls2 :
  hashBroadcasts (calls1 ++ calls2) = hashBroadcasts calls1 ++ hashBroadcasts calls2.
Proof. unfold hashBroadcasts. apply omap_app. Qed.

(** Linking a block makes no [NewBlockHash] broadcast. *)
Lemma addExistingBlock_hashBroadcasts fuel :
  forall p blk parentNode replay p' r,
    addExistingBlock fuel p blk parentNode replay = Done (p', r) ->
    hashBroadcasts (p2pService p') = hashBroadcasts (p2pService p).
Proof.
  induction fuel as [|fuel IH]; intros p blk parentNode replay p' r Hrun;
    simpl in Hrun; [discriminate |].
  destruct (blockCache p !! HeadHash blk) as [node|]; [| discriminate].
  destruct (_ >=? _).
  { injection Hrun as <- _. reflexivity. }
  match type of Hrun with
  | match ?v with _ => _ end = _ => destruct v as [pv|err] eqn:Hverified
  end.
  2:{ injection Hrun as <- _. reflexivity. }
  assert (Hpv : p2pService pv = p2pService p).
  { simpl in Hverified. destruct (bool_decide _) in Hverified.
    - injection Hverified as <-. reflexivity.
    - destruct (verifyBlock _ _ _); [discriminate |].
      injection Hverified as <-. reflexivity. }
  destruct (logPanics _); [discriminate |].
  match type of Hrun with
  | (mbind _ (forChildren ?f ?q ?cs)) = _ =>
      destruct (forChildren f q cs) as [pc| |] eqn:Hloop; try discriminate
  end.
  simpl in Hrun. injection Hrun as <- _.
  eapply (forChildren_preserves
            (fun q => hashBroadcasts (p2pService q) = hashBroadcasts (p2pService p)));
    [| | exact Hloop].
  - intros q child q' r' Hq Hattach. rewrite <- Hq. eapply IH. exact Hattach.
  - simpl. rewrite hashBroadcasts_app, Hpv. simpl. apply app_nil_r.
Qed.

Lemma handleRecvBlock_hashBroadcasts fuel p blk p' r :
  handleRecvBlock fuel p blk = Done (p', r) ->
  hashBroadcasts (p2pService p') = hashBroadcasts (p2pService p).
Proof.
  unfold handleRecvBlock. intros Hrun.
  destruct (blockCache p !! HeadHash blk).
  { injection Hrun as <- _. reflexivity. }
  destruct (verifyBasics blk (Sign blk)).
  { injection Hrun as <- _. reflexivity. }
  destruct (blockCache p !! ParentHash (Head blk)) as [parent|].
  - destruct (bool_decide (Type_ parent = Linked)).
    + apply addExistingBlock_hashBroadcasts in Hrun. exact Hrun.
    + injection Hrun as <- _. reflexivity.
  - injection Hrun as <- _. reflexivity.
Qed.

(** C4 (as amended).  A block whose head hash is a key of the cache is
    answered with [errDuplicate] and the engine is left as it was.  A block
    that is not in the cache and that [verifyBasics] accepts, whose parent
    is not in the cache or is there but not Linked, is added to the cache
    as a Single node, nothing else changes, and [errSingle] is returned.  A
    block that is not in the cache and that [verifyBasics] rejects is
    answered with that error and the engine is left as it was. *)
Theorem handleRecvBlock_spec (fuel : nat) (p : PoB) (blk : Block) :
  (is_Some (blockCache p !! HeadHash blk) ->
     handleRecvBlock fuel p blk = Done (p, Some errDuplicate)) /\
  (blockCache p !! HeadHash blk = None ->
   verifyBasics blk (Sign blk) = None ->
   (blockCache p !! ParentHash (Head blk) = None \/
    exists parent, blockCache p !! ParentHash (Head blk) = Some parent /\
                   Type_ parent <> Linked) ->
     handleRecvBlock fuel p blk =
       Done (set_blockCache p (Add (blockCache p) blk), Some errSingle) /\
     Add (blockCache p) blk !! HeadHash blk = Some (mkBlockCacheNode blk Single 0) /\
     (forall k, k <> HeadHash blk -> Add (blockCache p) blk !! k = blockCache p !! k)) /\
  (blockCache p !! HeadHash blk = None ->
   forall e, verifyBasics blk (Sign blk) = Some e ->
     handleRecvBlock fuel p blk = Done (p, Some e)).
Proof.
  unfold handleRecvBlock. split; [| split].
  - intros [node ->]. reflexivity.
  - intros Hnew Hbasics Hparent. rewrite Hnew, Hbasics. split; [| split].
    + destruct Hparent as [-> | (parent & -> & Hsingle)]; [reflexivity |].
      rewrite bool_decide_eq_false_2 by exact Hsingle. reflexivity.
    + unfold Add. apply lookup_insert_eq.
    + intros k Hk. unfold Add. apply lookup_insert_ne. congruence.
  - intros Hnone e He. rewrite Hnone, He. reflexivity.
Qed.

(** C5.  Let [handleRecvBlock] return [err] for the block of a message, and
    the marshaller encode the pair of the block's number and head hash as
    [data].  Then [doVerifyBlock] returns; [handleRecvBlock] itself has
    made no [NewBlockHash] broadcast; for a [NewBlock] message exactly one
    is made, of [data], when [err] is nil or [errSingle], and none for any
    other error; for a [SyncBlockResponse] message none is made. *)
Theorem doVerifyBlock_broadcast (fuel : nat) (p : PoB) (blkMsg : BlockMessage)
    (p1 : PoB) (err : option perror) (data : list byte)
    (Hrecv : handleRecvBlock fuel p (Blk blkMsg) = Done (p1, err))
    (Hmarshal : proto_Marshal {| bi_Number := Number (Head (Blk blkMsg));
                                 bi_Hash := HeadHash (Blk blkMsg) |} = inl data) :
  exists p',
    doVerifyBlock fuel p blkMsg = Done p' /\
    hashBroadcasts (p2pService p1) = hashBroadcasts (p2pService p) /\
    match P2PType blkMsg with
    | NewBlock =>
        (err = None \/ err = Some errSingle ->
           hashBroadcasts (p2pService p') = hashBroadcasts (p2pService p) ++ [data]) /\
        (err <> None -> err <> Some errSingle ->
           hashBroadcasts (p2pService p') = hashBroadcasts (p2pService p))
    | _ => hashBroadcasts (p2pService p') = hashBroadcasts (p2pService p)
    end.
Proof.
  pose proof (handleRecvBlock_hashBroadcasts _ _ _ _ _ Hrecv) as Hsame.
  unfold doVerifyBlock. destruct (P2PType blkMsg).
  - rewrite Hrecv. simpl. eexists. split; [reflexivity |]. split; [exact Hsame |].
    split.
    + intros Herr.
      assert (bool_decide (err = Some errSingle) || bool_decide (err = None) = true) as ->.
      { destruct Herr as [-> | ->]; reflexivity. }
      unfold broadcastBlockHash. rewrite Hmarshal. simpl.
      rewrite hashBroadcasts_app, Hsame. reflexivity.
    + intros H1 H2.
      rewrite (bool_decide_eq_false_2 _ H1), (bool_decide_eq_false_2 _ H2).
      simpl. exact Hsame.
  - exists p. repeat split. exact Hsame.
  - rewrite Hrecv. simpl. eexists. split; [reflexivity |]. split; exact Hsame.
Qed.

(** *** The serial number of Linked nodes *)

(** What the engine relies on from the block cache: [UpdateLib] and [Del]
    only drop nodes; the children of a node are nodes of the cache, each
    once, whose blocks name it as parent. *)
Hypothesis UpdateLib_drops : forall c n, UpdateLib c n ⊆ c.
Hypothesis Del_drops : forall c n, Del c n ⊆ c.
Hypothesis Children_nodes : forall c h child,
  child ∈ Children c h ->
  ParentHash (Head child) = h /\
  exists n, c !! HeadHash child = Some n /\ bcn_Block n = child.
Hypothesis Children_once : forall c h, NoDup (map HeadHash (Children c h)).

(** Every Linked node has a serial number below [blockNumPerWitness]. *)
Definition serial_bounded (c : gmap hash BlockCacheNode) : Prop :=
  forall k n, c !! k = Some n -> Type_ n = Linked -> SerialNum n < blockNumPerWitness.

(** A node sits at the head hash of its block. *)
Definition keyed (c : gmap hash BlockCacheNode) : Prop :=
  forall k n, c !! k = Some n -> HeadHash (bcn_Block n) = k.

(** A Linked node whose parent is in the cache has a Linked parent. *)
Definition linked_upwards (c : gmap hash BlockCacheNode) : Prop :=
  forall k n pn, c !! k = Some n -> Type_ n = Linked ->
    c !! ParentHash (Head (bcn_Block n)) = Some pn -> Type_ pn = Linked.

(** The parent links form no cycle: they descend along [rank]. *)
Definition ranked (rank : hash -> nat) (c : gmap hash BlockCacheNode) : Prop :=
  forall k n, c !! k = Some n -> (rank (ParentHash (Head (bcn_Block n))) < rank k)%nat.

Record tree_inv (rank : hash -> nat) (c : gmap hash BlockCacheNode) : Prop := {
  inv_serial : serial_bounded c;
  inv_keyed : keyed c;
  inv_linked : linked_upwards c;
  inv_ranked : ranked rank c
}.

(** [k] is [a] or a descendant of [a] in [c]. *)
Inductive below (c : gmap hash BlockCacheNode) (a : hash) : hash -> Prop :=
| below_self : below c a a
| below_child k n :
    c !! k = Some n -> below c a (ParentHash (Head (bcn_Block n))) -> below c a k.

(** [c'] keeps or drops the nodes of [c], and changes at most the type
    and the serial number of those that satisfy [touched]. *)
Definition evolves (touched : hash -> Prop) (c c' : gmap hash BlockCacheNode) : Prop :=
  forall k n', c' !! k = Some n' ->
    exists n, c !! k = Some n /\ bcn_Block n' = bcn_Block n /\ (n' = n \/ touched k).

Lemma evolves_refl touched c : evolves touched c c.
Proof. intros k n Hk. exists n. auto. Qed.

Lemma evolves_sub touched c c' : c' ⊆ c -> evolves touched c c'.
Proof.
  intros Hsub k n Hk. exists n. split; [| auto].
  eapply lookup_weaken; eauto.
Qed.

Lemma evolves_trans (t1 t2 t3 : hash -> Prop) c1 c2 c3 :
  evolves t1 c1 c2 -> evolves t2 c2 c3 ->
  (forall k, t1 k -> t3 k) -> (forall k, t2 k -> t3 k) ->
  evolves t3 c1 c3.
Proof.
  intros H12 H23 H1 H2 k n3 Hk3.
  destruct (H23 k n3 Hk3) as (n2 & Hk2 & Hb2 & Hc2).
  destruct (H12 k n2 Hk2) as (n1 & Hk1 & Hb1 & Hc1).
  exists n1. split; [exact Hk1 |]. split; [congruence |].
  destruct Hc2 as [-> | Ht2]; [| auto].
  destruct Hc1 as [-> | Ht1]; auto.
Qed.

Lemma evolves_mono (t1 t2 : hash -> Prop) c c' :
  evolves t1 c c' -> (forall k, t1 k -> t2 k) -> evolves t2 c c'.
Proof.
  intros H Himp k n' Hk. destruct (H k n' Hk) as (n & ? & ? & [?|?]); eauto 6.
Qed.

Lemma below_evolves touched c c' a k :
  evolves touched c c' -> below c' a k -> below c a k.
Proof.
  intros Hev. induction 1 as [|k n' Hk Hbelow IH]; [constructor |].
  destruct (Hev k n' Hk) as (n & Hn & Hb & _).
  eapply below_child; [exact Hn |]. rewrite <- Hb. exact IH.
Qed.

Lemma below_trans c a b k : below c a b -> below c b k -> below c a k.
Proof.
  intros Hab. induction 1 as [|k n Hk Hbelow IH]; [exact Hab |].
  eapply below_child; eauto.
Qed.

Lemma below_rank rank c a k : ranked rank c -> below c a k -> (rank a <= rank k)%nat.
Proof.
  intros Hr. induction 1 as [|k n Hk Hbelow IH]; [lia |].
  specialize (Hr k n Hk). lia.
Qed.

Lemma ranked_evolves touched rank c c' :
  evolves touched c c' -> ranked rank c -> ranked rank c'.
Proof.
  intros Hev Hr k n' Hk. destruct (Hev k n' Hk) as (n & Hn & Hb & _).
  rewrite Hb. eauto.
Qed.

Lemma keyed_evolves touched c c' : evolves touched c c' -> keyed c -> keyed c'.
Proof.
  intros Hev Hkey k n' Hk. destruct (Hev k n' Hk) as (n & Hn & Hb & _).
  rewrite Hb. eauto.
Qed.

Lemma tree_inv_sub rank c c' : c' ⊆ c -> tree_inv rank c -> tree_inv rank c'.
Proof.
  intros Hsub [Hs Hk Hl Hr]. split.
  - intros k n Hn. eapply Hs, lookup_weaken; eauto.
  - intros k n Hn. eapply Hk, lookup_weaken; eauto.
  - intros k n pn Hn Hty Hpn.
    apply (Hl k n pn); [eapply lookup_weaken; eauto | exact Hty |].
    eapply lookup_weaken; eauto.
  - intros k n Hn. eapply Hr, lookup_weaken; eauto.
Qed.

(** Setting the serial number of a node that is not Linked. *)
Lemma tree_inv_set_SerialNum rank c h node s :
  tree_inv rank c -> c !! h = Some node -> Type_ node <> Linked ->
  tree_inv rank (<[h := set_SerialNum node s]> c) /\
  evolves (below c h) c (<[h := set_SerialNum node s]> c).
Proof.
  intros [Hs Hk Hl Hr] Hnode Hsingle. split; [split |].
  - intros k n Hn Hty. destruct (decide (h = k)) as [<-|Hne].
    + rewrite lookup_insert_eq in Hn. injection Hn as <-. contradiction.
    + rewrite lookup_insert_ne in Hn by exact Hne. eauto.
  - intros k n Hn. destruct (decide (h = k)) as [<-|Hne].
    + rewrite lookup_insert_eq in Hn. injection Hn as <-. simpl. eauto.
    + rewrite lookup_insert_ne in Hn by exact Hne. eauto.
  - intros k n pn Hn Hty Hpn. destruct (decide (h = k)) as [<-|Hne].
    { rewrite lookup_insert_eq in Hn. injection Hn as <-. contradiction. }
    rewrite lookup_insert_ne in Hn by exact Hne.
    destruct (decide (h = ParentHash (Head (bcn_Block n)))) as [Heq|Hne'].
    + exfalso. apply Hsingle. apply (Hl k n node Hn Hty). rewrite <- Heq. exact Hnode.
    + rewrite lookup_insert_ne in Hpn by exact Hne'. eauto.
  - intros k n Hn. destruct (decide (h = k)) as [<-|Hne].
    + rewrite lookup_insert_eq in Hn. injection Hn as <-. simpl. eauto.
    + rewrite lookup_insert_ne in Hn by exact Hne. eauto.
  - intros k n' Hn'. destruct (decide (h = k)) as [<-|Hne].
    + rewrite lookup_insert_eq in Hn'. injection Hn' as <-.
      exists node. split; [exact Hnode |]. split; [reflexivity |].
      right. constructor.
    + rewrite lookup_insert_ne in Hn' by exact Hne. exists n'. auto.
Qed.

(** Marking Linked a node with a small serial number whose parent, when
    in the cache, is Linked. *)
Lemma tree_inv_Link rank c h node :
  tree_inv rank c -> c !! h = Some node ->
  SerialNum node < blockNumPerWitness ->
  (forall pn, c !! ParentHash (Head (bcn_Block node)) = Some pn -> Type_ pn = Linked) ->
  Link c node = <[h := set_Type node Linked]> c /\
  tree_inv rank (Link c node) /\
  evolves (below c h) c (Link c node).
Proof.
  intros [Hs Hk Hl Hr] Hnode Hserial Hparent.
  assert (Heq : Link c node = <[h := set_Type node Linked]> c).
  { unfold Link. rewrite (Hk h node Hnode). reflexivity. }
  rewrite Heq. split; [reflexivity |]. split; [split |].
  - intros k n Hn Hty. destruct (decide (h = k)) as [<-|Hne].
    + rewrite lookup_insert_eq in Hn. injection Hn as <-. exact Hserial.
    + rewrite lookup_insert_ne in Hn by exact Hne. eauto.
  - intros k n Hn. destruct (decide (h = k)) as [<-|Hne].
    + rewrite lookup_insert_eq in Hn. injection Hn as <-. simpl. eauto.
    + rewrite lookup_insert_ne in Hn by exact Hne. eauto.
  - intros k n pn Hn Hty Hpn.
    destruct (decide (h = ParentHash (Head (bcn_Block n)))) as [Heq'|Hne'].
    { rewrite <- Heq', lookup_insert_eq in Hpn. injection Hpn as <-. reflexivity. }
    rewrite lookup_insert_ne in Hpn by exact Hne'.
    destruct (decide (h = k)) as [<-|Hne].
    + rewrite lookup_insert_eq in Hn. injection Hn as <-. simpl in Hpn. eauto.
    + rewrite lookup_insert_ne in Hn by exact Hne. eauto.
  - intros k n Hn. destruct (decide (h = k)) as [<-|Hne].
    + rewrite lookup_insert_eq in Hn. injection Hn as <-. simpl. eauto.
    + rewrite lookup_insert_ne in Hn by exact Hne. eauto.
  - intros k n' Hn'. destruct (decide (h = k)) as [<-|Hne].
    + rewrite lookup_insert_eq in Hn'. injection Hn' as <-.
      exists node. split; [exact Hnode |]. split; [reflexivity |].
      right. constructor.
    + rewrite lookup_insert_ne in Hn' by exact Hne. exists n'. auto.
Qed.

(** No child of [h] has [h] among its descendants. *)
Lemma child_not_above rank c h d nd :
  ranked rank c -> c !! HeadHash d = Some nd -> bcn_Block nd = d ->
  ParentHash (Head d) = h -> ~ below c (HeadHash d) h.
Proof.
  intros Hr Hd Hb Hp Hbelow.
  apply (below_rank rank) in Hbelow; [| exact Hr].
  specialize (Hr _ _ Hd). rewrite Hb, Hp in Hr. lia.
Qed.

(** The nodes that wait to be linked; their number bounds the depth of the
    recursion over the children. *)
Definition waiting (c : gmap hash BlockCacheNode) : nat :=
  size (filter (fun kn : hash * BlockCacheNode => Type_ kn.2 <> Linked) c).

Lemma waiting_sub c c' : c' ⊆ c -> (waiting c' <= waiting c)%nat.
Proof. intros Hsub. apply map_subseteq_size, map_filter_subseteq_mono, Hsub. Qed.

Lemma waiting_set_SerialNum c h node s :
  c !! h = Some node -> Type_ node <> Linked ->
  waiting (<[h := set_SerialNum node s]> c) = waiting c.
Proof.
  intros Hnode Hty. unfold waiting.
  rewrite map_filter_insert_True by exact Hty.
  apply map_size_insert_Some. exists node.
  apply map_lookup_filter_Some. auto.
Qed.

Lemma waiting_Link c h node :
  c !! h = Some node -> Type_ node <> Linked ->
  (waiting (<[h := set_Type node Linked]> c) < waiting c)%nat.
Proof.
  intros Hnode Hty. unfold waiting.
  rewrite map_filter_insert_False by (simpl; intros Hne; apply Hne; reflexivity).
  rewrite map_filter_delete.
  set (m := filter _ c).
  assert (Hin : m !! h = Some node) by (apply map_lookup_filter_Some; auto).
  rewrite map_size_delete_Some by eauto.
  destruct (size m) eqn:Hsize; [| simpl; lia].
  apply map_size_empty_inv in Hsize. rewrite Hsize, lookup_empty in Hin.
  discriminate.
Qed.

(** What a call on the node at [h] of the cache of [p] may end with: a
    cache that keeps the invariant, differs only at [h] and below, and has
    no more nodes waiting; a panic; or, with no more fuel than nodes
    waiting, exhaustion. *)
Definition outcome_ok (rank : hash -> nat) (fuel : nat) (p : PoB) (h : hash)
    (out : run (PoB * option perror)) : Prop :=
  match out with
  | Done (p', _) =>
      tree_inv rank (blockCache p') /\
      evolves (below (blockCache p) h) (blockCache p) (blockCache p') /\
      (waiting (blockCache p') <= waiting (blockCache p))%nat
  | Panic => True
  | OutOfFuel => (fuel <= waiting (blockCache p))%nat
  end.

(** What attaching one block has to guarantee for the loop over the
    children to keep the invariant. *)
Definition attach_ok (rank : hash -> nat) (fuel : nat)
    (attach : PoB -> Block -> run (PoB * option perror)) : Prop :=
  forall p blk,
    tree_inv rank (blockCache p) ->
    (forall node, blockCache p !! HeadHash blk = Some node ->
       bcn_Block node = blk /\ Type_ node <> Linked) ->
    (forall pn, blockCache p !! ParentHash (Head blk) = Some pn -> Type_ pn = Linked) ->
    outcome_ok rank fuel p (HeadHash blk) (attach p blk).

Lemma forChildren_tree_inv rank fuel attach c3 h :
  attach_ok rank fuel attach ->
  ranked rank c3 ->
  (forall n, c3 !! h = Some n -> Type_ n = Linked) ->
  forall todo done q,
    NoDup (map HeadHash (done ++ todo)) ->
    (forall child, child ∈ done ++ todo ->
       ParentHash (Head child) = h /\
       exists n, c3 !! HeadHash child = Some n /\ bcn_Block n = child /\
                 Type_ n <> Linked) ->
    tree_inv rank (blockCache q) ->
    evolves (fun k => exists d, d ∈ done /\ below c3 (HeadHash d) k) c3 (blockCache q) ->
    match forChildren attach q todo with
    | Done q' =>
        tree_inv rank (blockCache q') /\
        evolves (fun k => exists d, d ∈ done ++ todo /\ below c3 (HeadHash d) k)
          c3 (blockCache q') /\
        (waiting (blockCache q') <= waiting (blockCache q))%nat
    | Panic => True
    | OutOfFuel => (fuel <= waiting (blockCache q))%nat
    end.
Proof.
  intros Hattach Hranked Hh.
  induction todo as [|child rest IH]; intros done q Hnodup Hchildren Hinv Hev.
  - simpl. rewrite app_nil_r. auto.
  - simpl.
    destruct (Hchildren child) as (Hparent & n0 & Hn0 & Hb0 & Hsingle0).
    { apply elem_of_app. right. apply list_elem_of_here. }
    assert (Hdone : forall d, d ∈ done -> ~ below c3 (HeadHash d) h).
    { intros d Hd.
      destruct (Hchildren d) as (Hpd & nd & Hnd & Hbd & _).
      { apply elem_of_app. left. exact Hd. }
      eapply child_not_above; eauto. }
    assert (Hfresh : forall d, d ∈ done -> ~ below c3 (HeadHash d) (HeadHash child)).
    { intros d Hd Hbelow. inversion Hbelow as [Heq | k n Hk Hup Heq].
      - rewrite map_app in Hnodup. simpl in Hnodup.
        apply NoDup_app in Hnodup as (_ & Hdisj & _).
        apply (Hdisj (HeadHash d)).
        + apply list_elem_of_fmap. exists d. auto.
        + rewrite Heq. apply list_elem_of_here.
      - rewrite Hn0 in Hk. injection Hk as <-. rewrite Hb0, Hparent in Hup.
        exact (Hdone d Hd Hup). }
    assert (Hone : outcome_ok rank fuel q (HeadHash child) (attach q child)).
    { apply Hattach; [exact Hinv | |].
      - intros node Hnode.
        destruct (Hev _ _ Hnode) as (n & Hn & Hb & Hsame).
        rewrite Hn0 in Hn. injection Hn as <-. split; [congruence |].
        destruct Hsame as [-> | (d & Hd & Hbelow)]; [exact Hsingle0 |].
        exfalso. exact (Hfresh d Hd Hbelow).
      - rewrite Hparent. intros pn Hpn.
        destruct (Hev _ _ Hpn) as (n & Hn & Hb & Hsame).
        destruct Hsame as [-> | (d & Hd & Hbelow)]; [eauto |].
        exfalso. exact (Hdone d Hd Hbelow). }
    destruct (attach q child) as [[q1 r1]| |]; simpl in Hone |- *;
      [| exact I | exact Hone].
    destruct Hone as (Hinv1 & Hev1 & Hwait1).
    specialize (IH (done ++ [child]) q1).
    rewrite <- app_assoc in IH. simpl in IH.
    specialize (IH Hnodup Hchildren Hinv1).
    destruct (forChildren attach q1 rest) as [q'| |].
    + destruct IH as (Hinv' & Hev' & Hwait'); [| split; [exact Hinv' |]; split; [exact Hev' | lia]].
      eapply evolves_trans; [exact Hev | exact Hev1 | |].
      * intros k (d & Hd & Hbelow). exists d. split; [| exact Hbelow].
        apply elem_of_app. left. exact Hd.
      * intros k Hbelow. exists child. split.
        -- apply elem_of_app. right. apply list_elem_of_here.
        -- eapply below_evolves; [exact Hev | exact Hbelow].
    + exact I.
    + etransitivity; [apply IH | exact Hwait1].
      eapply evolves_trans; [exact Hev | exact Hev1 | |].
      * intros k (d & Hd & Hbelow). exists d. split; [| exact Hbelow].
        apply elem_of_app. left. exact Hd.
      * intros k Hbelow. exists child. split.
        -- apply elem_of_app. right. apply list_elem_of_here.
        -- eapply below_evolves; [exact Hev | exact Hbelow].
Qed.

Lemma addExistingBlock_attach_ok rank fuel :
  forall parentNode replay,
    attach_ok rank fuel (fun p blk => addExistingBlock fuel p blk parentNode replay).
Proof using UpdateLib_drops Del_drops Children_nodes Children_once.
  induction fuel as [|fuel IH]; intros parentNode replay p blk Hinv Hnode Hparent;
    [simpl; lia |].
  cbn [addExistingBlock].
  destruct (blockCache p !! HeadHash blk) as [node|] eqn:Hlookup; [| exact I].
  destruct (Hnode node eq_refl) as [Hblk Hsingle].
  destruct p as [c vdb svc pool]. simpl in Hinv, Hparent, Hlookup.
  set (h := HeadHash blk) in *.
  set (s := serialNum_of parentNode blk) in *.
  destruct (tree_inv_set_SerialNum rank c h node s Hinv Hlookup Hsingle) as [Hinv1 Hev1].
  pose proof (waiting_set_SerialNum c h node s Hlookup Hsingle) as Hwait1.
  cbn [blockCache set_blockCache set_SerialNum SerialNum verifyDB p2pService txPool].
  set (c1 := <[h := set_SerialNum node s]> c) in *.
  destruct (Z.geb_spec s blockNumPerWitness) as [Hge|Hlt].
  { simpl. fold c1. split; [exact Hinv1 |]. split; [exact Hev1 | lia]. }
  assert (Hnode1 : c1 !! h = Some (set_SerialNum node s)) by apply lookup_insert_eq.
  destruct (tree_inv_Link rank c1 h (set_SerialNum node s) Hinv1 Hnode1)
    as (Hlink & Hinv2 & Hev2).
  { exact Hlt. }
  { simpl. rewrite Hblk. intros pn Hpn.
    destruct (decide (h = ParentHash (Head blk))) as [Heq|Hne].
    - exfalso. pose proof (inv_ranked _ _ Hinv h node Hlookup) as Hr.
      rewrite Hblk, <- Heq in Hr. lia.
    - unfold c1 in Hpn. rewrite lookup_insert_ne in Hpn by exact Hne. eauto. }
  pose proof (waiting_Link c1 h (set_SerialNum node s) Hnode1 Hsingle) as Hwait2.
  rewrite <- Hlink in Hwait2.
  set (node2 := set_Type (set_SerialNum node s) Linked) in *.
  set (c2 := Link c1 (set_SerialNum node s)) in *.
  set (c3 := UpdateLib c2 node2) in *.
  assert (Hwait3 : (waiting c3 <= waiting c2)%nat) by apply waiting_sub, UpdateLib_drops.
  assert (Hinv3 : tree_inv rank c3).
  { eapply tree_inv_sub; [apply UpdateLib_drops | exact Hinv2]. }
  assert (Hev3 : evolves (below c h) c c3).
  { eapply evolves_trans; [exact Hev1 | | auto |].
    - eapply (evolves_trans _ (fun _ => False));
        [exact Hev2 | apply evolves_sub, UpdateLib_drops | | intros k []].
      intros k Hk; exact Hk.
    - intros k Hk. eapply below_evolves; [exact Hev1 | exact Hk]. }
  assert (Hloop : forall vdb' svc' pool',
    outcome_ok rank (S fuel) (mkPoB c vdb svc pool) h
      (if logPanics node2 then Panic
       else
         pc ← forChildren (fun p child => addExistingBlock fuel p child node2 replay)
                (mkPoB c3 vdb' svc' pool') (Children c3 h);
         Done (pc, None))).
  { intros vdb' svc' pool'.
    destruct (logPanics node2); [exact I |].
    pose proof (forChildren_tree_inv rank fuel
                  (fun p child => addExistingBlock fuel p child node2 replay)
                  c3 h (IH node2 replay) (inv_ranked _ _ Hinv3)) as Hchildren.
    specialize (Hchildren) with (todo := Children c3 h) (done := @nil Block)
      (q := mkPoB c3 vdb' svc' pool').
    simpl in Hchildren.
    assert (Hwaiting : forall child, child ∈ Children c3 h ->
              ParentHash (Head child) = h /\
              exists n, c3 !! HeadHash child = Some n /\ bcn_Block n = child /\
                        Type_ n <> Linked).
    { intros child Hchild.
      destruct (Children_nodes _ _ _ Hchild) as (Hp & n & Hn & Hb).
      split; [exact Hp |]. exists n. split; [exact Hn |]. split; [exact Hb |].
      intros Hty.
      destruct (Hev3 _ _ Hn) as (n0 & Hn0 & Hb0 & Hsame).
      assert (Hkey : HeadHash child <> h).
      { intros Heq. pose proof (inv_ranked _ _ Hinv3 _ _ Hn) as Hr.
        rewrite Hb, Hp, Heq in Hr. lia. }
      assert (Hn2 : c2 !! HeadHash child = Some n).
      { eapply lookup_weaken; [exact Hn | apply UpdateLib_drops]. }
      rewrite Hlink, lookup_insert_ne in Hn2 by congruence.
      unfold c1 in Hn2. rewrite lookup_insert_ne in Hn2 by congruence.
      apply Hsingle.
      apply (inv_linked _ _ Hinv _ n node Hn2 Hty).
      rewrite Hb, Hp. exact Hlookup. }
    assert (Hlinked : forall n, c3 !! h = Some n -> Type_ n = Linked).
    { intros n Hn.
      assert (Hn2 : c2 !! h = Some n).
      { eapply lookup_weaken; [exact Hn | apply UpdateLib_drops]. }
      rewrite Hlink, lookup_insert_eq in Hn2.
      injection Hn2 as <-. reflexivity. }
    specialize (Hchildren Hlinked (Children_once c3 h) Hwaiting Hinv3
                  (evolves_refl _ c3)).
    destruct (forChildren _ _ _) as [pc| |]; simpl; [| exact I | lia].
    destruct Hchildren as (Hinv' & Hev' & Hwait').
    split; [exact Hinv' |]. split; [| lia].
    eapply evolves_trans; [exact Hev3 | exact Hev' | auto |].
    simpl. intros k (d & Hd & Hbelow).
    destruct (Children_nodes _ _ _ Hd) as (Hp & n & Hn & Hb).
    destruct (Hev3 _ _ Hn) as (n0 & Hn0 & Hb0 & _).
    eapply below_trans; [| eapply below_evolves; [exact Hev3 | exact Hbelow]].
    eapply below_child; [exact Hn0 |].
    rewrite <- Hb0, Hb, Hp. constructor. }
  destruct (bool_decide (h ∈ vdb)); [apply Hloop |].
  destruct (verifyBlock blk (bcn_Block parentNode) replay) as [err|]; [| apply Hloop].
  simpl. split; [| split].
  - eapply tree_inv_sub; [apply Del_drops | exact Hinv1].
  - eapply (evolves_trans _ (fun _ => False));
      [exact Hev1 | apply evolves_sub, Del_drops | auto | intros k []].
  - etransitivity; [apply waiting_sub, Del_drops |]. fold c1. lia.
Qed.

(** C3.  For the node of a block that is attached to [parentNode]: the
    serial number assigned is 0 when the witness or the slot of the parent
    differs from the block's, and the parent's serial number plus one
    otherwise; when it is at least [blockNumPerWitness] the call returns
    [errOutOfLimit] having changed nothing but that serial number, so the
    node is not linked; and a call on a node that is not Linked, under a
    parent that is Linked if in the cache, leaves a cache in which every
    Linked node has a serial number below [blockNumPerWitness], given a
    cache of which that is true, and does not exhaust a fuel greater than
    the number of nodes that are not Linked. *)
Theorem addExistingBlock_serialNum (rank : hash -> nat) (fuel : nat) (p : PoB)
    (blk : Block) (parentNode node : BlockCacheNode) (replay : bool)
    (Hnode : blockCache p !! HeadHash blk = Some node) :
  let serial := serialNum_of parentNode blk in
  let sameWitness :=
    Witness (Head (bcn_Block parentNode)) = Witness (Head blk) in
  let sameSlot :=
    slotOfSec (Z.quot (Time (Head (bcn_Block parentNode))) 1000000000) =
    slotOfSec (Z.quot (Time (Head blk)) 1000000000) in
  (~ sameWitness \/ ~ sameSlot -> serial = 0) /\
  (sameWitness -> sameSlot ->
     serial = wrap64 (SerialNum parentNode + 1) /\
     (- 2 ^ 63 <= SerialNum parentNode < 2 ^ 63 - 1 ->
        serial = SerialNum parentNode + 1)) /\
  (blockNumPerWitness <= serial ->
     addExistingBlock (S fuel) p blk parentNode replay =
       Done (set_blockCache p
               (<[HeadHash blk := set_SerialNum node serial]> (blockCache p)),
             Some errOutOfLimit)) /\
  (tree_inv rank (blockCache p) ->
   bcn_Block node = blk -> Type_ node <> Linked ->
   (forall pn, blockCache p !! ParentHash (Head blk) = Some pn -> Type_ pn = Linked) ->
   (forall p' r,
      addExistingBlock fuel p blk parentNode replay = Done (p', r) ->
      tree_inv rank (blockCache p') /\ serial_bounded (blockCache p')) /\
   ((waiting (blockCache p) < fuel)%nat ->
      addExistingBlock fuel p blk parentNode replay <> OutOfFuel)).
Proof using UpdateLib_drops Del_drops Children_nodes Children_once.
  intros serial sameWitness sameSlot.
  assert (Hserial : (~ sameWitness \/ ~ sameSlot -> serial = 0) /\
                    (sameWitness -> sameSlot ->
                       serial = wrap64 (SerialNum parentNode + 1))).
  { unfold serial, serialNum_of, sameWitness, sameSlot.
    destruct (String.eqb_spec (Witness (Head (bcn_Block parentNode)))
                (Witness (Head blk))) as [Hw|Hw];
      destruct (Z.eqb_spec
                  (slotOfSec (Z.quot (Time (Head (bcn_Block parentNode))) 1000000000))
                  (slotOfSec (Z.quot (Time (Head blk)) 1000000000))) as [Hs|Hs];
      simpl;
      (split; [intros [H|H]; try reflexivity; contradiction
              | intros H1 H2; try reflexivity; contradiction]). }
  destruct Hserial as [Hzero Hnext].
  split; [exact Hzero |]. split; [| split].
  - intros Hw Hs. split; [auto |]. intros Hrange.
    rewrite (Hnext Hw Hs). apply wrap64_id. unfold int64_range. lia.
  - intros Hlimit. simpl. rewrite Hnode. simpl. fold serial.
    destruct (Z.geb_spec serial blockNumPerWitness); [reflexivity | lia].
  - intros Hinv Hblk Hsingle Hparent.
    pose proof (addExistingBlock_attach_ok rank fuel parentNode replay p blk Hinv)
      as Hout.
    assert (Hwaits : forall node', blockCache p !! HeadHash blk = Some node' ->
              bcn_Block node' = blk /\ Type_ node' <> Linked).
    { intros node' Hnode'. rewrite Hnode in Hnode'. injection Hnode' as <-. auto. }
    specialize (Hout Hwaits Hparent). cbv beta in Hout.
    destruct (addExistingBlock fuel p blk parentNode replay) as [[q e]| |];
      simpl in Hout; split.
    + intros p' r Hrun. injection Hrun as <- _. destruct Hout as (Hinv' & _).
      split; [exact Hinv' | apply (inv_serial _ _ Hinv')].
    + discriminate.
    + discriminate.
    + discriminate.
    + discriminate.
    + intros Hfuel _. lia.
Qed.


(** *** More of the engine *)

(** [RecoverBlock], which replays a block of the write-ahead log:
    [handleRecvBlock] without the lock and with [replay] set. *)
Definition RecoverBlock (fuel : nat) (p : PoB) (blk : Block) : run (PoB * option perror) :=
  match blockCache p !! HeadHash blk with
  | Some _ => Done (p, Some errDuplicate)
  | None =>
      match verifyBasics blk (Sign blk) with
      | Some err => Done (p, Some err)
      | None =>
          let parent := blockCache p !! ParentHash (Head blk) in
          let p := set_blockCache p (Add (blockCache p) blk) in
          match parent with
          | Some parent =>
              if bool_decide (Type_ parent = Linked)
              then addExistingBlock fuel p blk parent true
              else Done (p, Some errSingle)
          | None => Done (p, Some errSingle)
          end
      end
  end.

(** What a call leaves of the notifications: the calls on [p2pService] and
    the nodes handed to the pool before it are a prefix of those after. *)
Definition notifies_more (p p' : PoB) : Prop :=
  txPool p `prefix_of` txPool p' /\ p2pService p `prefix_of` p2pService p'.

Lemma notifies_more_refl p : notifies_more p p.
Proof. split; reflexivity. Qed.

Lemma notifies_more_trans p1 p2 p3 :
  notifies_more p1 p2 -> notifies_more p2 p3 -> notifies_more p1 p3.
Proof. intros [? ?] [? ?]. split; etransitivity; eassumption. Qed.

(** What attaching a block tells the pool and the network: nothing when it
    fails, and first of all the block itself when it succeeds. *)
Lemma addExistingBlock_notifies fuel :
  forall p blk parentNode replay p' r,
    addExistingBlock fuel p blk parentNode replay = Done (p', r) ->
    match r with
    | Some _ => txPool p' = txPool p /\ p2pService p' = p2pService p
    | None =>
        (txPool p ++ [HeadHash blk]) `prefix_of` txPool p' /\
        exists asWitness,
          (p2pService p ++ [ConnectBPs asWitness]) `prefix_of` p2pService p'
    end.
Proof using Type.
  induction fuel as [|fuel IH]; intros p blk parentNode replay p' r Hrun;
    simpl in Hrun; [discriminate |].
  destruct (blockCache p !! HeadHash blk) as [node|]; [| discriminate].
  destruct (_ >=? _).
  { injection Hrun as <- <-. split; reflexivity. }
  match type of Hrun with
  | match ?v with _ => _ end = _ => destruct v as [pv|err] eqn:Hverified
  end.
  2:{ injection Hrun as <- <-. split; reflexivity. }
  assert (Hpv : txPool pv = txPool p /\ p2pService pv = p2pService p).
  { simpl in Hverified. destruct (bool_decide _) in Hverified.
    - injection Hverified as <-. split; reflexivity.
    - destruct (verifyBlock _ _ _); [discriminate |].
      injection Hverified as <-. split; reflexivity. }
  destruct Hpv as [Hpool Hnet].
  destruct (logPanics _); [discriminate |].
  match type of Hrun with
  | (mbind _ (forChildren ?f ?q ?cs)) = _ =>
      destruct (forChildren f q cs) as [pc| |] eqn:Hloop; try discriminate
  end.
  simpl in Hrun. injection Hrun as <- <-.
  match type of Hloop with
  | forChildren _ ?q _ = _ =>
      assert (Hmore : notifies_more q pc)
  end.
  { eapply (forChildren_preserves (fun q' => notifies_more _ q')); [| | exact Hloop].
    - intros q1 child q2 r2 Hq1 Hattach. eapply notifies_more_trans; [exact Hq1 |].
      apply IH in Hattach. destruct r2 as [e|].
      + destruct Hattach as [E1 E2]. split; [rewrite E1 | rewrite E2]; reflexivity.
      + destruct Hattach as (Hp2 & asW & Hn2). split.
        * etransitivity; [| exact Hp2]. apply prefix_app_r. reflexivity.
        * etransitivity; [| exact Hn2]. apply prefix_app_r. reflexivity.
    - apply notifies_more_refl. }
  destruct Hmore as [Hp' Hn']. simpl in Hp', Hn'.
  rewrite Hpool in Hp'. rewrite Hnet in Hn'. eauto.
Qed.

(** X15.  [handleRecvBlock] hands a block to the transaction pool and
    calls [ConnectBPs] only when it returns nil, and then the received
    block comes first; whenever it returns an error, the pool has been
    told nothing and no call has been made on the network. *)
Theorem handleRecvBlock_notifies (fuel : nat) (p p' : PoB) (blk : Block)
    (r : option perror) :
  handleRecvBlock fuel p blk = Done (p', r) ->
  match r with
  | Some _ => txPool p' = txPool p /\ p2pService p' = p2pService p
  | None =>
      (txPool p ++ [HeadHash blk]) `prefix_of` txPool p' /\
      exists asWitness,
        (p2pService p ++ [ConnectBPs asWitness]) `prefix_of` p2pService p'
  end.
Proof using Type.
  unfold handleRecvBlock.
  destruct (blockCache p !! HeadHash blk).
  { intros [= <- <-]. split; reflexivity. }
  destruct (verifyBasics blk (Sign blk)).
  { intros [= <- <-]. split; reflexivity. }
  destruct (blockCache p !! ParentHash (Head blk)) as [parent|].
  - destruct (bool_decide (Type_ parent = Linked)).
    + intros Hrun. apply addExistingBlock_notifies in Hrun. exact Hrun.
    + intros [= <- <-]. split; reflexivity.
  - intros [= <- <-]. split; reflexivity.
Qed.

(** X16.  [RecoverBlock] answers a block whose head hash is in the cache
    with [errDuplicate] and a block that [verifyBasics] rejects with that
    error, leaving the engine as it was; a block that passes, whose parent
    is not in the cache or is there but not Linked, is added as a Single
    node and answered with [errSingle]. *)
Theorem RecoverBlock_spec (fuel : nat) (p : PoB) (blk : Block) :
  (is_Some (blockCache p !! HeadHash blk) ->
     RecoverBlock fuel p blk = Done (p, Some errDuplicate)) /\
  (blockCache p !! HeadHash blk = None ->
   forall e, verifyBasics blk (Sign blk) = Some e ->
     RecoverBlock fuel p blk = Done (p, Some e)) /\
  (blockCache p !! HeadHash blk = None ->
   verifyBasics blk (Sign blk) = None ->
   (blockCache p !! ParentHash (Head blk) = None \/
    exists parent, blockCache p !! ParentHash (Head blk) = Some parent /\
                   Type_ parent <> Linked) ->
     RecoverBlock fuel p blk =
       Done (set_blockCache p (Add (blockCache p) blk), Some errSingle) /\
     Add (blockCache p) blk !! HeadHash blk = Some (mkBlockCacheNode blk Single 0)).
Proof using Type.
  unfold RecoverBlock. split; [| split].
  - intros [node ->]. reflexivity.
  - intros Hnone e He. rewrite Hnone, He. reflexivity.
  - intros Hnew Hbasics Hparent. rewrite Hnew, Hbasics. split.
    + destruct Hparent as [-> | (parent & -> & Hsingle)]; [reflexivity |].
      rewrite bool_decide_eq_false_2 by exact Hsingle. reflexivity.
    + unfold Add. apply lookup_insert_eq.
Qed.

(** X17.  A block that was answered with [errSingle] for want of a Linked
    parent, or with [errOutOfLimit], stays in the cache, not Linked: fed
    again it is answered with [errDuplicate] and nothing changes. *)
Theorem handleRecvBlock_again (fuel fuel' : nat) (p : PoB) (blk : Block) :
  blockCache p !! HeadHash blk = None ->
  verifyBasics blk (Sign blk) = None ->
  ((blockCache p !! ParentHash (Head blk) = None \/
    exists parent, blockCache p !! ParentHash (Head blk) = Some parent /\
                   Type_ parent <> Linked) ->
   exists p1,
     handleRecvBlock fuel p blk = Done (p1, Some errSingle) /\
     blockCache p1 !! HeadHash blk = Some (mkBlockCacheNode blk Single 0) /\
     handleRecvBlock fuel' p1 blk = Done (p1, Some errDuplicate)) /\
  (forall parent,
     blockCache p !! ParentHash (Head blk) = Some parent ->
     Type_ parent = Linked ->
     blockNumPerWitness <= serialNum_of parent blk ->
     exists p1,
       handleRecvBlock (S fuel) p blk = Done (p1, Some errOutOfLimit) /\
       blockCache p1 !! HeadHash blk =
         Some (mkBlockCacheNode blk Single (serialNum_of parent blk)) /\
       handleRecvBlock fuel' p1 blk = Done (p1, Some errDuplicate)).
Proof using Type.
  intros Hnew Hbasics. split.
  - intros Hparent. eexists. split; [| split].
    + unfold handleRecvBlock. rewrite Hnew, Hbasics.
      destruct Hparent as [-> | (parent & -> & Hsingle)]; [reflexivity |].
      rewrite bool_decide_eq_false_2 by exact Hsingle. reflexivity.
    + unfold Add. simpl. apply lookup_insert_eq.
    + unfold handleRecvBlock. simpl. unfold Add. rewrite lookup_insert_eq. reflexivity.
  - intros parent Hparent Hlinked Hlimit. eexists. split; [| split].
    + unfold handleRecvBlock. rewrite Hnew, Hbasics, Hparent.
      rewrite bool_decide_eq_true_2 by exact Hlinked.
      simpl. unfold Add. rewrite lookup_insert_eq. simpl.
      destruct (Z.geb_spec (serialNum_of parent blk) blockNumPerWitness);
        [reflexivity | lia].
    + simpl. rewrite lookup_insert_eq. reflexivity.
    + unfold handleRecvBlock. simpl. rewrite lookup_insert_eq. reflexivity.
Qed.

(** *** The nodes of the cache *)

(** [c'] has no node that [c] has not, and every node of [c'] wraps the
    block it wraps in [c]. *)
Definition same_blocks (c c' : gmap hash BlockCacheNode) : Prop :=
  forall k n', c' !! k = Some n' ->
    exists n, c !! k = Some n /\ bcn_Block n' = bcn_Block n.

Lemma same_blocks_refl c : same_blocks c c.
Proof. intros k n Hn. eauto. Qed.

Lemma same_blocks_trans c1 c2 c3 :
  same_blocks c1 c2 -> same_blocks c2 c3 -> same_blocks c1 c3.
Proof.
  intros H12 H23 k n3 Hn3.
  destruct (H23 k n3 Hn3) as (n2 & Hn2 & Hb2).
  destruct (H12 k n2 Hn2) as (n1 & Hn1 & Hb1).
  exists n1. split; [exact Hn1 | congruence].
Qed.

Lemma same_blocks_sub c c' : c' ⊆ c -> same_blocks c c'.
Proof. intros Hsub k n Hn. exists n. split; [eapply lookup_weaken; eauto | reflexivity]. Qed.

Lemma same_blocks_insert c k n n' :
  c !! k = Some n -> bcn_Block n' = bcn_Block n -> same_blocks c (<[k := n']> c).
Proof.
  intros Hn Hb i x Hx. destruct (decide (k = i)) as [<-|Hne].
  - rewrite lookup_insert_eq in Hx. injection Hx as <-. eauto.
  - rewrite lookup_insert_ne in Hx by exact Hne. eauto.
Qed.

Lemma same_blocks_keyed c c' : same_blocks c c' -> keyed c -> keyed c'.
Proof.
  intros Hsame Hkeyed k n' Hn'. destruct (Hsame k n' Hn') as (n & Hn & Hb).
  rewrite Hb. eauto.
Qed.

Lemma addExistingBlock_same_blocks fuel :
  forall p blk parentNode replay p' r,
    keyed (blockCache p) ->
    addExistingBlock fuel p blk parentNode replay = Done (p', r) ->
    same_blocks (blockCache p) (blockCache p').
Proof using UpdateLib_drops Del_drops.
  induction fuel as [|fuel IH]; intros p blk parentNode replay p' r Hkeyed Hrun;
    simpl in Hrun; [discriminate |].
  destruct (blockCache p !! HeadHash blk) as [node|] eqn:Hnode; [| discriminate].
  set (node1 := set_SerialNum node (serialNum_of parentNode blk)) in *.
  assert (Hsame1 : same_blocks (blockCache p) (<[HeadHash blk := node1]> (blockCache p))).
  { eapply same_blocks_insert; [exact Hnode | reflexivity]. }
  destruct (_ >=? _).
  { injection Hrun as <- _. exact Hsame1. }
  match type of Hrun with
  | match ?v with _ => _ end = _ => destruct v as [pv|err] eqn:Hverified
  end.
  2:{ injection Hrun as <- _. simpl.
      eapply same_blocks_trans; [exact Hsame1 | apply same_blocks_sub, Del_drops]. }
  assert (Hpv : blockCache pv = <[HeadHash blk := node1]> (blockCache p)).
  { simpl in Hverified. destruct (bool_decide _) in Hverified.
    - injection Hverified as <-. reflexivity.
    - destruct (verifyBlock _ _ _); [discriminate |].
      injection Hverified as <-. reflexivity. }
  destruct (logPanics _); [discriminate |].
  match type of Hrun with
  | (mbind _ (forChildren ?f ?q ?cs)) = _ =>
      destruct (forChildren f q cs) as [pc| |] eqn:Hloop; try discriminate
  end.
  simpl in Hrun. injection Hrun as <- _.
  assert (Hkey : HeadHash (bcn_Block node1) = HeadHash blk).
  { simpl. apply (Hkeyed _ _ Hnode). }
  match type of Hloop with
  | forChildren _ ?q _ = _ =>
      assert (Hq : same_blocks (blockCache p) (blockCache q))
  end.
  { simpl. rewrite Hpv.
    eapply same_blocks_trans; [| apply same_blocks_sub, UpdateLib_drops].
    eapply same_blocks_trans; [exact Hsame1 |].
    unfold Link. rewrite Hkey.
    eapply same_blocks_insert; [apply lookup_insert_eq | reflexivity]. }
  eapply (forChildren_preserves
            (fun q' => same_blocks (blockCache p) (blockCache q')));
    [| exact Hq | exact Hloop].
  intros q1 child q2 r2 Hq1 Hattach.
  eapply same_blocks_trans; [exact Hq1 |].
  eapply IH; [| exact Hattach].
  eapply same_blocks_keyed; eassumption.
Qed.

(** X18.  On a cache whose nodes sit each at the head hash of its block,
    [handleRecvBlock] invents nothing: every node it leaves is a node that
    was there, or the node of the received block, and wraps the same
    block; the nodes still sit at the head hashes of their blocks. *)
Theorem handleRecvBlock_same_blocks (fuel : nat) (p p' : PoB) (blk : Block)
    (r : option perror) :
  keyed (blockCache p) ->
  handleRecvBlock fuel p blk = Done (p', r) ->
  keyed (blockCache p') /\
  forall k n', blockCache p' !! k = Some n' ->
    (k = HeadHash blk /\ bcn_Block n' = blk) \/
    (exists n, blockCache p !! k = Some n /\ bcn_Block n' = bcn_Block n).
Proof using UpdateLib_drops Del_drops.
  intros Hkeyed Hrun.
  assert (Hadd : keyed (Add (blockCache p) blk)).
  { intros k n Hn. unfold Add in Hn. destruct (decide (HeadHash blk = k)) as [<-|Hne].
    - rewrite lookup_insert_eq in Hn. injection Hn as <-. reflexivity.
    - rewrite lookup_insert_ne in Hn by exact Hne. eauto. }
  assert (Hfrom : forall c', same_blocks (Add (blockCache p) blk) c' ->
            keyed c' /\
            forall k n', c' !! k = Some n' ->
              (k = HeadHash blk /\ bcn_Block n' = blk) \/
              (exists n, blockCache p !! k = Some n /\ bcn_Block n' = bcn_Block n)).
  { intros c' Hsame. split; [eapply same_blocks_keyed; eassumption |].
    intros k n' Hn'. destruct (Hsame k n' Hn') as (n & Hn & Hb).
    unfold Add in Hn. destruct (decide (HeadHash blk = k)) as [<-|Hne].
    - rewrite lookup_insert_eq in Hn. injection Hn as <-. left. auto.
    - rewrite lookup_insert_ne in Hn by exact Hne. right. eauto. }
  assert (Hsame0 : keyed (blockCache p) /\
            forall k n', blockCache p !! k = Some n' ->
              (k = HeadHash blk /\ bcn_Block n' = blk) \/
              (exists n, blockCache p !! k = Some n /\ bcn_Block n' = bcn_Block n))
    by (split; [exact Hkeyed | eauto]).
  unfold handleRecvBlock in Hrun.
  destruct (blockCache p !! HeadHash blk).
  { injection Hrun as <- _. exact Hsame0. }
  destruct (verifyBasics blk (Sign blk)).
  { injection Hrun as <- _. exact Hsame0. }
  destruct (blockCache p !! ParentHash (Head blk)) as [parent|].
  - destruct (bool_decide (Type_ parent = Linked)).
    + apply Hfrom.
      apply (addExistingBlock_same_blocks fuel
               (set_blockCache p (Add (blockCache p) blk)) blk parent false p' r
               Hadd Hrun).
    + injection Hrun as <- _. apply Hfrom, same_blocks_refl.
  - injection Hrun as <- _. apply Hfrom, same_blocks_refl.
Qed.

End WithCollaborators.

(** *** A small concrete engine

    Toy stand-ins for the collaborators: a block head hashes to its witness
    followed by its number; a slot lasts three seconds; [verifyBasics]
    rejects an empty signature and [verifyBlock] accepts everything; the
    marshaller writes the hash; [UpdateLib] drops nothing and [Del] drops
    the node; the children of [h] are the blocks of the nodes that name [h]
    as parent; the account is the witness [w] of the toy blocks. *)

Definition toy_HeadHash (blk : Block) : hash :=
  String.append (Witness (Head blk)) (pretty (Number (Head blk))).

Definition toy_slotOfSec (sec : Z) : Z := sec / 3.

Definition toy_verifyBasics (blk : Block) (sig : list byte) : option perror :=
  match sig with
  | [] => Some (errOther "signature")
  | _ => None
  end.

Definition toy_verifyBlock (blk parent : Block) (replay : bool) : option perror := None.

Definition toy_Marshal (info : BlockInfo) : list byte + string :=
  inl (String.list_byte_of_string (bi_Hash info)).

Definition toy_UpdateLib (c : gmap hash BlockCacheNode) (n : BlockCacheNode)
    : gmap hash BlockCacheNode := c.

Definition toy_Del (c : gmap hash BlockCacheNode) (n : BlockCacheNode)
    : gmap hash BlockCacheNode := delete (toy_HeadHash (bcn_Block n)) c.

Definition child_of (h : hash) (kn : hash * BlockCacheNode) : option Block :=
  if bool_decide (ParentHash (Head (bcn_Block kn.2)) = h) &&
     bool_decide (toy_HeadHash (bcn_Block kn.2) = kn.1)
  then Some (bcn_Block kn.2) else None.

Definition toy_Children (c : gmap hash BlockCacheNode) (h : hash) : list Block :=
  omap (child_of h) (map_to_list c).

Definition toy_isWitnessOfHead (c : gmap hash BlockCacheNode) : bool := false.

Definition toy_ReadablePubkey : string := "w".

Lemma toy_UpdateLib_drops c n : toy_UpdateLib c n ⊆ c.
Proof. reflexivity. Qed.

Lemma toy_Del_drops c n : toy_Del c n ⊆ c.
Proof. apply delete_subseteq. Qed.

Lemma toy_Children_nodes c h child :
  child ∈ toy_Children c h ->
  ParentHash (Head child) = h /\
  exists n, c !! toy_HeadHash child = Some n /\ bcn_Block n = child.
Proof.
  unfold toy_Children. intros Hin.
  apply list_elem_of_omap in Hin as ([k n] & Hkn & Hchild).
  unfold child_of in Hchild. simpl in Hchild.
  destruct (bool_decide_reflect (ParentHash (Head (bcn_Block n)) = h)); [| discriminate].
  destruct (bool_decide_reflect (toy_HeadHash (bcn_Block n) = k)); [| discriminate].
  simpl in Hchild. injection Hchild as <-. split; [assumption |].
  exists n. split; [| reflexivity].
  apply elem_of_map_to_list in Hkn. congruence.
Qed.

Lemma child_of_keys h (l : list (hash * BlockCacheNode)) :
  NoDup (map fst l) ->
  NoDup (map toy_HeadHash (omap (child_of h) l)) /\
  (forall k, k ∈ map toy_HeadHash (omap (child_of h) l) -> k ∈ map fst l).
Proof.
  induction l as [|[k n] l IH]; simpl; intros Hnodup.
  - split; [constructor | auto].
  - apply NoDup_cons in Hnodup as [Hk Hl]. destruct (IH Hl) as [IH1 IH2].
    destruct (child_of h (k, n)) as [b|] eqn:Hchild; simpl.
    2:{ split; [exact IH1 |]. intros k' Hk'. apply list_elem_of_further, IH2, Hk'. }
    assert (Heq : toy_HeadHash b = k).
    { unfold child_of in Hchild. simpl in Hchild.
      destruct (bool_decide (ParentHash (Head (bcn_Block n)) = h)); [| discriminate].
      destruct (bool_decide_reflect (toy_HeadHash (bcn_Block n) = k)); [| discriminate].
      simpl in Hchild. injection Hchild as <-. assumption. }
    rewrite Heq. split.
    + apply NoDup_cons. split; [| exact IH1]. intros Hin. apply Hk, IH2, Hin.
    + intros k' Hk'. apply elem_of_cons in Hk' as [-> | Hk'].
      * apply list_elem_of_here.
      * apply list_elem_of_further, IH2, Hk'.
Qed.

Lemma toy_Children_once c h : NoDup (map toy_HeadHash (toy_Children c h)).
Proof. apply child_of_keys, NoDup_fst_map_to_list. Qed.

Definition block_of (witness : string) (number : Z) (parent : hash) (t : Z)
    (sig : list byte) : Block :=
  {| Head := {| Number := number; ParentHash := parent; Witness := witness;
                Time := t * 1000000000 |};
     Sign := sig |}.

(** Blocks of witness [w]: 10 is the root, 11 and 12 follow in the same
    slot; the last one carries no signature. *)
Definition block_10 : Block := block_of "w" 10 "w9" 30 [x01].
Definition block_11 : Block := block_of "w" 11 "w10" 30 [x01].
Definition block_12 : Block := block_of "w" 12 "w11" 31 [x01].
Definition block_unsigned : Block := block_of "w" 13 "v7" 31 [].

Definition engine_of (c : gmap hash BlockCacheNode) : PoB :=
  {| blockCache := c; verifyDB := ∅; p2pService := []; txPool := [] |}.

Definition cache_root (serial : Z) : gmap hash BlockCacheNode :=
  {[ "w10"%string := mkBlockCacheNode block_10 Linked serial ]}.

(** Root 10 Linked, 11 and 12 waiting as Single nodes. *)
Definition cache_waiting : gmap hash BlockCacheNode :=
  <[ "w12"%string := mkBlockCacheNode block_12 Single 0 ]>
    (<[ "w11"%string := mkBlockCacheNode block_11 Single 0 ]> (cache_root 0)).

Definition toy_rank (k : hash) : nat :=
  if bool_decide (k = "w10"%string) then 1
  else if bool_decide (k = "w11"%string) then 2
  else if bool_decide (k = "w12"%string) then 3
  else 0.

Lemma cache_waiting_tree_inv : tree_inv toy_HeadHash toy_rank cache_waiting.
Proof.
  split.
  - apply (bool_decide_unpack (map_Forall _ cache_waiting)). vm_compute. exact I.
  - apply (bool_decide_unpack (map_Forall _ cache_waiting)). vm_compute. exact I.
  - intros k n pn Hn Hty Hpn. exfalso.
    assert (Hroot : map_Forall
              (fun _ n => Type_ n = Linked ->
                 ~ is_Some (cache_waiting !! ParentHash (Head (bcn_Block n))))
              cache_waiting).
    { apply (bool_decide_unpack _). vm_compute. exact I. }
    apply (Hroot k n Hn Hty). eauto.
  - apply (bool_decide_unpack (map_Forall _ cache_waiting)). vm_compute. exact I.
Qed.

Lemma addExistingBlock_serialNum_witness :
  addExistingBlock toy_HeadHash toy_slotOfSec toy_verifyBlock toy_UpdateLib toy_Del
    toy_Children toy_isWitnessOfHead toy_ReadablePubkey 1
    (engine_of (<[ "w11"%string := mkBlockCacheNode block_11 Single 0 ]> (cache_root 5)))
    block_11 (mkBlockCacheNode block_10 Linked 5) false =
  Done (engine_of (<[ "w11"%string := mkBlockCacheNode block_11 Single 6 ]> (cache_root 5)),
        Some errOutOfLimit) /\
  (forall p' r,
     addExistingBlock toy_HeadHash toy_slotOfSec toy_verifyBlock toy_UpdateLib toy_Del
       toy_Children toy_isWitnessOfHead toy_ReadablePubkey 3 (engine_of cache_waiting)
       block_11 (mkBlockCacheNode block_10 Linked 0) false = Done (p', r) ->
     serial_bounded (blockCache p')) /\
  addExistingBlock toy_HeadHash toy_slotOfSec toy_verifyBlock toy_UpdateLib toy_Del
    toy_Children toy_isWitnessOfHead toy_ReadablePubkey 3 (engine_of cache_waiting)
    block_11 (mkBlockCacheNode block_10 Linked 0) false <> OutOfFuel.
Proof.
  pose proof (addExistingBlock_serialNum toy_HeadHash toy_slotOfSec toy_verifyBlock
                toy_UpdateLib toy_Del toy_Children toy_isWitnessOfHead toy_ReadablePubkey
                toy_UpdateLib_drops toy_Del_drops toy_Children_nodes toy_Children_once
                toy_rank 0
                (engine_of (<[ "w11"%string := mkBlockCacheNode block_11 Single 0 ]>
                              (cache_root 5)))
                block_11 (mkBlockCacheNode block_10 Linked 5)
                (mkBlockCacheNode block_11 Single 0) false eq_refl)
    as (_ & _ & Hreject & _).
  pose proof (addExistingBlock_serialNum toy_HeadHash toy_slotOfSec toy_verifyBlock
                toy_UpdateLib toy_Del toy_Children toy_isWitnessOfHead toy_ReadablePubkey
                toy_UpdateLib_drops toy_Del_drops toy_Children_nodes toy_Children_once
                toy_rank 3 (engine_of cache_waiting)
                block_11 (mkBlockCacheNode block_10 Linked 0)
                (mkBlockCacheNode block_11 Single 0) false eq_refl)
    as (_ & _ & _ & Hinv).
  destruct (Hinv cache_waiting_tree_inv eq_refl ltac:(discriminate)) as [Hkeeps Hends].
  { intros pn Hpn. vm_compute in Hpn. injection Hpn as <-. reflexivity. }
  split; [| split].
  - rewrite Hreject; [reflexivity | vm_compute; discriminate].
  - intros p' r Hrun. apply (Hkeeps p' r Hrun).
  - apply Hends. vm_compute. lia.
Defined.

(** For an account other than the witness, the log line panics on the
    one-byte witness of the toy blocks. *)
Example addExistingBlock_short_witness :
  addExistingBlock toy_HeadHash toy_slotOfSec toy_verifyBlock toy_UpdateLib toy_Del
    toy_Children toy_isWitnessOfHead "someone else" 3 (engine_of cache_waiting)
    block_11 (mkBlockCacheNode block_10 Linked 0) false = Panic.
Proof. vm_compute. reflexivity. Qed.

(** Blocks 11 and 12 end up Linked with serial numbers 1 and 2. *)
Example addExistingBlock_links_children :
  exists p',
    addExistingBlock toy_HeadHash toy_slotOfSec toy_verifyBlock toy_UpdateLib toy_Del
      toy_Children toy_isWitnessOfHead toy_ReadablePubkey 3 (engine_of cache_waiting)
      block_11 (mkBlockCacheNode block_10 Linked 0) false = Done (p', None) /\
    blockCache p' !! "w11"%string = Some (mkBlockCacheNode block_11 Linked 1) /\
    blockCache p' !! "w12"%string = Some (mkBlockCacheNode block_12 Linked 2) /\
    txPool p' = ["w11"%string; "w12"%string].
Proof. eexists. split; [vm_compute; reflexivity |]. repeat split. Qed.

(** C4, the claim as stated fails: a block whose parent is not in the
    cache is neither added nor answered with [errSingle] when
    [verifyBasics] rejects it. *)
Lemma handleRecvBlock_rejected_not_single :
  ~ (forall (p : PoB) (blk : Block),
       blockCache p !! toy_HeadHash blk = None ->
       blockCache p !! ParentHash (Head blk) = None ->
       exists fuel,
         handleRecvBlock toy_HeadHash toy_slotOfSec toy_verifyBasics toy_verifyBlock
           toy_UpdateLib toy_Del toy_Children toy_isWitnessOfHead toy_ReadablePubkey fuel p blk =
         Done (set_blockCache p (Add toy_HeadHash (blockCache p) blk), Some errSingle)).
Proof.
  intros H.
  destruct (H (engine_of (cache_root 0)) block_unsigned eq_refl eq_refl) as [fuel Hrun].
  unfold handleRecvBlock in Hrun.
  change (blockCache (engine_of (cache_root 0)) !! toy_HeadHash block_unsigned)
    with (@None BlockCacheNode) in Hrun.
  simpl in Hrun. discriminate.
Qed.

Lemma handleRecvBlock_spec_witness :
  handleRecvBlock toy_HeadHash toy_slotOfSec toy_verifyBasics toy_verifyBlock
    toy_UpdateLib toy_Del toy_Children toy_isWitnessOfHead toy_ReadablePubkey 3
    (engine_of (cache_root 0)) block_12 =
  Done (engine_of (<[ "w12"%string := mkBlockCacheNode block_12 Single 0 ]> (cache_root 0)),
        Some errSingle) /\
  handleRecvBlock toy_HeadHash toy_slotOfSec toy_verifyBasics toy_verifyBlock
    toy_UpdateLib toy_Del toy_Children toy_isWitnessOfHead toy_ReadablePubkey 3
    (engine_of (cache_root 0)) block_10 =
  Done (engine_of (cache_root 0), Some errDuplicate).
Proof.
  destruct (handleRecvBlock_spec toy_HeadHash toy_slotOfSec toy_verifyBasics
              toy_verifyBlock toy_UpdateLib toy_Del toy_Children toy_isWitnessOfHead toy_ReadablePubkey
              3 (engine_of (cache_root 0)) block_12) as (_ & Hsingle & _).
  destruct (handleRecvBlock_spec toy_HeadHash toy_slotOfSec toy_verifyBasics
              toy_verifyBlock toy_UpdateLib toy_Del toy_Children toy_isWitnessOfHead toy_ReadablePubkey
              3 (engine_of (cache_root 0)) block_10) as (Hdup & _).
  split.
  - destruct Hsingle as (Hrun & _); [reflexivity | reflexivity | left; reflexivity |].
    exact Hrun.
  - apply Hdup. eexists. reflexivity.
Defined.

(** C5 at work: block 12 arrives as [NewBlock] before its parent and is
    kept as a Single node; its hash is broadcast. *)
Lemma doVerifyBlock_broadcast_witness :
  exists p',
    doVerifyBlock toy_HeadHash toy_slotOfSec toy_verifyBasics toy_verifyBlock
      toy_Marshal toy_UpdateLib toy_Del toy_Children toy_isWitnessOfHead toy_ReadablePubkey 3
      (engine_of (cache_root 0)) (mkBlockMessage block_12 NewBlock) = Done p' /\
    hashBroadcasts (p2pService p') = [String.list_byte_of_string "w12"].
Proof.
  destruct (doVerifyBlock_broadcast toy_HeadHash toy_slotOfSec toy_verifyBasics
              toy_verifyBlock toy_Marshal toy_UpdateLib toy_Del toy_Children
              toy_isWitnessOfHead toy_ReadablePubkey 3 (engine_of (cache_root 0))
              (mkBlockMessage block_12 NewBlock)
              (engine_of (<[ "w12"%string := mkBlockCacheNode block_12 Single 0 ]>
                            (cache_root 0)))
              (Some errSingle) (String.list_byte_of_string "w12"))
    as (p' & Hrun & _ & Hsent & _).
  - reflexivity.
  - reflexivity.
  - exists p'. split; [exact Hrun |]. apply Hsent. right. reflexivity.
Defined.

(** The same block again, as [NewBlock]: a duplicate, nothing is
    broadcast; and as [SyncBlockResponse] the first time: nothing is
    broadcast either. *)
Example doVerifyBlock_silent :
  (exists p',
     doVerifyBlock toy_HeadHash toy_slotOfSec toy_verifyBasics toy_verifyBlock
       toy_Marshal toy_UpdateLib toy_Del toy_Children toy_isWitnessOfHead toy_ReadablePubkey 3
       (engine_of (<[ "w12"%string := mkBlockCacheNode block_12 Single 0 ]> (cache_root 0)))
       (mkBlockMessage block_12 NewBlock) = Done p' /\
     p2pService p' = []) /\
  (exists p',
     doVerifyBlock toy_HeadHash toy_slotOfSec toy_verifyBasics toy_verifyBlock
       toy_Marshal toy_UpdateLib toy_Del toy_Children toy_isWitnessOfHead toy_ReadablePubkey 3
       (engine_of (cache_root 0)) (mkBlockMessage block_12 SyncBlockResponse) = Done p' /\
     p2pService p' = []).
Proof. split; eexists; (split; [vm_compute; reflexivity | reflexivity]). Qed.


(** *** The rest of the engine at work *)

Lemma handleRecvBlock_notifies_witness :
  exists p',
    handleRecvBlock toy_HeadHash toy_slotOfSec toy_verifyBasics toy_verifyBlock
      toy_UpdateLib toy_Del toy_Children toy_isWitnessOfHead toy_ReadablePubkey 3
      (engine_of (cache_root 0)) block_11 = Done (p', None) /\
    ([] ++ [toy_HeadHash block_11]) `prefix_of` txPool p' /\
    exists asWitness, ([] ++ [ConnectBPs asWitness]) `prefix_of` p2pService p'.
Proof.
  eexists. split; [vm_compute; reflexivity |].
  match goal with
  | |- _ `prefix_of` txPool ?q /\ _ =>
      apply (handleRecvBlock_notifies toy_HeadHash toy_slotOfSec toy_verifyBasics
               toy_verifyBlock toy_UpdateLib toy_Del toy_Children toy_isWitnessOfHead
               toy_ReadablePubkey 3 (engine_of (cache_root 0)) q block_11 None)
  end.
  vm_compute. reflexivity.
Defined.

Lemma RecoverBlock_spec_witness :
  RecoverBlock toy_HeadHash toy_slotOfSec toy_verifyBasics toy_verifyBlock
    toy_UpdateLib toy_Del toy_Children toy_isWitnessOfHead toy_ReadablePubkey 3
    (engine_of (cache_root 0)) block_12 =
  Done (engine_of (<[ "w12"%string := mkBlockCacheNode block_12 Single 0 ]> (cache_root 0)),
        Some errSingle) /\
  RecoverBlock toy_HeadHash toy_slotOfSec toy_verifyBasics toy_verifyBlock
    toy_UpdateLib toy_Del toy_Children toy_isWitnessOfHead toy_ReadablePubkey 3
    (engine_of (cache_root 0)) block_10 =
  Done (engine_of (cache_root 0), Some errDuplicate) /\
  RecoverBlock toy_HeadHash toy_slotOfSec toy_verifyBasics toy_verifyBlock
    toy_UpdateLib toy_Del toy_Children toy_isWitnessOfHead toy_ReadablePubkey 3
    (engine_of (cache_root 0)) block_unsigned =
  Done (engine_of (cache_root 0), Some (errOther "signature")).
Proof.
  destruct (RecoverBlock_spec toy_HeadHash toy_slotOfSec toy_verifyBasics
              toy_verifyBlock toy_UpdateLib toy_Del toy_Children toy_isWitnessOfHead
              toy_ReadablePubkey 3 (engine_of (cache_root 0)) block_12)
    as (_ & _ & Hsingle).
  destruct (RecoverBlock_spec toy_HeadHash toy_slotOfSec toy_verifyBasics
              toy_verifyBlock toy_UpdateLib toy_Del toy_Children toy_isWitnessOfHead
              toy_ReadablePubkey 3 (engine_of (cache_root 0)) block_10)
    as (Hdup & _).
  destruct (RecoverBlock_spec toy_HeadHash toy_slotOfSec toy_verifyBasics
              toy_verifyBlock toy_UpdateLib toy_Del toy_Children toy_isWitnessOfHead
              toy_ReadablePubkey 3 (engine_of (cache_root 0)) block_unsigned)
    as (_ & Hbasics & _).
  split; [| split].
  - destruct Hsingle as (Hrun & _); [reflexivity | reflexivity | left; reflexivity |].
    exact Hrun.
  - apply Hdup. eexists. reflexivity.
  - apply Hbasics; reflexivity.
Defined.

(** Block 11 after a root that is the sixth block of its slot. *)
Lemma handleRecvBlock_again_witness :
  (exists p1,
     handleRecvBlock toy_HeadHash toy_slotOfSec toy_verifyBasics toy_verifyBlock
       toy_UpdateLib toy_Del toy_Children toy_isWitnessOfHead toy_ReadablePubkey 3
       (engine_of (cache_root 0)) block_12 = Done (p1, Some errSingle) /\
     blockCache p1 !! toy_HeadHash block_12 = Some (mkBlockCacheNode block_12 Single 0) /\
     handleRecvBlock toy_HeadHash toy_slotOfSec toy_verifyBasics toy_verifyBlock
       toy_UpdateLib toy_Del toy_Children toy_isWitnessOfHead toy_ReadablePubkey 3
       p1 block_12 = Done (p1, Some errDuplicate)) /\
  (exists p1,
     handleRecvBlock toy_HeadHash toy_slotOfSec toy_verifyBasics toy_verifyBlock
       toy_UpdateLib toy_Del toy_Children toy_isWitnessOfHead toy_ReadablePubkey 3
       (engine_of (cache_root 5)) block_11 = Done (p1, Some errOutOfLimit) /\
     blockCache p1 !! toy_HeadHash block_11 = Some (mkBlockCacheNode block_11 Single 6) /\
     handleRecvBlock toy_HeadHash toy_slotOfSec toy_verifyBasics toy_verifyBlock
       toy_UpdateLib toy_Del toy_Children toy_isWitnessOfHead toy_ReadablePubkey 3
       p1 block_11 = Done (p1, Some errDuplicate)).
Proof.
  split.
  - destruct (handleRecvBlock_again toy_HeadHash toy_slotOfSec toy_verifyBasics
                toy_verifyBlock toy_UpdateLib toy_Del toy_Children toy_isWitnessOfHead
                toy_ReadablePubkey 3 3 (engine_of (cache_root 0)) block_12)
      as (Hsingle & _); [reflexivity | reflexivity |].
    apply Hsingle. left. reflexivity.
  - destruct (handleRecvBlock_again toy_HeadHash toy_slotOfSec toy_verifyBasics
                toy_verifyBlock toy_UpdateLib toy_Del toy_Children toy_isWitnessOfHead
                toy_ReadablePubkey 2 3 (engine_of (cache_root 5)) block_11)
      as (_ & Hlimit); [reflexivity | reflexivity |].
    apply (Hlimit (mkBlockCacheNode block_10 Linked 5));
      [reflexivity | reflexivity | vm_compute; discriminate].
Defined.

Lemma handleRecvBlock_same_blocks_witness :
  exists p',
    handleRecvBlock toy_HeadHash toy_slotOfSec toy_verifyBasics toy_verifyBlock
      toy_UpdateLib toy_Del toy_Children toy_isWitnessOfHead toy_ReadablePubkey 3
      (engine_of (cache_root 0)) block_11 = Done (p', None) /\
    keyed toy_HeadHash (blockCache p') /\
    forall k n', blockCache p' !! k = Some n' ->
      (k = toy_HeadHash block_11 /\ bcn_Block n' = block_11) \/
      (exists n, cache_root 0 !! k = Some n /\ bcn_Block n' = bcn_Block n).
Proof.
  eexists. split; [vm_compute; reflexivity |].
  match goal with
  | |- keyed _ (blockCache ?q) /\ _ =>
      apply (handleRecvBlock_same_blocks toy_HeadHash toy_slotOfSec toy_verifyBasics
               toy_verifyBlock toy_UpdateLib toy_Del toy_Children toy_isWitnessOfHead
               toy_ReadablePubkey toy_UpdateLib_drops toy_Del_drops
               3 (engine_of (cache_root 0)) q block_11 None)
  end.
  - apply (bool_decide_unpack (map_Forall _ (cache_root 0))). vm_compute. exact I.
  - vm_compute. reflexivity.
Defined.

End PoB.

(** ** Package core/tx: the generated codec of [TxRaw] *)

Module TxCodec.

(** *** Bytes and machine integers *)

Definition Z_of_byte (b : byte) : Z := Z.of_N (Byte.to_N b).

(** [uint8(z)]. *)
Definition byte_of_Z (z : Z) : byte :=
  match Byte.of_N (Z.to_N (z mod 256)) with
  | Some b => b
  | None => x00
  end.

(** [uint64(z)] and [int32(z)]. *)
Definition uint64 (z : Z) : Z := z mod 2 ^ 64.
Definition wrap32 (z : Z) : Z := (z + 2 ^ 31) mod 2 ^ 32 - 2 ^ 31.

(** What a decoding function returns: a value, one of the errors of the
    package, a run-time panic, or an exhausted recursion budget. *)
Inductive result (A : Type) : Type :=
| Ok (a : A)
| Err (e : error)
| Crash
| Starved.
Arguments Ok {A} a.
Arguments Err {A} e.
Arguments Crash {A}.
Arguments Starved {A}.

#[global] Instance result_ret : MRet result := fun A a => Ok a.

#[global] Instance result_bind : MBind result := fun A B k m =>
  match m with
  | Ok a => k a
  | Err e => Err e
  | Crash => Crash
  | Starved => Starved
  end.

Definition ErrInvalidLengthTx : error :=
  "proto: negative length found during unmarshaling".
Definition ErrIntOverflowTx : error := "proto: integer overflow".
Definition ErrUnexpectedEOF : error := "unexpected EOF".

(** *** Varints *)

(** [encodeVarintTx(dAtA, offset, v)]: the bytes written from [offset].
    A [uint64] is below 128 after nine shifts by seven bits, so the loop
    makes at most nine rounds. *)
Fixpoint encodeVarint_loop (rounds : nat) (v : Z) : list byte :=
  match rounds with
  | O => [byte_of_Z v]
  | S rounds' =>
      if v >=? 128 then
        byte_of_Z (Z.lor (Z.land v 127) 128)
          :: encodeVarint_loop rounds' (Z.shiftr v 7)
      else [byte_of_Z v]
  end.

Definition encodeVarintTx (v : Z) : list byte := encodeVarint_loop 9 v.

(** [sovTx(x)]. *)
Fixpoint sovTx_loop (rounds : nat) (x : Z) : Z :=
  match rounds with
  | O => 1
  | S rounds' =>
      let x := Z.shiftr x 7 in
      if x =? 0 then 1 else 1 + sovTx_loop rounds' x
  end.

Definition sovTx (x : Z) : Z := sovTx_loop 9 x.

(** The loop that reads a varint, [for shift := uint(0); ; shift += 7],
    from the bytes at [iNdEx]: the value and the bytes that follow it.
    [wrap] is the integer type of the accumulator. *)
Fixpoint readVarint (wrap : Z -> Z) (shift acc : Z) (bs : list byte)
    : result (Z * list byte) :=
  if shift >=? 64 then Err ErrIntOverflowTx
  else
    match bs with
    | [] => Err ErrUnexpectedEOF
    | b :: bs' =>
        let acc := Z.lor acc (wrap (Z.shiftl (Z.land (Z_of_byte b) 127) shift)) in
        if Z_of_byte b <? 128 then Ok (acc, bs')
        else readVarint wrap (shift + 7) acc bs'
    end.

(** The same loop when the value is not kept (wire type 0 in [skipTx]). *)
Fixpoint skipVarint (shift : Z) (bs : list byte) : result (list byte) :=
  if shift >=? 64 then Err ErrIntOverflowTx
  else
    match bs with
    | [] => Err ErrUnexpectedEOF
    | b :: bs' =>
        if Z_of_byte b <? 128 then Ok bs' else skipVarint (shift + 7) bs'
    end.

(** The slice [dAtA[iNdEx:postIndex]] and what follows it, where [rest] is
    [dAtA[iNdEx:]] and [l] is [len(dAtA)]: after a length [n] that was
    found not negative, [postIndex := iNdEx + n] is checked against [l];
    when the sum overflows the check passes and the slice expression
    panics. *)
Definition slice_to (l : Z) (rest : list byte) (n : Z) : result (list byte * list byte) :=
  let iNdEx := l - Z.of_nat (length rest) in
  let postIndex := wrap64 (iNdEx + n) in
  if postIndex >? l then Err ErrUnexpectedEOF
  else if postIndex <? iNdEx then Crash
  else Ok (firstn (Z.to_nat (postIndex - iNdEx)) rest,
           skipn (Z.to_nat (postIndex - iNdEx)) rest).

(** A length-delimited field after its tag: the length is read into an
    accumulator of type [wrap], converted to [int], refused if negative. *)
Definition readDelimited (wrap : Z -> Z) (l : Z) (rest : list byte)
    : result (list byte * list byte) :=
  r ← readVarint wrap 0 0 rest;
  let n := wrap64 r.1 in
  if n <? 0 then Err ErrInvalidLengthTx
  else slice_to l r.2 n.

(** *** [skipTx] *)

(** The [for] loop of wire type 3 (a group), at index [iNdEx] of [dAtA];
    [skip] is [skipTx] on a shorter budget. *)
Fixpoint skipGroup (skip : list byte -> result Z) (rounds : nat)
    (dAtA : list byte) (iNdEx : Z) : result Z :=
  match rounds with
  | O => Starved
  | S rounds' =>
      if iNdEx <? 0 then Crash
      else
        let start := iNdEx in
        let from_start := skipn (Z.to_nat start) dAtA in
        r ← readVarint uint64 0 0 from_start;
        let iNdEx := Z.of_nat (length dAtA) - Z.of_nat (length r.2) in
        let innerWireType := Z.land r.1 7 in
        if innerWireType =? 4 then Ok iNdEx
        else
          next ← skip from_start;
          skipGroup skip rounds' dAtA (wrap64 (start + next))
  end.

Fixpoint skipTx_fuel (fuel : nat) (dAtA : list byte) : result Z :=
  match fuel with
  | O => Starved
  | S fuel' =>
      match dAtA with
      | [] => Crash
      | _ =>
          let l := Z.of_nat (length dAtA) in
          r ← readVarint uint64 0 0 dAtA;
          let iNdEx := l - Z.of_nat (length r.2) in
          let wireType := Z.land r.1 7 in
          if wireType =? 0 then
            rest ← skipVarint 0 r.2;
            Ok (l - Z.of_nat (length rest))
          else if wireType =? 1 then Ok (iNdEx + 8)
          else if wireType =? 2 then
            r ← readVarint wrap64 0 0 r.2;
            let iNdEx := l - Z.of_nat (length r.2) in
            let length := r.1 in
            let iNdEx := wrap64 (iNdEx + length) in
            if length <? 0 then Err ErrInvalidLengthTx else Ok iNdEx
          else if wireType =? 3 then
            skipGroup (skipTx_fuel fuel') (S (length dAtA)) dAtA iNdEx
          else if wireType =? 4 then Ok iNdEx
          else if wireType =? 5 then Ok (iNdEx + 4)
          else Err "proto: illegal wireType"
      end
  end.

Definition skipTx (dAtA : list byte) : result Z := skipTx_fuel (S (length dAtA)) dAtA.

(** The [default] case of the two [Unmarshal]: the unknown field that
    starts at [preIndex], and what follows it. *)
Definition skipUnknown (l : Z) (pre : list byte) : result (list byte * list byte) :=
  let iNdEx := l - Z.of_nat (length pre) in
  skippy ← skipTx pre;
  if skippy <? 0 then Err ErrInvalidLengthTx
  else if wrap64 (iNdEx + skippy) >? l then Err ErrUnexpectedEOF
  else if wrap64 (iNdEx + skippy) <? iNdEx then Crash
  else Ok (firstn (Z.to_nat skippy) pre, skipn (Z.to_nat skippy) pre).

(** [append(m.XXX_unrecognized, dAtA[iNdEx:iNdEx+skippy]...)]: appending
    nothing leaves a nil slice nil. *)
Definition append_unrecognized (u : option (list byte)) (bs : list byte) : option (list byte) :=
  match bs with
  | [] => u
  | _ => Some (default [] u ++ bs)
  end.

Definition unrecognized_bytes (u : option (list byte)) : list byte := default [] u.

(** *** [ActionRaw] *)

(** Strings are their bytes.  [XXX_unrecognized] is nil ([None]) or a
    slice. *)
Record ActionRaw : Type := mkActionRaw {
  Contract : list byte;
  ActionName : list byte;
  Data : list byte;
  ar_XXX_unrecognized : option (list byte)
}.

Definition ActionRaw_empty : ActionRaw := mkActionRaw [] [] [] None.

(** A field of wire type 2 as [MarshalTo] writes it: tag, length, bytes. *)
Definition put_delimited (tag : byte) (payload : list byte) : list byte :=
  tag :: encodeVarintTx (uint64 (Z.of_nat (length payload))) ++ payload.

(** [n += 1 + l + sovTx(uint64(l))]. *)
Definition size_delimited (l : Z) : Z := 1 + l + sovTx (uint64 l).

Definition ActionRaw_Size (m : ActionRaw) : Z :=
  (if Z.of_nat (length (Contract m)) >? 0
   then size_delimited (Z.of_nat (length (Contract m))) else 0) +
  (if Z.of_nat (length (ActionName m)) >? 0
   then size_delimited (Z.of_nat (length (ActionName m))) else 0) +
  (if Z.of_nat (length (Data m)) >? 0
   then size_delimited (Z.of_nat (length (Data m))) else 0) +
  match ar_XXX_unrecognized m with
  | Some u => Z.of_nat (length u)
  | None => 0
  end.

(** [MarshalTo(dAtA)]: the bytes written, in order, from index 0. *)
Definition ActionRaw_MarshalTo (m : ActionRaw) : list byte :=
  (if Z.of_nat (length (Contract m)) >? 0 then put_delimited x0a (Contract m) else []) ++
  (if Z.of_nat (length (ActionName m)) >? 0 then put_delimited x12 (ActionName m) else []) ++
  (if Z.of_nat (length (Data m)) >? 0 then put_delimited x1a (Data m) else []) ++
  match ar_XXX_unrecognized m with
  | Some u => u
  | None => []
  end.

(** [Marshal()]: [MarshalTo] on a buffer of [Size()] bytes, cut at the
    number of bytes written; writing past the buffer panics. *)
Definition marshal_in (size : Z) (written : list byte) : result (list byte) :=
  if Z.of_nat (length written) <=? size then Ok written else Crash.

Definition ActionRaw_Marshal (m : ActionRaw) : result (list byte) :=
  marshal_in (ActionRaw_Size m) (ActionRaw_MarshalTo m).

(** One round of the loop of [Unmarshal]: the message after the field at
    [rest], and the bytes after that field. *)
Definition ActionRaw_field (l : Z) (m : ActionRaw) (rest : list byte)
    : result (ActionRaw * list byte) :=
  r ← readVarint uint64 0 0 rest;
  let wire := r.1 in
  let fieldNum := wrap32 (Z.shiftr wire 3) in
  let wireType := Z.land wire 7 in
  if wireType =? 4 then Err "proto: ActionRaw: wiretype end group for non-group"
  else if fieldNum <=? 0 then Err "proto: ActionRaw: illegal tag"
  else if fieldNum =? 1 then
    if negb (wireType =? 2) then Err "proto: wrong wireType for field Contract"
    else
      s ← readDelimited uint64 l r.2;
      Ok (mkActionRaw s.1 (ActionName m) (Data m) (ar_XXX_unrecognized m), s.2)
  else if fieldNum =? 2 then
    if negb (wireType =? 2) then Err "proto: wrong wireType for field ActionName"
    else
      s ← readDelimited uint64 l r.2;
      Ok (mkActionRaw (Contract m) s.1 (Data m) (ar_XXX_unrecognized m), s.2)
  else if fieldNum =? 3 then
    if negb (wireType =? 2) then Err "proto: wrong wireType for field Data"
    else
      s ← readDelimited uint64 l r.2;
      Ok (mkActionRaw (Contract m) (ActionName m) s.1 (ar_XXX_unrecognized m), s.2)
  else
    s ← skipUnknown l rest;
    Ok (mkActionRaw (Contract m) (ActionName m) (Data m)
          (append_unrecognized (ar_XXX_unrecognized m) s.1), s.2).

(** The loop [for iNdEx < l]; every round consumes a byte at least, so a
    budget of [len(dAtA)] rounds is never exhausted. *)
Fixpoint ActionRaw_loop (fuel : nat) (l : Z) (m : ActionRaw) (rest : list byte)
    : result ActionRaw :=
  match rest with
  | [] => Ok m
  | _ =>
      match fuel with
      | O => Starved
      | S fuel' =>
          r ← ActionRaw_field l m rest;
          ActionRaw_loop fuel' l r.1 r.2
      end
  end.

(** [m.Unmarshal(dAtA)], [m] being the receiver before the call. *)
Definition ActionRaw_Unmarshal (m : ActionRaw) (dAtA : list byte) : result ActionRaw :=
  ActionRaw_loop (length dAtA) (Z.of_nat (length dAtA)) m dAtA.

(** *** Facts on bytes and varints *)

Lemma Z_of_byte_range b : 0 <= Z_of_byte b < 256.
Proof.
  unfold Z_of_byte. pose proof (Byte.to_N_bounded b). lia.
Qed.

Lemma Z_of_byte_of_Z z : Z_of_byte (byte_of_Z z) = z mod 256.
Proof.
  unfold Z_of_byte, byte_of_Z.
  pose proof (Z.mod_pos_bound z 256 ltac:(lia)) as Hz.
  destruct (Byte.of_N (Z.to_N (z mod 256))) as [b|] eqn:Hb.
  - apply Byte.to_of_N in Hb. rewrite Hb. lia.
  - apply Byte.of_N_None_iff in Hb. lia.
Qed.

Lemma Z_of_byte_small z : 0 <= z < 256 -> Z_of_byte (byte_of_Z z) = z.
Proof. intros Hz. rewrite Z_of_byte_of_Z. apply Z.mod_small. exact Hz. Qed.

Lemma land_127 v : Z.land v 127 = v mod 128.
Proof. change 127 with (Z.ones 7). rewrite Z.land_ones by lia. reflexivity. Qed.

Lemma shiftr_7 v : Z.shiftr v 7 = v / 128.
Proof. rewrite Z.shiftr_div_pow2 by lia. reflexivity. Qed.

Lemma lor_shiftl_add a b s :
  0 <= s -> 0 <= a < 2 ^ s -> Z.lor a (Z.shiftl b s) = a + b * 2 ^ s.
Proof.
  intros Hs Ha. rewrite <- Z.shiftl_mul_pow2 by exact Hs.
  symmetry. apply Z.add_nocarry_lor.
  apply Z.bits_inj'. intros i Hi.
  rewrite Z.land_spec, Z.bits_0.
  destruct (Z.lt_ge_cases i s) as [Hlt|Hge].
  - rewrite Z.shiftl_spec_low by exact Hlt. apply andb_false_r.
  - assert (Z.testbit a i = false) as ->; [| reflexivity].
    destruct (Z.eq_dec a 0) as [->|Hne]; [apply Z.bits_0 |].
    apply Z.bits_above_log2; [lia |].
    apply Z.log2_lt_pow2; [lia |].
    eapply Z.lt_le_trans; [apply Ha |]. apply Z.pow_le_mono_r; lia.
Qed.

Lemma lor_mul_add a b s :
  0 <= s -> 0 <= a < 2 ^ s -> Z.lor a (b * 2 ^ s) = a + b * 2 ^ s.
Proof.
  intros Hs Ha. rewrite <- lor_shiftl_add by assumption.
  rewrite Z.shiftl_mul_pow2 by exact Hs. reflexivity.
Qed.

(** The continuation byte of a value of 128 or more, and the last byte. *)
Lemma continuation_byte v :
  0 <= v ->
  Z_of_byte (byte_of_Z (Z.lor (Z.land v 127) 128)) = v mod 128 + 128.
Proof.
  intros Hv. rewrite land_127.
  pose proof (Z.mod_pos_bound v 128 ltac:(lia)) as Hm.
  change 128 with (Z.shiftl 1 7) at 2.
  rewrite lor_shiftl_add by (simpl; lia).
  rewrite Z_of_byte_small; simpl; lia.
Qed.

(** What the reading loop computes on the bytes of [encodeVarint_loop]. *)
Fixpoint varint_value (wrap : Z -> Z) (rounds : nat) (shift acc v : Z) : Z :=
  match rounds with
  | O => Z.lor acc (wrap (Z.shiftl v shift))
  | S rounds' =>
      if v >=? 128 then
        varint_value wrap rounds' (shift + 7)
          (Z.lor acc (wrap (Z.shiftl (v mod 128) shift))) (v / 128)
      else Z.lor acc (wrap (Z.shiftl v shift))
  end.

Lemma readVarint_encode wrap rounds :
  forall v shift acc rest,
    0 <= v < 2 ^ (7 * (Z.of_nat rounds + 1)) ->
    0 <= shift -> shift + 7 * Z.of_nat rounds <= 63 ->
    readVarint wrap shift acc (encodeVarint_loop rounds v ++ rest) =
      Ok (varint_value wrap rounds shift acc v, rest).
Proof.
  induction rounds as [|rounds IH]; intros v shift acc rest Hv Hshift Hlast.
  - simpl in *. destruct (Z.geb_spec shift 64); [lia |].
    rewrite Z_of_byte_small by lia.
    rewrite land_127, Z.mod_small by lia.
    destruct (Z.ltb_spec v 128); [reflexivity | lia].
  - simpl. destruct (Z.geb_spec v 128) as [Hbig|Hsmall]; simpl.
    + destruct (Z.geb_spec shift 64); [lia |].
      rewrite continuation_byte by lia.
      pose proof (Z.mod_pos_bound v 128 ltac:(lia)) as Hm.
      destruct (Z.ltb_spec (v mod 128 + 128) 128); [lia |].
      rewrite land_127, shiftr_7.
      replace ((v mod 128 + 128) mod 128) with (v mod 128).
      2:{ rewrite <- Z.add_mod_idemp_l, Z.mod_mod by lia.
          replace (v mod 128 + 128) with (v mod 128 + 1 * 128) by lia.
          rewrite Z.mod_add, Z.mod_mod by lia. reflexivity. }
      apply IH; try lia.
      split; [apply Z.div_pos; lia |].
      apply Z.div_lt_upper_bound; [lia |].
      replace (7 * (Z.of_nat (S rounds) + 1)) with (7 + 7 * (Z.of_nat rounds + 1)) in Hv by lia.
      rewrite Z.pow_add_r in Hv by lia. simpl in Hv. lia.
    + destruct (Z.geb_spec shift 64); [lia |].
      rewrite Z_of_byte_small by lia.
      rewrite land_127, Z.mod_small by lia.
      destruct (Z.ltb_spec v 128); [reflexivity | lia].
Qed.

(** The value read is [v] itself while nothing is cut off by [wrap]. *)
Lemma varint_value_small wrap rounds :
  (forall x, 0 <= x < 2 ^ 63 -> wrap x = x) ->
  forall v shift acc,
    0 <= v -> 0 <= shift -> 0 <= acc < 2 ^ shift ->
    v * 2 ^ shift < 2 ^ 63 ->
    varint_value wrap rounds shift acc v = acc + v * 2 ^ shift.
Proof.
  intros Hwrap. induction rounds as [|rounds IH]; intros v shift acc Hv Hshift Hacc Hfit.
  - simpl. rewrite Z.shiftl_mul_pow2, Hwrap by lia.
    apply lor_mul_add; lia.
  - simpl. destruct (Z.geb_spec v 128) as [Hbig|Hsmall].
    + pose proof (Z.mod_pos_bound v 128 ltac:(lia)) as Hm.
      pose proof (Z.div_mod v 128 ltac:(lia)) as Hdm.
      assert (Hpow : 2 ^ (shift + 7) = 2 ^ shift * 128).
      { rewrite Z.pow_add_r by lia. reflexivity. }
      assert (Hpos : 0 < 2 ^ shift) by (apply Z.pow_pos_nonneg; lia).
      rewrite (Z.shiftl_mul_pow2 (v mod 128)), Hwrap by nia.
      rewrite lor_mul_add by lia.
      rewrite IH.
      * rewrite Hpow. nia.
      * apply Z.div_pos; lia.
      * lia.
      * rewrite Hpow. nia.
      * rewrite Hpow. nia.
    + rewrite Z.shiftl_mul_pow2, Hwrap by lia.
      apply lor_mul_add; lia.
Qed.

(** The value read into an [int64] from the ten bytes of a negative one. *)
Lemma varint_value_negative rounds :
  forall v shift acc,
    shift + 7 * Z.of_nat rounds = 63 -> 0 <= shift ->
    0 <= acc < 2 ^ shift ->
    2 ^ 63 <= v * 2 ^ shift < 2 ^ 64 ->
    varint_value wrap64 rounds shift acc v = acc + v * 2 ^ shift - 2 ^ 64.
Proof.
  induction rounds as [|rounds IH]; intros v shift acc Hlast Hshift Hacc Hv.
  - simpl in *. assert (shift = 63) as -> by lia.
    assert (v = 1) as -> by lia.
    change (wrap64 (Z.shiftl 1 63)) with (Z.shiftl (-1) 63).
    rewrite lor_shiftl_add by lia. lia.
  - assert (Hpos : 0 < 2 ^ shift) by (apply Z.pow_pos_nonneg; lia).
    assert (Hsplit : 2 ^ 63 = 2 ^ shift * (128 * 2 ^ (7 * Z.of_nat rounds))).
    { replace 63 with (shift + (7 + 7 * Z.of_nat rounds)) by lia.
      rewrite !Z.pow_add_r by lia. reflexivity. }
    assert (Hq : 0 < 2 ^ (7 * Z.of_nat rounds)) by (apply Z.pow_pos_nonneg; lia).
    assert (Hbig : 128 * 2 ^ (7 * Z.of_nat rounds) <= v) by nia.
    simpl. destruct (Z.geb_spec v 128) as [_|Hsmall]; [| nia].
    pose proof (Z.mod_pos_bound v 128 ltac:(lia)) as Hm.
    pose proof (Z.div_mod v 128 ltac:(lia)) as Hdm.
    assert (Hpow : 2 ^ (shift + 7) = 2 ^ shift * 128).
    { rewrite Z.pow_add_r by lia. reflexivity. }
    assert (Hterm : 0 <= v mod 128 * 2 ^ shift < 2 ^ 63).
    { split; [nia |]. rewrite Hsplit. nia. }
    rewrite (Z.shiftl_mul_pow2 (v mod 128)) by lia.
    rewrite wrap64_id by (unfold int64_range; lia).
    rewrite lor_mul_add by lia.
    assert (Hdiv : 2 ^ (7 * Z.of_nat rounds) <= v / 128).
    { apply Z.div_le_lower_bound; lia. }
    rewrite IH.
    + rewrite Hpow. nia.
    + lia.
    + lia.
    + rewrite Hpow. nia.
    + rewrite Hpow. split; [| nia].
      rewrite Hsplit. nia.
Qed.

Lemma uint64_small z : 0 <= z < 2 ^ 64 -> uint64 z = z.
Proof. apply Z.mod_small. Qed.

(** A length, a tag or an [int64] that is not negative: at most nine
    bytes, and the value comes back in whichever integer type. *)
Lemma readVarint_small wrap v rest :
  (forall x, 0 <= x < 2 ^ 63 -> wrap x = x) ->
  0 <= v < 2 ^ 63 ->
  readVarint wrap 0 0 (encodeVarintTx (uint64 v) ++ rest) = Ok (v, rest).
Proof.
  intros Hwrap Hv. rewrite uint64_small by lia. unfold encodeVarintTx.
  rewrite readVarint_encode by (simpl; lia).
  rewrite varint_value_small; simpl; try lia; auto.
  repeat f_equal. lia.
Qed.

(** An [int64] comes back from the bytes of its [uint64] conversion. *)
Lemma readVarint_int64 t rest :
  int64_range t ->
  readVarint wrap64 0 0 (encodeVarintTx (uint64 t) ++ rest) = Ok (t, rest).
Proof.
  unfold int64_range. intros Ht.
  destruct (Z.lt_ge_cases t 0) as [Hneg|Hpos].
  - assert (uint64 t = t + 2 ^ 64) as ->.
    { unfold uint64. symmetry. apply Z.mod_unique with (q := -1); lia. }
    unfold encodeVarintTx.
    rewrite readVarint_encode by (simpl; lia).
    rewrite varint_value_negative by (simpl; lia).
    repeat f_equal. lia.
  - apply readVarint_small; [| lia].
    intros x Hx. apply wrap64_id. unfold int64_range. lia.
Qed.

Lemma sovTx_loop_length rounds :
  forall x, 0 <= x ->
    sovTx_loop rounds x = Z.of_nat (length (encodeVarint_loop rounds x)).
Proof.
  induction rounds as [|rounds IH]; intros x Hx; [reflexivity |].
  simpl. rewrite shiftr_7.
  destruct (Z.geb_spec x 128) as [Hbig|Hsmall].
  - destruct (Z.eqb_spec (x / 128) 0) as [Hz|Hnz].
    + apply Z.div_small_iff in Hz; lia.
    + simpl length. rewrite Nat2Z.inj_succ, <- shiftr_7, <- IH.
      * rewrite shiftr_7. lia.
      * rewrite shiftr_7. apply Z.div_pos; lia.
  - destruct (Z.eqb_spec (x / 128) 0) as [Hz|Hnz]; [reflexivity |].
    exfalso. apply Hnz, Z.div_small. lia.
Qed.

Lemma sovTx_length x :
  0 <= x -> sovTx x = Z.of_nat (length (encodeVarintTx x)).
Proof. apply sovTx_loop_length. Qed.

(** *** Reading does not look past what it needs *)

Lemma readVarint_app wrap bs :
  forall shift acc v tl more,
    readVarint wrap shift acc bs = Ok (v, tl) ->
    readVarint wrap shift acc (bs ++ more) = Ok (v, tl ++ more).
Proof.
  induction bs as [|b bs IH]; intros shift acc v tl more Hread; simpl in *.
  - destruct (shift >=? 64); discriminate.
  - destruct (shift >=? 64); [discriminate |].
    destruct (Z_of_byte b <? 128).
    + injection Hread as <- <-. reflexivity.
    + apply IH. exact Hread.
Qed.

Lemma readVarint_shorter wrap bs :
  forall shift acc v tl,
    readVarint wrap shift acc bs = Ok (v, tl) -> (length tl < length bs)%nat.
Proof.
  induction bs as [|b bs IH]; intros shift acc v tl Hread; simpl in *.
  - destruct (shift >=? 64); discriminate.
  - destruct (shift >=? 64); [discriminate |].
    destruct (Z_of_byte b <? 128).
    + injection Hread as _ <-. lia.
    + apply IH in Hread. lia.
Qed.

Lemma skipVarint_app bs :
  forall shift tl more,
    skipVarint shift bs = Ok tl -> skipVarint shift (bs ++ more) = Ok (tl ++ more).
Proof.
  induction bs as [|b bs IH]; intros shift tl more Hskip; simpl in *.
  - destruct (shift >=? 64); discriminate.
  - destruct (shift >=? 64); [discriminate |].
    destruct (Z_of_byte b <? 128).
    + injection Hskip as <-. reflexivity.
    + apply IH. exact Hskip.
Qed.

Lemma length_app_sub (d r tl : list byte) :
  Z.of_nat (length (d ++ r)) - Z.of_nat (length (tl ++ r)) =
  Z.of_nat (length d) - Z.of_nat (length tl).
Proof. rewrite !length_app. lia. Qed.

Lemma bind_Ok {A B : Type} (a : A) (f : A -> result B) : (Ok a ≫= f) = f a.
Proof. reflexivity. Qed.

Lemma skipGroup_app (skip skip' : list byte -> result Z) rounds :
  (forall x y n, skip x = Ok n -> skip' (x ++ y) = Ok n) ->
  forall rounds' d r i n,
    skipGroup skip rounds d i = Ok n -> (rounds <= rounds')%nat ->
    skipGroup skip' rounds' (d ++ r) i = Ok n.
Proof.
  intros Hskip. induction rounds as [|rounds IH]; intros rounds' d r i n Hrun Hle;
    simpl in Hrun; [discriminate |].
  destruct rounds' as [|rounds']; [lia |]. simpl.
  destruct (i <? 0); [discriminate |].
  destruct (readVarint uint64 0 0 (skipn (Z.to_nat i) d)) as [[w tl]| | |] eqn:Hread;
    try discriminate.
  assert (Hin : (Z.to_nat i < length d)%nat).
  { apply readVarint_shorter in Hread. rewrite length_skipn in Hread. lia. }
  rewrite skipn_app.
  replace (Z.to_nat i - length d)%nat with 0%nat by lia. rewrite drop_0.
  rewrite (readVarint_app _ _ _ _ _ _ r Hread). simpl in *.
  rewrite length_app_sub.
  destruct (Z.land w 7 =? 4); [exact Hrun |].
  destruct (skip (skipn (Z.to_nat i) d)) as [next| | |] eqn:Hnext; try discriminate.
  rewrite (Hskip _ r _ Hnext). simpl in *.
  apply IH; [exact Hrun | lia].
Qed.

Lemma skipTx_fuel_app fuel :
  forall fuel' d r n,
    skipTx_fuel fuel d = Ok n -> (fuel <= fuel')%nat ->
    skipTx_fuel fuel' (d ++ r) = Ok n.
Proof.
  induction fuel as [|fuel IH]; intros fuel' d r n Hrun Hle; simpl in Hrun;
    [discriminate |].
  destruct fuel' as [|fuel']; [lia |].
  destruct d as [|b d]; [discriminate |].
  remember (b :: d) as bd eqn:Hbd.
  assert (Hshape : skipTx_fuel (S fuel') (bd ++ r) =
    (let l := Z.of_nat (length (bd ++ r)) in
     r0 ← readVarint uint64 0 0 (bd ++ r);
     let iNdEx := l - Z.of_nat (length r0.2) in
     let wireType := Z.land r0.1 7 in
     if wireType =? 0 then
       rest ← skipVarint 0 r0.2;
       Ok (l - Z.of_nat (length rest))
     else if wireType =? 1 then Ok (iNdEx + 8)
     else if wireType =? 2 then
       r1 ← readVarint wrap64 0 0 r0.2;
       let iNdEx := l - Z.of_nat (length r1.2) in
       let length := r1.1 in
       let iNdEx := wrap64 (iNdEx + length) in
       if length <? 0 then Err ErrInvalidLengthTx else Ok iNdEx
     else if wireType =? 3 then
       skipGroup (skipTx_fuel fuel') (S (length (bd ++ r))) (bd ++ r) iNdEx
     else if wireType =? 4 then Ok iNdEx
     else if wireType =? 5 then Ok (iNdEx + 4)
     else Err "proto: illegal wireType")).
  { subst bd. reflexivity. }
  rewrite Hshape. clear Hshape.
  assert (Hrun' :
    (let l := Z.of_nat (length bd) in
     r0 ← readVarint uint64 0 0 bd;
     let iNdEx := l - Z.of_nat (length r0.2) in
     let wireType := Z.land r0.1 7 in
     if wireType =? 0 then
       rest ← skipVarint 0 r0.2;
       Ok (l - Z.of_nat (length rest))
     else if wireType =? 1 then Ok (iNdEx + 8)
     else if wireType =? 2 then
       r1 ← readVarint wrap64 0 0 r0.2;
       let iNdEx := l - Z.of_nat (length r1.2) in
       let length := r1.1 in
       let iNdEx := wrap64 (iNdEx + length) in
       if length <? 0 then Err ErrInvalidLengthTx else Ok iNdEx
     else if wireType =? 3 then
       skipGroup (skipTx_fuel fuel) (S (length bd)) bd iNdEx
     else if wireType =? 4 then Ok iNdEx
     else if wireType =? 5 then Ok (iNdEx + 4)
     else Err "proto: illegal wireType") = Ok n).
  { subst bd. exact Hrun. }
  clear Hrun Hbd. cbv zeta in *.
  destruct (readVarint uint64 0 0 bd) as [[w tl]| | |] eqn:Hread; try discriminate.
  rewrite (readVarint_app _ _ _ _ _ _ r Hread).
  rewrite bind_Ok in *. cbn [fst snd] in *.
  rewrite length_app_sub.
  destruct (Z.land w 7 =? 0).
  { destruct (skipVarint 0 tl) as [rest| | |] eqn:Hskip; try discriminate.
    rewrite (skipVarint_app _ _ _ r Hskip).
    rewrite bind_Ok in *.
    rewrite length_app_sub. exact Hrun'. }
  destruct (Z.land w 7 =? 1); [exact Hrun' |].
  destruct (Z.land w 7 =? 2).
  { destruct (readVarint wrap64 0 0 tl) as [[len tl']| | |] eqn:Hlen; try discriminate.
    rewrite (readVarint_app _ _ _ _ _ _ r Hlen).
    rewrite bind_Ok in *. cbn [fst snd] in *.
    rewrite length_app_sub. exact Hrun'. }
  destruct (Z.land w 7 =? 3).
  { eapply skipGroup_app; [| exact Hrun' | rewrite length_app; lia].
    intros x y m Hx. eapply IH; [exact Hx | lia]. }
  exact Hrun'.
Qed.

Lemma skipTx_app d r n : skipTx d = Ok n -> skipTx (d ++ r) = Ok n.
Proof.
  unfold skipTx. intros Hrun.
  eapply skipTx_fuel_app; [exact Hrun |]. rewrite length_app. lia.
Qed.

(** *** Reading back what [MarshalTo] wrote *)

(** A tag below 128 is one byte. *)
Lemma readVarint_tag b rest :
  Z_of_byte b < 128 -> readVarint uint64 0 0 (b :: rest) = Ok (Z_of_byte b, rest).
Proof.
  intros Hb. pose proof (Z_of_byte_range b) as Hr. simpl.
  rewrite land_127, Z.mod_small, Z.shiftl_0_r, uint64_small by lia.
  destruct (Z.ltb_spec (Z_of_byte b) 128); [reflexivity | lia].
Qed.

Lemma slice_to_app l payload rest :
  Z.of_nat (length (payload ++ rest)) <= l < 2 ^ 63 ->
  slice_to l (payload ++ rest) (Z.of_nat (length payload)) = Ok (payload, rest).
Proof.
  intros Hl. unfold slice_to. rewrite length_app in *.
  rewrite wrap64_id by (unfold int64_range; lia).
  destruct (Z.gtb_spec (l - Z.of_nat (length payload + length rest)
                        + Z.of_nat (length payload)) l); [lia |].
  destruct (Z.ltb_spec (l - Z.of_nat (length payload + length rest)
                        + Z.of_nat (length payload))
              (l - Z.of_nat (length payload + length rest))); [lia |].
  replace (Z.to_nat _) with (length payload) by lia.
  rewrite take_app_length, drop_app_length. reflexivity.
Qed.

Lemma readDelimited_put wrap l payload rest :
  (forall x, 0 <= x < 2 ^ 63 -> wrap x = x) ->
  Z.of_nat (length (payload ++ rest)) <= l < 2 ^ 63 ->
  readDelimited wrap l
    (encodeVarintTx (uint64 (Z.of_nat (length payload))) ++ payload ++ rest) =
  Ok (payload, rest).
Proof.
  intros Hwrap Hl. unfold readDelimited.
  assert (Hlen : 0 <= Z.of_nat (length payload) < 2 ^ 63).
  { rewrite length_app in Hl. lia. }
  rewrite readVarint_small by assumption.
  rewrite bind_Ok. cbn [fst snd].
  rewrite wrap64_id by (unfold int64_range; lia).
  destruct (Z.ltb_spec (Z.of_nat (length payload)) 0); [lia |].
  apply slice_to_app. exact Hl.
Qed.

Lemma uint64_id_small x : 0 <= x < 2 ^ 63 -> uint64 x = x.
Proof. intros Hx. apply uint64_small. lia. Qed.

Lemma wrap64_id_small x : 0 <= x < 2 ^ 63 -> wrap64 x = x.
Proof. intros Hx. apply wrap64_id. unfold int64_range. lia. Qed.

(** *** Unknown fields *)

(** [bs] is a sequence of fields, each as [skipTx] delimits it, whose
    numbers are positive and not among the [known] ones of the message,
    and none of which is a stray end of group. *)
Inductive unknown_fields (known : Z -> bool) : list byte -> Prop :=
| unknown_nil : unknown_fields known []
| unknown_cons chunk more wire tl :
    readVarint uint64 0 0 chunk = Ok (wire, tl) ->
    Z.land wire 7 <> 4 ->
    0 < wrap32 (Z.shiftr wire 3) ->
    known (wrap32 (Z.shiftr wire 3)) = false ->
    skipTx chunk = Ok (Z.of_nat (length chunk)) ->
    unknown_fields known more ->
    unknown_fields known (chunk ++ more).

(** [XXX_unrecognized] as [Unmarshal] can have left it: nil, or a
    sequence of unknown fields that is not empty. *)
Definition unrecognized_ok (known : Z -> bool) (u : option (list byte)) : Prop :=
  match u with
  | None => True
  | Some bs => bs <> [] /\ unknown_fields known bs
  end.

Lemma append_unrecognized_app u chunk more :
  append_unrecognized (append_unrecognized u chunk) more =
  append_unrecognized u (chunk ++ more).
Proof.
  destruct chunk as [|c chunk]; [reflexivity |].
  destruct more as [|b more].
  - rewrite app_nil_r. reflexivity.
  - simpl. rewrite <- !app_assoc. reflexivity.
Qed.

Lemma append_unrecognized_ok known u :
  unrecognized_ok known u -> append_unrecognized None (unrecognized_bytes u) = u.
Proof.
  destruct u as [[|b bs]|]; simpl; [intros [[] _]; reflexivity | reflexivity | reflexivity].
Qed.

Lemma skipUnknown_chunk l chunk more :
  skipTx chunk = Ok (Z.of_nat (length chunk)) ->
  Z.of_nat (length (chunk ++ more)) <= l < 2 ^ 63 ->
  skipUnknown l (chunk ++ more) = Ok (chunk, more).
Proof.
  intros Hskip Hl. unfold skipUnknown.
  rewrite (skipTx_app _ more _ Hskip), bind_Ok.
  rewrite length_app in *.
  destruct (Z.ltb_spec (Z.of_nat (length chunk)) 0); [lia |].
  rewrite wrap64_id by (unfold int64_range; lia).
  destruct (Z.gtb_spec (l - Z.of_nat (length chunk + length more)
                        + Z.of_nat (length chunk)) l); [lia |].
  destruct (Z.ltb_spec (l - Z.of_nat (length chunk + length more)
                        + Z.of_nat (length chunk))
              (l - Z.of_nat (length chunk + length more))); [lia |].
  rewrite Nat2Z.id, take_app_length, drop_app_length. reflexivity.
Qed.

(** *** [ActionRaw]: the round trip *)

Definition ActionRaw_known (fieldNum : Z) : bool :=
  (fieldNum =? 1) || (fieldNum =? 2) || (fieldNum =? 3).

Lemma ActionRaw_field_Contract l m payload rest :
  Z.of_nat (length (payload ++ rest)) <= l < 2 ^ 63 ->
  ActionRaw_field l m (put_delimited x0a payload ++ rest) =
  Ok (mkActionRaw payload (ActionName m) (Data m) (ar_XXX_unrecognized m), rest).
Proof.
  intros Hl. unfold ActionRaw_field, put_delimited.
  rewrite <- app_comm_cons, <- app_assoc, readVarint_tag by (vm_compute; reflexivity).
  rewrite bind_Ok. cbn [fst snd].
  change (Z.land (Z_of_byte x0a) 7) with 2.
  change (wrap32 (Z.shiftr (Z_of_byte x0a) 3)) with 1.
  cbn [Z.eqb Z.leb Z.compare Pos.compare Pos.compare_cont Pos.eqb negb].
  rewrite readDelimited_put by (auto using uint64_id_small). reflexivity.
Qed.

Lemma ActionRaw_field_ActionName l m payload rest :
  Z.of_nat (length (payload ++ rest)) <= l < 2 ^ 63 ->
  ActionRaw_field l m (put_delimited x12 payload ++ rest) =
  Ok (mkActionRaw (Contract m) payload (Data m) (ar_XXX_unrecognized m), rest).
Proof.
  intros Hl. unfold ActionRaw_field, put_delimited.
  rewrite <- app_comm_cons, <- app_assoc, readVarint_tag by (vm_compute; reflexivity).
  rewrite bind_Ok. cbn [fst snd].
  change (Z.land (Z_of_byte x12) 7) with 2.
  change (wrap32 (Z.shiftr (Z_of_byte x12) 3)) with 2.
  cbn [Z.eqb Z.leb Z.compare Pos.compare Pos.compare_cont Pos.eqb negb].
  rewrite readDelimited_put by (auto using uint64_id_small). reflexivity.
Qed.

Lemma ActionRaw_field_Data l m payload rest :
  Z.of_nat (length (payload ++ rest)) <= l < 2 ^ 63 ->
  ActionRaw_field l m (put_delimited x1a payload ++ rest) =
  Ok (mkActionRaw (Contract m) (ActionName m) payload (ar_XXX_unrecognized m), rest).
Proof.
  intros Hl. unfold ActionRaw_field, put_delimited.
  rewrite <- app_comm_cons, <- app_assoc, readVarint_tag by (vm_compute; reflexivity).
  rewrite bind_Ok. cbn [fst snd].
  change (Z.land (Z_of_byte x1a) 7) with 2.
  change (wrap32 (Z.shiftr (Z_of_byte x1a) 3)) with 3.
  cbn [Z.eqb Z.leb Z.compare Pos.compare Pos.compare_cont Pos.eqb negb].
  rewrite readDelimited_put by (auto using uint64_id_small). reflexivity.
Qed.

Lemma ActionRaw_field_unknown l m chunk more wire tl :
  readVarint uint64 0 0 chunk = Ok (wire, tl) ->
  Z.land wire 7 <> 4 ->
  0 < wrap32 (Z.shiftr wire 3) ->
  ActionRaw_known (wrap32 (Z.shiftr wire 3)) = false ->
  skipTx chunk = Ok (Z.of_nat (length chunk)) ->
  Z.of_nat (length (chunk ++ more)) <= l < 2 ^ 63 ->
  ActionRaw_field l m (chunk ++ more) =
  Ok (mkActionRaw (Contract m) (ActionName m) (Data m)
        (append_unrecognized (ar_XXX_unrecognized m) chunk), more).
Proof.
  intros Hread Hgroup Hpos Hknown Hskip Hl. unfold ActionRaw_field.
  rewrite (readVarint_app _ _ _ _ _ _ more Hread), bind_Ok. cbn [fst snd].
  unfold ActionRaw_known in Hknown.
  apply orb_false_elim in Hknown as [Hknown H3].
  apply orb_false_elim in Hknown as [H1 H2].
  rewrite H1, H2, H3.
  destruct (Z.eqb_spec (Z.land wire 7) 4); [contradiction |].
  destruct (Z.leb_spec (wrap32 (Z.shiftr wire 3)) 0); [lia |].
  rewrite skipUnknown_chunk by assumption. reflexivity.
Qed.

Lemma ActionRaw_loop_S fuel l m rest :
  rest <> [] ->
  ActionRaw_loop (S fuel) l m rest =
  (r ← ActionRaw_field l m rest; ActionRaw_loop fuel l r.1 r.2).
Proof. destruct rest; [contradiction | reflexivity]. Qed.

Lemma ActionRaw_loop_unknown u :
  unknown_fields ActionRaw_known u ->
  forall fuel l m,
    (length u <= fuel)%nat -> Z.of_nat (length u) <= l < 2 ^ 63 ->
    ActionRaw_loop fuel l m u =
    Ok (mkActionRaw (Contract m) (ActionName m) (Data m)
          (append_unrecognized (ar_XXX_unrecognized m) u)).
Proof.
  induction 1 as [|chunk more wire tl Hread Hgroup Hpos Hknown Hskip Hmore IH];
    intros fuel l m Hfuel Hl.
  - destruct m. destruct fuel; reflexivity.
  - assert (Hchunk : (0 < length chunk)%nat).
    { apply readVarint_shorter in Hread. lia. }
    rewrite length_app in Hfuel.
    destruct fuel as [|fuel]; [lia |].
    rewrite ActionRaw_loop_S.
    2:{ intros Hnil. apply (f_equal length) in Hnil.
        rewrite length_app in Hnil. simpl in Hnil. lia. }
    rewrite (ActionRaw_field_unknown l m chunk more wire tl) by assumption.
    rewrite bind_Ok. cbn [fst snd].
    rewrite IH; [| lia | rewrite length_app in Hl; lia].
    cbn [Contract ActionName Data ar_XXX_unrecognized].
    rewrite append_unrecognized_app. reflexivity.
Qed.

Lemma length_encodeVarintTx_sov x :
  Z.of_nat (length (encodeVarintTx (uint64 x))) = sovTx (uint64 x).
Proof.
  symmetry. apply sovTx_length. unfold uint64.
  apply Z.mod_pos_bound. lia.
Qed.

Lemma length_put_delimited tag payload :
  Z.of_nat (length (put_delimited tag payload)) =
  size_delimited (Z.of_nat (length payload)).
Proof.
  unfold put_delimited, size_delimited. simpl length.
  rewrite length_app, Nat2Z.inj_succ, Nat2Z.inj_add, length_encodeVarintTx_sov. lia.
Qed.

(** An optional field of wire type 2, written when it is not empty. *)
Definition opt_delimited (tag : byte) (payload : list byte) : list byte :=
  if Z.of_nat (length payload) >? 0 then put_delimited tag payload else [].

Lemma opt_delimited_nil tag : opt_delimited tag [] = [].
Proof. reflexivity. Qed.

Lemma opt_delimited_cons tag b payload :
  opt_delimited tag (b :: payload) = put_delimited tag (b :: payload).
Proof.
  unfold opt_delimited.
  destruct (Z.gtb_spec (Z.of_nat (length (b :: payload))) 0); [reflexivity |].
  simpl length in *. lia.
Qed.

Lemma length_opt_delimited tag payload :
  Z.of_nat (length (opt_delimited tag payload)) =
  if Z.of_nat (length payload) >? 0
  then size_delimited (Z.of_nat (length payload)) else 0.
Proof.
  unfold opt_delimited. destruct (_ >? _); [apply length_put_delimited | reflexivity].
Qed.

Lemma ActionRaw_MarshalTo_eq m :
  ActionRaw_MarshalTo m =
  opt_delimited x0a (Contract m) ++ opt_delimited x12 (ActionName m) ++
  opt_delimited x1a (Data m) ++ unrecognized_bytes (ar_XXX_unrecognized m).
Proof. destruct m as [c a d [u|]]; reflexivity. Qed.

(** [Size] is the number of bytes that [MarshalTo] writes. *)
Lemma ActionRaw_Size_length m :
  ActionRaw_Size m = Z.of_nat (length (ActionRaw_MarshalTo m)).
Proof.
  rewrite ActionRaw_MarshalTo_eq. unfold ActionRaw_Size.
  rewrite !length_app, !Nat2Z.inj_add, !length_opt_delimited.
  destruct (ar_XXX_unrecognized m); simpl; lia.
Qed.

Lemma put_delimited_not_nil tag payload rest : put_delimited tag payload ++ rest <> [].
Proof. discriminate. Qed.

Lemma length_put_delimited_pos tag payload :
  (length payload < length (put_delimited tag payload))%nat.
Proof. unfold put_delimited. simpl. rewrite length_app. lia. Qed.

(** Decoding the bytes of [m] into the empty message gives [m] back. *)
Lemma ActionRaw_loop_MarshalTo m fuel l :
  unrecognized_ok ActionRaw_known (ar_XXX_unrecognized m) ->
  (length (ActionRaw_MarshalTo m) <= fuel)%nat ->
  Z.of_nat (length (ActionRaw_MarshalTo m)) <= l < 2 ^ 63 ->
  ActionRaw_loop fuel l ActionRaw_empty (ActionRaw_MarshalTo m) = Ok m.
Proof.
  intros Hu. rewrite ActionRaw_MarshalTo_eq.
  destruct m as [c a d u]. cbn [Contract ActionName Data ar_XXX_unrecognized] in *.
  assert (Htail : forall fuel c' a' d',
            (length (unrecognized_bytes u) <= fuel)%nat ->
            Z.of_nat (length (unrecognized_bytes u)) <= l < 2 ^ 63 ->
            ActionRaw_loop fuel l (mkActionRaw c' a' d' None) (unrecognized_bytes u) =
            Ok (mkActionRaw c' a' d' u)).
  { intros fuel' c' a' d' Hf Hl'.
    rewrite ActionRaw_loop_unknown; [| | exact Hf | exact Hl'].
    - cbn [Contract ActionName Data ar_XXX_unrecognized].
      rewrite (append_unrecognized_ok _ _ Hu). reflexivity.
    - destruct u as [bs|]; [apply Hu | constructor]. }
  assert (Hd : forall fuel c' a',
            (length (opt_delimited x1a d ++ unrecognized_bytes u) <= fuel)%nat ->
            Z.of_nat (length (opt_delimited x1a d ++ unrecognized_bytes u)) <= l < 2 ^ 63 ->
            ActionRaw_loop fuel l (mkActionRaw c' a' [] None)
              (opt_delimited x1a d ++ unrecognized_bytes u) =
            Ok (mkActionRaw c' a' d u)).
  { intros fuel' c' a' Hf Hl'. destruct d as [|d0 d].
    - rewrite opt_delimited_nil in *. apply Htail; assumption.
    - rewrite opt_delimited_cons in *.
      pose proof (length_put_delimited_pos x1a (d0 :: d)) as Hpos.
      rewrite length_app in Hf, Hl'.
      destruct fuel' as [|fuel']; [lia |].
      rewrite ActionRaw_loop_S by apply put_delimited_not_nil.
      rewrite ActionRaw_field_Data by (rewrite length_app; lia).
      rewrite bind_Ok. apply Htail; lia. }
  assert (Ha : forall fuel c',
            (length (opt_delimited x12 a ++ opt_delimited x1a d ++
                     unrecognized_bytes u) <= fuel)%nat ->
            Z.of_nat (length (opt_delimited x12 a ++ opt_delimited x1a d ++
                              unrecognized_bytes u)) <= l < 2 ^ 63 ->
            ActionRaw_loop fuel l (mkActionRaw c' [] [] None)
              (opt_delimited x12 a ++ opt_delimited x1a d ++ unrecognized_bytes u) =
            Ok (mkActionRaw c' a d u)).
  { intros fuel' c' Hf Hl'. destruct a as [|a0 a].
    - rewrite opt_delimited_nil in *. apply Hd; assumption.
    - rewrite opt_delimited_cons in *.
      pose proof (length_put_delimited_pos x12 (a0 :: a)) as Hpos.
      rewrite length_app in Hf, Hl'.
      destruct fuel' as [|fuel']; [lia |].
      rewrite ActionRaw_loop_S by apply put_delimited_not_nil.
      rewrite ActionRaw_field_ActionName by (rewrite length_app; lia).
      rewrite bind_Ok. apply Hd; lia. }
  intros Hf Hl. destruct c as [|c0 c].
  - rewrite opt_delimited_nil in *. apply Ha; assumption.
  - rewrite opt_delimited_cons in *.
    pose proof (length_put_delimited_pos x0a (c0 :: c)) as Hpos.
    rewrite length_app in Hf, Hl.
    destruct fuel as [|fuel]; [lia |].
    rewrite ActionRaw_loop_S by apply put_delimited_not_nil.
    rewrite ActionRaw_field_Contract by (rewrite length_app; lia).
    rewrite bind_Ok. apply Ha; lia.
Qed.

(** For an action whose unrecognized bytes are nil or unknown fields, and
    that fits an [int]: [Marshal] returns the bytes of [MarshalTo] and
    [Unmarshal] on them, into the empty action, returns the action. *)
Lemma ActionRaw_roundtrip m :
  unrecognized_ok ActionRaw_known (ar_XXX_unrecognized m) ->
  ActionRaw_Size m < 2 ^ 63 ->
  ActionRaw_Marshal m = Ok (ActionRaw_MarshalTo m) /\
  ActionRaw_Unmarshal ActionRaw_empty (ActionRaw_MarshalTo m) = Ok m.
Proof.
  intros Hu Hsize. split.
  - unfold ActionRaw_Marshal, marshal_in. rewrite ActionRaw_Size_length.
    destruct (Z.leb_spec (Z.of_nat (length (ActionRaw_MarshalTo m)))
                (Z.of_nat (length (ActionRaw_MarshalTo m)))); [reflexivity | lia].
  - unfold ActionRaw_Unmarshal. rewrite ActionRaw_Size_length in Hsize.
    apply ActionRaw_loop_MarshalTo; [exact Hu | lia | lia].
Qed.

(** *** [TxRaw] *)

Section WithSignatureRaw.

(** [crypto.SignatureRaw] and its generated methods belong to package
    crypto: the empty message [&crypto.SignatureRaw{}], [Size],
    [MarshalTo] (the bytes written) and [Unmarshal] (on a receiver). *)
Variable SignatureRaw : Type.
Variable Sig_empty : SignatureRaw.
Variable Sig_Size : SignatureRaw -> Z.
Variable Sig_MarshalTo : SignatureRaw -> list byte.
Variable Sig_Unmarshal : SignatureRaw -> list byte -> result SignatureRaw.

(** The elements of [Actions] and [Signs] are pointers in the source;
    a nil element makes [Size] panic and is left out of the model.  A nil
    [Publisher] is [None]. *)
Record TxRaw : Type := mkTxRaw {
  Time : Z;
  Expiration : Z;
  GasLimit : Z;
  GasPrice : Z;
  Actions : list ActionRaw;
  Signers : list (list byte);
  Signs : list SignatureRaw;
  Publisher : option SignatureRaw;
  XXX_unrecognized : option (list byte)
}.

Definition TxRaw_empty : TxRaw := mkTxRaw 0 0 0 0 [] [] [] None None.

(** A field of wire type 0 and an embedded message as [MarshalTo] writes
    them. *)
Definition put_varint (tag : byte) (v : Z) : list byte :=
  tag :: encodeVarintTx (uint64 v).

Definition opt_varint (tag : byte) (v : Z) : list byte :=
  if v =? 0 then [] else put_varint tag v.

Definition put_message (tag : byte) (size : Z) (body : list byte) : list byte :=
  tag :: encodeVarintTx (uint64 size) ++ body.

Definition size_varint (v : Z) : Z :=
  if v =? 0 then 0 else 1 + sovTx (uint64 v).

Definition sum_sizes (sizes : list Z) : Z := fold_right Z.add 0 sizes.

Definition TxRaw_Size (m : TxRaw) : Z :=
  size_varint (Time m) + size_varint (Expiration m) +
  size_varint (GasLimit m) + size_varint (GasPrice m) +
  sum_sizes (map (fun e => size_delimited (ActionRaw_Size e)) (Actions m)) +
  sum_sizes (map (fun b => size_delimited (Z.of_nat (length b))) (Signers m)) +
  sum_sizes (map (fun e => size_delimited (Sig_Size e)) (Signs m)) +
  match Publisher m with
  | Some p => size_delimited (Sig_Size p)
  | None => 0
  end +
  match XXX_unrecognized m with
  | Some u => Z.of_nat (length u)
  | None => 0
  end.

Definition TxRaw_MarshalTo (m : TxRaw) : list byte :=
  opt_varint x08 (Time m) ++
  opt_varint x10 (Expiration m) ++
  opt_varint x18 (GasLimit m) ++
  opt_varint x20 (GasPrice m) ++
  flat_map (fun msg => put_message x2a (ActionRaw_Size msg) (ActionRaw_MarshalTo msg))
    (Actions m) ++
  flat_map (fun b => put_delimited x32 b) (Signers m) ++
  flat_map (fun msg => put_message x3a (Sig_Size msg) (Sig_MarshalTo msg)) (Signs m) ++
  match Publisher m with
  | Some p => put_message x42 (Sig_Size p) (Sig_MarshalTo p)
  | None => []
  end ++
  match XXX_unrecognized m with
  | Some u => u
  | None => []
  end.

Definition TxRaw_Marshal (m : TxRaw) : result (list byte) :=
  marshal_in (TxRaw_Size m) (TxRaw_MarshalTo m).

(** One round of the loop of [Unmarshal]. *)
Definition TxRaw_field (l : Z) (m : TxRaw) (rest : list byte)
    : result (TxRaw * list byte) :=
  r ← readVarint uint64 0 0 rest;
  let wire := r.1 in
  let fieldNum := wrap32 (Z.shiftr wire 3) in
  let wireType := Z.land wire 7 in
  if wireType =? 4 then Err "proto: TxRaw: wiretype end group for non-group"
  else if fieldNum <=? 0 then Err "proto: TxRaw: illegal tag"
  else if fieldNum =? 1 then
    if negb (wireType =? 0) then Err "proto: wrong wireType for field Time"
    else
      v ← readVarint wrap64 0 0 r.2;
      Ok (mkTxRaw v.1 (Expiration m) (GasLimit m) (GasPrice m) (Actions m)
            (Signers m) (Signs m) (Publisher m) (XXX_unrecognized m), v.2)
  else if fieldNum =? 2 then
    if negb (wireType =? 0) then Err "proto: wrong wireType for field Expiration"
    else
      v ← readVarint wrap64 0 0 r.2;
      Ok (mkTxRaw (Time m) v.1 (GasLimit m) (GasPrice m) (Actions m)
            (Signers m) (Signs m) (Publisher m) (XXX_unrecognized m), v.2)
  else if fieldNum =? 3 then
    if negb (wireType =? 0) then Err "proto: wrong wireType for field GasLimit"
    else
      v ← readVarint wrap64 0 0 r.2;
      Ok (mkTxRaw (Time m) (Expiration m) v.1 (GasPrice m) (Actions m)
            (Signers m) (Signs m) (Publisher m) (XXX_unrecognized m), v.2)
  else if fieldNum =? 4 then
    if negb (wireType =? 0) then Err "proto: wrong wireType for field GasPrice"
    else
      v ← readVarint wrap64 0 0 r.2;
      Ok (mkTxRaw (Time m) (Expiration m) (GasLimit m) v.1 (Actions m)
            (Signers m) (Signs m) (Publisher m) (XXX_unrecognized m), v.2)
  else if fieldNum =? 5 then
    if negb (wireType =? 2) then Err "proto: wrong wireType for field Actions"
    else
      s ← readDelimited wrap64 l r.2;
      a ← ActionRaw_Unmarshal ActionRaw_empty s.1;
      Ok (mkTxRaw (Time m) (Expiration m) (GasLimit m) (GasPrice m)
            (Actions m ++ [a]) (Signers m) (Signs m) (Publisher m)
            (XXX_unrecognized m), s.2)
  else if fieldNum =? 6 then
    if negb (wireType =? 2) then Err "proto: wrong wireType for field Signers"
    else
      s ← readDelimited wrap64 l r.2;
      Ok (mkTxRaw (Time m) (Expiration m) (GasLimit m) (GasPrice m)
            (Actions m) (Signers m ++ [s.1]) (Signs m) (Publisher m)
            (XXX_unrecognized m), s.2)
  else if fieldNum =? 7 then
    if negb (wireType =? 2) then Err "proto: wrong wireType for field Signs"
    else
      s ← readDelimited wrap64 l r.2;
      x ← Sig_Unmarshal Sig_empty s.1;
      Ok (mkTxRaw (Time m) (Expiration m) (GasLimit m) (GasPrice m)
            (Actions m) (Signers m) (Signs m ++ [x]) (Publisher m)
            (XXX_unrecognized m), s.2)
  else if fieldNum =? 8 then
    if negb (wireType =? 2) then Err "proto: wrong wireType for field Publisher"
    else
      s ← readDelimited wrap64 l r.2;
      x ← Sig_Unmarshal (default Sig_empty (Publisher m)) s.1;
      Ok (mkTxRaw (Time m) (Expiration m) (GasLimit m) (GasPrice m)
            (Actions m) (Signers m) (Signs m) (Some x)
            (XXX_unrecognized m), s.2)
  else
    s ← skipUnknown l rest;
    Ok (mkTxRaw (Time m) (Expiration m) (GasLimit m) (GasPrice m)
          (Actions m) (Signers m) (Signs m) (Publisher m)
          (append_unrecognized (XXX_unrecognized m) s.1), s.2).

(** The loop [for iNdEx < l], on a budget of [len(dAtA)] rounds.  The test
    [iNdEx > l] that follows the loop in the source never holds. *)
Fixpoint TxRaw_loop (fuel : nat) (l : Z) (m : TxRaw) (rest : list byte)
    : result TxRaw :=
  match rest with
  | [] => Ok m
  | _ =>
      match fuel with
      | O => Starved
      | S fuel' =>
          r ← TxRaw_field l m rest;
          TxRaw_loop fuel' l r.1 r.2
      end
  end.

Definition TxRaw_Unmarshal (m : TxRaw) (dAtA : list byte) : result TxRaw :=
  TxRaw_loop (length dAtA) (Z.of_nat (length dAtA)) m dAtA.

Definition TxRaw_known (fieldNum : Z) : bool :=
  (1 <=? fieldNum) && (fieldNum <=? 8).

(** *** [TxRaw]: the round trip *)

(** What is asked of the codec of [SignatureRaw], for the signatures that
    satisfy [Sig_wf]: [Size] is the number of bytes [MarshalTo] writes, and
    [Unmarshal] on them, into the empty message, gives the signature. *)
Variable Sig_wf : SignatureRaw -> Prop.
Hypothesis Sig_Size_length :
  forall s, Sig_wf s -> Sig_Size s = Z.of_nat (length (Sig_MarshalTo s)).
Hypothesis Sig_roundtrip :
  forall s, Sig_wf s -> Sig_Unmarshal Sig_empty (Sig_MarshalTo s) = Ok s.

(** The transactions for which the round trip holds: the four integers
    are [int64]; the encoding fits an [int]; every signature satisfies
    [Sig_wf]; the unrecognized bytes of the transaction and of each action
    are nil or a sequence of unknown fields. *)
Record TxRaw_wf (m : TxRaw) : Prop := {
  wf_Time : int64_range (Time m);
  wf_Expiration : int64_range (Expiration m);
  wf_GasLimit : int64_range (GasLimit m);
  wf_GasPrice : int64_range (GasPrice m);
  wf_Size : TxRaw_Size m < 2 ^ 63;
  wf_Actions :
    Forall (fun a => unrecognized_ok ActionRaw_known (ar_XXX_unrecognized a)) (Actions m);
  wf_Signs : Forall Sig_wf (Signs m);
  wf_Publisher : forall p, Publisher m = Some p -> Sig_wf p;
  wf_unrecognized : unrecognized_ok TxRaw_known (XXX_unrecognized m)
}.

(** From [bs] on, the loop ends with [final], on any sufficient budget. *)
Definition decodes (l : Z) (m : TxRaw) (bs : list byte) (final : TxRaw) : Prop :=
  forall fuel, (length bs <= fuel)%nat -> TxRaw_loop fuel l m bs = Ok final.

Lemma decodes_nil l m : decodes l m [] m.
Proof. intros fuel _. destruct fuel; reflexivity. Qed.

Lemma TxRaw_loop_S fuel l m rest :
  rest <> [] ->
  TxRaw_loop (S fuel) l m rest =
  (r ← TxRaw_field l m rest; TxRaw_loop fuel l r.1 r.2).
Proof. destruct rest; [contradiction | reflexivity]. Qed.

Lemma decodes_step l m bytes rest m' final :
  bytes <> [] ->
  TxRaw_field l m (bytes ++ rest) = Ok (m', rest) ->
  decodes l m' rest final ->
  decodes l m (bytes ++ rest) final.
Proof.
  intros Hbytes Hfield Hrest fuel Hfuel.
  destruct bytes as [|b bytes]; [contradiction |].
  rewrite length_app in Hfuel. simpl in Hfuel.
  destruct fuel as [|fuel]; [lia |].
  rewrite TxRaw_loop_S by discriminate.
  rewrite Hfield, bind_Ok. apply Hrest. simpl. lia.
Qed.

(** The field of wire type 0 with tag [tag], that is, number
    [Z_of_byte tag / 8]. *)
Lemma TxRaw_field_Time l m v rest :
  int64_range v ->
  TxRaw_field l m (put_varint x08 v ++ rest) =
  Ok (mkTxRaw v (Expiration m) (GasLimit m) (GasPrice m) (Actions m)
        (Signers m) (Signs m) (Publisher m) (XXX_unrecognized m), rest).
Proof.
  intros Hv. unfold TxRaw_field, put_varint.
  rewrite <- app_comm_cons, readVarint_tag by (vm_compute; reflexivity).
  rewrite bind_Ok. cbn [fst snd].
  change (Z.land (Z_of_byte x08) 7) with 0.
  change (wrap32 (Z.shiftr (Z_of_byte x08) 3)) with 1.
  cbn [Z.eqb Z.leb Z.compare Pos.compare Pos.compare_cont Pos.eqb negb].
  rewrite readVarint_int64 by exact Hv. reflexivity.
Qed.

Lemma TxRaw_field_Expiration l m v rest :
  int64_range v ->
  TxRaw_field l m (put_varint x10 v ++ rest) =
  Ok (mkTxRaw (Time m) v (GasLimit m) (GasPrice m) (Actions m)
        (Signers m) (Signs m) (Publisher m) (XXX_unrecognized m), rest).
Proof.
  intros Hv. unfold TxRaw_field, put_varint.
  rewrite <- app_comm_cons, readVarint_tag by (vm_compute; reflexivity).
  rewrite bind_Ok. cbn [fst snd].
  change (Z.land (Z_of_byte x10) 7) with 0.
  change (wrap32 (Z.shiftr (Z_of_byte x10) 3)) with 2.
  cbn [Z.eqb Z.leb Z.compare Pos.compare Pos.compare_cont Pos.eqb negb].
  rewrite readVarint_int64 by exact Hv. reflexivity.
Qed.

Lemma TxRaw_field_GasLimit l m v rest :
  int64_range v ->
  TxRaw_field l m (put_varint x18 v ++ rest) =
  Ok (mkTxRaw (Time m) (Expiration m) v (GasPrice m) (Actions m)
        (Signers m) (Signs m) (Publisher m) (XXX_unrecognized m), rest).
Proof.
  intros Hv. unfold TxRaw_field, put_varint.
  rewrite <- app_comm_cons, readVarint_tag by (vm_compute; reflexivity).
  rewrite bind_Ok. cbn [fst snd].
  change (Z.land (Z_of_byte x18) 7) with 0.
  change (wrap32 (Z.shiftr (Z_of_byte x18) 3)) with 3.
  cbn [Z.eqb Z.leb Z.compare Pos.compare Pos.compare_cont Pos.eqb negb].
  rewrite readVarint_int64 by exact Hv. reflexivity.
Qed.

Lemma TxRaw_field_GasPrice l m v rest :
  int64_range v ->
  TxRaw_field l m (put_varint x20 v ++ rest) =
  Ok (mkTxRaw (Time m) (Expiration m) (GasLimit m) v (Actions m)
        (Signers m) (Signs m) (Publisher m) (XXX_unrecognized m), rest).
Proof.
  intros Hv. unfold TxRaw_field, put_varint.
  rewrite <- app_comm_cons, readVarint_tag by (vm_compute; reflexivity).
  rewrite bind_Ok. cbn [fst snd].
  change (Z.land (Z_of_byte x20) 7) with 0.
  change (wrap32 (Z.shiftr (Z_of_byte x20) 3)) with 4.
  cbn [Z.eqb Z.leb Z.compare Pos.compare Pos.compare_cont Pos.eqb negb].
  rewrite readVarint_int64 by exact Hv. reflexivity.
Qed.

Lemma TxRaw_field_Actions l m a rest :
  unrecognized_ok ActionRaw_known (ar_XXX_unrecognized a) ->
  Z.of_nat (length (ActionRaw_MarshalTo a ++ rest)) <= l < 2 ^ 63 ->
  TxRaw_field l m
    (put_message x2a (ActionRaw_Size a) (ActionRaw_MarshalTo a) ++ rest) =
  Ok (mkTxRaw (Time m) (Expiration m) (GasLimit m) (GasPrice m)
        (Actions m ++ [a]) (Signers m) (Signs m) (Publisher m)
        (XXX_unrecognized m), rest).
Proof.
  intros Hu Hl. unfold TxRaw_field, put_message.
  rewrite <- app_comm_cons, <- app_assoc, readVarint_tag by (vm_compute; reflexivity).
  rewrite bind_Ok. cbn [fst snd].
  change (Z.land (Z_of_byte x2a) 7) with 2.
  change (wrap32 (Z.shiftr (Z_of_byte x2a) 3)) with 5.
  cbn [Z.eqb Z.leb Z.compare Pos.compare Pos.compare_cont Pos.eqb negb].
  rewrite ActionRaw_Size_length.
  rewrite readDelimited_put by (auto using wrap64_id_small).
  rewrite bind_Ok. cbn [fst snd].
  destruct (ActionRaw_roundtrip a Hu) as [_ ->]; [| reflexivity].
  rewrite ActionRaw_Size_length. rewrite length_app in Hl. lia.
Qed.

Lemma TxRaw_field_Signers l m b rest :
  Z.of_nat (length (b ++ rest)) <= l < 2 ^ 63 ->
  TxRaw_field l m (put_delimited x32 b ++ rest) =
  Ok (mkTxRaw (Time m) (Expiration m) (GasLimit m) (GasPrice m)
        (Actions m) (Signers m ++ [b]) (Signs m) (Publisher m)
        (XXX_unrecognized m), rest).
Proof.
  intros Hl. unfold TxRaw_field, put_delimited.
  rewrite <- app_comm_cons, <- app_assoc, readVarint_tag by (vm_compute; reflexivity).
  rewrite bind_Ok. cbn [fst snd].
  change (Z.land (Z_of_byte x32) 7) with 2.
  change (wrap32 (Z.shiftr (Z_of_byte x32) 3)) with 6.
  cbn [Z.eqb Z.leb Z.compare Pos.compare Pos.compare_cont Pos.eqb negb].
  rewrite readDelimited_put by (auto using wrap64_id_small). reflexivity.
Qed.

Lemma TxRaw_field_Signs l m x rest :
  Sig_wf x ->
  Z.of_nat (length (Sig_MarshalTo x ++ rest)) <= l < 2 ^ 63 ->
  TxRaw_field l m (put_message x3a (Sig_Size x) (Sig_MarshalTo x) ++ rest) =
  Ok (mkTxRaw (Time m) (Expiration m) (GasLimit m) (GasPrice m)
        (Actions m) (Signers m) (Signs m ++ [x]) (Publisher m)
        (XXX_unrecognized m), rest).
Proof.
  intros Hx Hl. unfold TxRaw_field, put_message.
  rewrite <- app_comm_cons, <- app_assoc, readVarint_tag by (vm_compute; reflexivity).
  rewrite bind_Ok. cbn [fst snd].
  change (Z.land (Z_of_byte x3a) 7) with 2.
  change (wrap32 (Z.shiftr (Z_of_byte x3a) 3)) with 7.
  cbn [Z.eqb Z.leb Z.compare Pos.compare Pos.compare_cont Pos.eqb negb].
  rewrite (Sig_Size_length x Hx).
  rewrite readDelimited_put by (auto using wrap64_id_small).
  rewrite bind_Ok. cbn [fst snd].
  rewrite (Sig_roundtrip x Hx). reflexivity.
Qed.

Lemma TxRaw_field_Publisher l m x rest :
  Sig_wf x -> Publisher m = None ->
  Z.of_nat (length (Sig_MarshalTo x ++ rest)) <= l < 2 ^ 63 ->
  TxRaw_field l m (put_message x42 (Sig_Size x) (Sig_MarshalTo x) ++ rest) =
  Ok (mkTxRaw (Time m) (Expiration m) (GasLimit m) (GasPrice m)
        (Actions m) (Signers m) (Signs m) (Some x)
        (XXX_unrecognized m), rest).
Proof.
  intros Hx Hnone Hl. unfold TxRaw_field, put_message.
  rewrite <- app_comm_cons, <- app_assoc, readVarint_tag by (vm_compute; reflexivity).
  rewrite bind_Ok. cbn [fst snd].
  change (Z.land (Z_of_byte x42) 7) with 2.
  change (wrap32 (Z.shiftr (Z_of_byte x42) 3)) with 8.
  cbn [Z.eqb Z.leb Z.compare Pos.compare Pos.compare_cont Pos.eqb negb].
  rewrite (Sig_Size_length x Hx).
  rewrite readDelimited_put by (auto using wrap64_id_small).
  rewrite bind_Ok. cbn [fst snd].
  rewrite Hnone. simpl default. rewrite (Sig_roundtrip x Hx). reflexivity.
Qed.

Lemma TxRaw_field_unknown l m chunk more wire tl :
  readVarint uint64 0 0 chunk = Ok (wire, tl) ->
  Z.land wire 7 <> 4 ->
  0 < wrap32 (Z.shiftr wire 3) ->
  TxRaw_known (wrap32 (Z.shiftr wire 3)) = false ->
  skipTx chunk = Ok (Z.of_nat (length chunk)) ->
  Z.of_nat (length (chunk ++ more)) <= l < 2 ^ 63 ->
  TxRaw_field l m (chunk ++ more) =
  Ok (mkTxRaw (Time m) (Expiration m) (GasLimit m) (GasPrice m)
        (Actions m) (Signers m) (Signs m) (Publisher m)
        (append_unrecognized (XXX_unrecognized m) chunk), more).
Proof.
  intros Hread Hgroup Hpos Hknown Hskip Hl. unfold TxRaw_field.
  rewrite (readVarint_app _ _ _ _ _ _ more Hread), bind_Ok. cbn [fst snd].
  unfold TxRaw_known in Hknown.
  set (f := wrap32 (Z.shiftr wire 3)) in *.
  assert (Hf : 8 < f).
  { destruct (Z.leb_spec 1 f); destruct (Z.leb_spec f 8); simpl in Hknown;
      try discriminate; lia. }
  destruct (Z.eqb_spec (Z.land wire 7) 4); [contradiction |].
  destruct (Z.leb_spec f 0); [lia |].
  repeat (match goal with
          | |- context [f =? ?k] => destruct (Z.eqb_spec f k); [lia |]
          end).
  rewrite skipUnknown_chunk by assumption. reflexivity.
Qed.

Lemma decodes_unknown l u :
  unknown_fields TxRaw_known u ->
  forall m,
    Z.of_nat (length u) <= l < 2 ^ 63 ->
    decodes l m u
      (mkTxRaw (Time m) (Expiration m) (GasLimit m) (GasPrice m)
         (Actions m) (Signers m) (Signs m) (Publisher m)
         (append_unrecognized (XXX_unrecognized m) u)).
Proof.
  induction 1 as [|chunk more wire tl Hread Hgroup Hpos Hknown Hskip Hmore IH];
    intros m Hl.
  - destruct m. apply decodes_nil.
  - assert (Hchunk : chunk <> []).
    { intros ->. simpl in Hread. discriminate. }
    eapply decodes_step; [exact Hchunk | |].
    + eapply TxRaw_field_unknown; eassumption.
    + rewrite <- append_unrecognized_app.
      rewrite length_app in Hl.
      specialize (IH (mkTxRaw (Time m) (Expiration m) (GasLimit m) (GasPrice m)
                        (Actions m) (Signers m) (Signs m) (Publisher m)
                        (append_unrecognized (XXX_unrecognized m) chunk))).
      apply IH. lia.
Qed.

Lemma decodes_opt_varint l tag v m m' rest final :
  (v <> 0 -> TxRaw_field l m (put_varint tag v ++ rest) = Ok (m', rest)) ->
  (v = 0 -> m' = m) ->
  decodes l m' rest final ->
  decodes l m (opt_varint tag v ++ rest) final.
Proof.
  unfold opt_varint. intros Hfield Hsame Hrest.
  destruct (Z.eqb_spec v 0) as [Hz|Hnz].
  - rewrite <- (Hsame Hz). exact Hrest.
  - eapply decodes_step; [discriminate | exact (Hfield Hnz) | exact Hrest].
Qed.

Lemma length_put_message_app tag size body rest :
  Z.of_nat (length (body ++ rest)) <=
  Z.of_nat (length (put_message tag size body ++ rest)).
Proof.
  unfold put_message. simpl length. rewrite !length_app. lia.
Qed.

Lemma length_put_delimited_app tag payload rest :
  Z.of_nat (length (payload ++ rest)) <=
  Z.of_nat (length (put_delimited tag payload ++ rest)).
Proof. apply length_put_message_app. Qed.

Lemma length_app_r (xs ys : list byte) :
  Z.of_nat (length ys) <= Z.of_nat (length (xs ++ ys)).
Proof. rewrite length_app. lia. Qed.

Lemma decodes_Actions l t e g p ss sg pb u rest final :
  l < 2 ^ 63 ->
  forall actions pre,
    Forall (fun a => unrecognized_ok ActionRaw_known (ar_XXX_unrecognized a)) actions ->
    Z.of_nat (length
      (flat_map (fun msg => put_message x2a (ActionRaw_Size msg) (ActionRaw_MarshalTo msg))
         actions ++ rest)) <= l ->
    decodes l (mkTxRaw t e g p (pre ++ actions) ss sg pb u) rest final ->
    decodes l (mkTxRaw t e g p pre ss sg pb u)
      (flat_map (fun msg => put_message x2a (ActionRaw_Size msg) (ActionRaw_MarshalTo msg))
         actions ++ rest) final.
Proof.
  intros Hl. induction actions as [|a actions IH]; intros pre Hwf Hlen Hrest.
  - rewrite app_nil_r in Hrest. exact Hrest.
  - apply Forall_cons in Hwf as [Ha Hwf].
    cbn [flat_map] in Hlen |- *. rewrite <- app_assoc in Hlen |- *.
    pose proof (length_put_message_app x2a (ActionRaw_Size a) (ActionRaw_MarshalTo a)
                  (flat_map (fun msg => put_message x2a (ActionRaw_Size msg)
                                          (ActionRaw_MarshalTo msg)) actions ++ rest))
      as Hge.
    pose proof (length_app_r (ActionRaw_MarshalTo a)
                  (flat_map (fun msg => put_message x2a (ActionRaw_Size msg)
                                          (ActionRaw_MarshalTo msg)) actions ++ rest))
      as Hge'.
    eapply decodes_step; [discriminate | |].
    + apply TxRaw_field_Actions; [exact Ha | lia].
    + cbn [Time Expiration GasLimit GasPrice Actions Signers Signs Publisher
             XXX_unrecognized].
      apply IH; [exact Hwf | lia | rewrite <- app_assoc; exact Hrest].
Qed.

Lemma decodes_Signers l t e g p acts sg pb u rest final :
  l < 2 ^ 63 ->
  forall signers pre,
    Z.of_nat (length (flat_map (fun b => put_delimited x32 b) signers ++ rest)) <= l ->
    decodes l (mkTxRaw t e g p acts (pre ++ signers) sg pb u) rest final ->
    decodes l (mkTxRaw t e g p acts pre sg pb u)
      (flat_map (fun b => put_delimited x32 b) signers ++ rest) final.
Proof.
  intros Hl. induction signers as [|b signers IH]; intros pre Hlen Hrest.
  - rewrite app_nil_r in Hrest. exact Hrest.
  - cbn [flat_map] in Hlen |- *. rewrite <- app_assoc in Hlen |- *.
    pose proof (length_put_delimited_app x32 b
                  (flat_map (fun b => put_delimited x32 b) signers ++ rest)) as Hge.
    pose proof (length_app_r b
                  (flat_map (fun b => put_delimited x32 b) signers ++ rest)) as Hge'.
    eapply decodes_step; [discriminate | |].
    + apply TxRaw_field_Signers. lia.
    + cbn [Time Expiration GasLimit GasPrice Actions Signers Signs Publisher
             XXX_unrecognized].
      apply IH; [lia | rewrite <- app_assoc; exact Hrest].
Qed.

Lemma decodes_Signs l t e g p acts ss pb u rest final :
  l < 2 ^ 63 ->
  forall signs pre,
    Forall Sig_wf signs ->
    Z.of_nat (length
      (flat_map (fun msg => put_message x3a (Sig_Size msg) (Sig_MarshalTo msg))
         signs ++ rest)) <= l ->
    decodes l (mkTxRaw t e g p acts ss (pre ++ signs) pb u) rest final ->
    decodes l (mkTxRaw t e g p acts ss pre pb u)
      (flat_map (fun msg => put_message x3a (Sig_Size msg) (Sig_MarshalTo msg))
         signs ++ rest) final.
Proof.
  intros Hl. induction signs as [|x signs IH]; intros pre Hwf Hlen Hrest.
  - rewrite app_nil_r in Hrest. exact Hrest.
  - apply Forall_cons in Hwf as [Hx Hwf].
    cbn [flat_map] in Hlen |- *. rewrite <- app_assoc in Hlen |- *.
    pose proof (length_put_message_app x3a (Sig_Size x) (Sig_MarshalTo x)
                  (flat_map (fun msg => put_message x3a (Sig_Size msg)
                                          (Sig_MarshalTo msg)) signs ++ rest))
      as Hge.
    pose proof (length_app_r (Sig_MarshalTo x)
                  (flat_map (fun msg => put_message x3a (Sig_Size msg)
                                          (Sig_MarshalTo msg)) signs ++ rest))
      as Hge'.
    eapply decodes_step; [discriminate | |].
    + apply TxRaw_field_Signs; [exact Hx | lia].
    + cbn [Time Expiration GasLimit GasPrice Actions Signers Signs Publisher
             XXX_unrecognized].
      apply IH; [exact Hwf | lia | rewrite <- app_assoc; exact Hrest].
Qed.

(** [Size] is the number of bytes that [MarshalTo] writes. *)
Lemma length_flat_map_sizes {A : Type} (f : A -> list byte) (g : A -> Z) (xs : list A) :
  Forall (fun x => Z.of_nat (length (f x)) = g x) xs ->
  Z.of_nat (length (flat_map f xs)) = sum_sizes (map g xs).
Proof.
  induction 1 as [|x xs Hx Hxs IH]; [reflexivity |].
  simpl. rewrite length_app, Nat2Z.inj_add, IH, Hx. reflexivity.
Qed.

Lemma length_put_message tag body :
  Z.of_nat (length (put_message tag (Z.of_nat (length body)) body)) =
  size_delimited (Z.of_nat (length body)).
Proof. apply (length_put_delimited tag body). Qed.

Lemma length_opt_varint tag v :
  Z.of_nat (length (opt_varint tag v)) = size_varint v.
Proof.
  unfold opt_varint, size_varint, put_varint. destruct (v =? 0); [reflexivity |].
  simpl length. rewrite Nat2Z.inj_succ, length_encodeVarintTx_sov. lia.
Qed.

Lemma TxRaw_Size_length m :
  Forall Sig_wf (Signs m) ->
  (forall p, Publisher m = Some p -> Sig_wf p) ->
  TxRaw_Size m = Z.of_nat (length (TxRaw_MarshalTo m)).
Proof.
  intros Hsigns Hpub. unfold TxRaw_Size, TxRaw_MarshalTo.
  rewrite !length_app, !Nat2Z.inj_add, !length_opt_varint.
  rewrite (length_flat_map_sizes _ (fun e => size_delimited (ActionRaw_Size e))).
  2:{ apply Forall_forall. intros a _. cbv beta. rewrite ActionRaw_Size_length.
      apply length_put_message. }
  rewrite (length_flat_map_sizes _ (fun b => size_delimited (Z.of_nat (length b)))).
  2:{ apply Forall_forall. intros b _. cbv beta. apply length_put_delimited. }
  rewrite (length_flat_map_sizes _ (fun e => size_delimited (Sig_Size e))).
  2:{ eapply Forall_impl; [exact Hsigns |]. intros x Hx. cbv beta.
      rewrite (Sig_Size_length x Hx). apply length_put_message. }
  assert (Hp : Z.of_nat (length match Publisher m with
                                | Some p => put_message x42 (Sig_Size p) (Sig_MarshalTo p)
                                | None => []
                                end) =
               match Publisher m with
               | Some p => size_delimited (Sig_Size p)
               | None => 0
               end).
  { destruct (Publisher m) as [x|]; [| reflexivity].
    rewrite (Sig_Size_length x (Hpub x eq_refl)). apply length_put_message. }
  rewrite Hp. destruct (XXX_unrecognized m); cbn [length]; lia.
Qed.

(** C8 (as amended).  For a transaction record whose four integers are
    [int64], whose encoding fits an [int], whose signatures are ones that
    the codec of [SignatureRaw] round-trips, and whose unrecognized bytes,
    like those of each of its actions, are nil or a sequence of unknown
    fields: [Marshal] returns the bytes that [MarshalTo] writes, and
    [Unmarshal] applied to them, on the empty record, returns the record,
    unrecognized bytes included. *)
Theorem TxRaw_roundtrip (m : TxRaw) (Hwf : TxRaw_wf m) :
  TxRaw_Marshal m = Ok (TxRaw_MarshalTo m) /\
  TxRaw_Unmarshal TxRaw_empty (TxRaw_MarshalTo m) = Ok m.
Proof.
  destruct Hwf as [Ht He Hg Hp Hsize Hacts Hsigns Hpub Hu].
  pose proof (TxRaw_Size_length m Hsigns Hpub) as Hlen.
  split.
  { unfold TxRaw_Marshal, marshal_in. rewrite Hlen.
    destruct (Z.leb_spec (Z.of_nat (length (TxRaw_MarshalTo m)))
                (Z.of_nat (length (TxRaw_MarshalTo m)))); [reflexivity | lia]. }
  unfold TxRaw_Unmarshal.
  assert (Hl : Z.of_nat (length (TxRaw_MarshalTo m)) < 2 ^ 63) by lia.
  clear Hlen Hsize.
  cut (decodes (Z.of_nat (length (TxRaw_MarshalTo m))) TxRaw_empty (TxRaw_MarshalTo m) m).
  { intros Hdec. apply Hdec. lia. }
  remember (Z.of_nat (length (TxRaw_MarshalTo m))) as l eqn:Hl_eq.
  destruct m as [t e g p acts ss sg pb u].
  unfold TxRaw_MarshalTo in *.
  cbn [Time Expiration GasLimit GasPrice Actions Signers Signs Publisher
         XXX_unrecognized] in *.
  change (match u with Some u0 => u0 | None => [] end) with (unrecognized_bytes u) in *.
  set (b1 := opt_varint x08 t) in *.
  set (b2 := opt_varint x10 e) in *.
  set (b3 := opt_varint x18 g) in *.
  set (b4 := opt_varint x20 p) in *.
  set (b5 := flat_map (fun msg => put_message x2a (ActionRaw_Size msg)
                                    (ActionRaw_MarshalTo msg)) acts) in *.
  set (b6 := flat_map (fun b => put_delimited x32 b) ss) in *.
  set (b7 := flat_map (fun msg => put_message x3a (Sig_Size msg) (Sig_MarshalTo msg)) sg) in *.
  set (b8 := match pb with
             | Some p0 => put_message x42 (Sig_Size p0) (Sig_MarshalTo p0)
             | None => []
             end) in *.
  rewrite !length_app, !Nat2Z.inj_add in Hl_eq.
  unfold TxRaw_empty.
  apply (decodes_opt_varint l x08 t _ (mkTxRaw t 0 0 0 [] [] [] None None)).
  { intros _. apply TxRaw_field_Time. exact Ht. }
  { intros ->. reflexivity. }
  apply (decodes_opt_varint l x10 e _ (mkTxRaw t e 0 0 [] [] [] None None)).
  { intros _. apply TxRaw_field_Expiration. exact He. }
  { intros ->. reflexivity. }
  apply (decodes_opt_varint l x18 g _ (mkTxRaw t e g 0 [] [] [] None None)).
  { intros _. apply TxRaw_field_GasLimit. exact Hg. }
  { intros ->. reflexivity. }
  apply (decodes_opt_varint l x20 p _ (mkTxRaw t e g p [] [] [] None None)).
  { intros _. apply TxRaw_field_GasPrice. exact Hp. }
  { intros ->. reflexivity. }
  apply (decodes_Actions l t e g p [] [] None None _ _ Hl acts []).
  { exact Hacts. }
  { fold b5. rewrite !length_app, !Nat2Z.inj_add. lia. }
  apply (decodes_Signers l t e g p ([] ++ acts) [] None None _ _ Hl ss []).
  { fold b6. rewrite !length_app, !Nat2Z.inj_add. lia. }
  apply (decodes_Signs l t e g p ([] ++ acts) ([] ++ ss) None None _ _ Hl sg []).
  { exact Hsigns. }
  { fold b7. rewrite !length_app, !Nat2Z.inj_add. lia. }
  simpl app.
  assert (Htail : forall pb',
            decodes l (mkTxRaw t e g p acts ss sg pb' None) (unrecognized_bytes u)
              (mkTxRaw t e g p acts ss sg pb' u)).
  { intros pb'.
    pose proof (decodes_unknown l (unrecognized_bytes u)) as Hdec.
    specialize (Hdec ltac:(destruct u as [bs|]; [apply Hu | constructor])
                     (mkTxRaw t e g p acts ss sg pb' None) ltac:(lia)).
    cbn [Time Expiration GasLimit GasPrice Actions Signers Signs Publisher
           XXX_unrecognized] in Hdec.
    rewrite (append_unrecognized_ok _ _ Hu) in Hdec. exact Hdec. }
  subst b8. destruct pb as [x|].
  - eapply decodes_step; [discriminate | | apply Htail].
    apply TxRaw_field_Publisher; [apply Hpub; reflexivity | reflexivity |].
    unfold put_message in Hl_eq. simpl length in Hl_eq.
    rewrite !length_app, !Nat2Z.inj_add in *. lia.
  - apply Htail.
Qed.

End WithSignatureRaw.

(** *** A concrete signature codec and concrete records

    A toy codec for [SignatureRaw]: the message is its bytes, [Unmarshal]
    appends what it is given to the receiver. *)

Definition toy_Sig_Size (x : list byte) : Z := Z.of_nat (length x).

Definition toy_Sig_MarshalTo (x : list byte) : list byte := x.

Definition toy_Sig_Unmarshal (receiver dAtA : list byte) : result (list byte) :=
  Ok (receiver ++ dAtA).

Definition toy_Sig_wf (x : list byte) : Prop := True.

Abbreviation toy_TxRaw := (TxRaw (list byte)).
Abbreviation toy_Marshal := (TxRaw_Marshal (list byte) toy_Sig_Size toy_Sig_MarshalTo).
Abbreviation toy_MarshalTo := (TxRaw_MarshalTo (list byte) toy_Sig_Size toy_Sig_MarshalTo).
Abbreviation toy_Unmarshal := (TxRaw_Unmarshal (list byte) [] toy_Sig_Unmarshal).

(** A record whose [XXX_unrecognized] holds the bytes of field 1 with
    value 5. *)
Definition tx_hidden_time : toy_TxRaw :=
  mkTxRaw _ 0 0 0 0 [] [] [] None (Some [x08; x05]).

(** C8, the claim as stated fails: bytes in [XXX_unrecognized] that spell
    a known field come back in that field. *)
Lemma TxRaw_roundtrip_not_for_every_record :
  ~ (forall (m : toy_TxRaw) (bs : list byte),
       toy_Marshal m = Ok bs -> toy_Unmarshal (TxRaw_empty _) bs = Ok m).
Proof.
  intros H. specialize (H tx_hidden_time [x08; x05] eq_refl).
  vm_compute in H. discriminate.
Qed.

Example tx_hidden_time_decoded :
  toy_Marshal tx_hidden_time = Ok [x08; x05] /\
  toy_Unmarshal (TxRaw_empty _) [x08; x05] =
    Ok (mkTxRaw _ 5 0 0 0 [] [] [] None None).
Proof. split; vm_compute; reflexivity. Qed.

(** A record with a negative time, an action, a signer, signatures and an
    unknown field (number 9, a varint). *)
Definition tx_sample : toy_TxRaw :=
  mkTxRaw _ (-1) 1100000000000 1000 1
    [mkActionRaw [x69; x6f; x73; x74] [x54] [x5b; x5d] None]
    [[x01; x02]]
    [[x03]]
    (Some [x04; x05])
    (Some [x48; x01]).

Lemma tx_sample_wf : TxRaw_wf (list byte) toy_Sig_Size toy_Sig_wf tx_sample.
Proof.
  split.
  - unfold int64_range. simpl. lia.
  - unfold int64_range. simpl. lia.
  - unfold int64_range. simpl. lia.
  - unfold int64_range. simpl. lia.
  - vm_compute. reflexivity.
  - repeat constructor.
  - repeat constructor.
  - intros p _. exact I.
  - split; [discriminate |].
    change [x48; x01] with ([x48; x01] ++ []).
    eapply unknown_cons.
    + vm_compute. reflexivity.
    + vm_compute. discriminate.
    + vm_compute. reflexivity.
    + vm_compute. reflexivity.
    + vm_compute. reflexivity.
    + constructor.
Qed.

Lemma TxRaw_roundtrip_witness :
  toy_Marshal tx_sample = Ok (toy_MarshalTo tx_sample) /\
  toy_Unmarshal (TxRaw_empty _) (toy_MarshalTo tx_sample) = Ok tx_sample.
Proof.
  apply (TxRaw_roundtrip (list byte) [] toy_Sig_Size toy_Sig_MarshalTo
           toy_Sig_Unmarshal toy_Sig_wf).
  - intros x _. reflexivity.
  - intros x _. reflexivity.
  - exact tx_sample_wf.
Defined.

(** The bytes of the sample: the time takes ten bytes. *)
Example tx_sample_bytes :
  firstn 11 (toy_MarshalTo tx_sample) =
  [x08; xff; xff; xff; xff; xff; xff; xff; xff; xff; x01].
Proof. vm_compute. reflexivity. Qed.


(** *** More of the generated code: varints *)

Lemma varint_value_below wrap bound rounds :
  (forall x, 0 <= x < bound -> wrap x = x) ->
  forall v shift acc,
    0 <= v -> 0 <= shift -> 0 <= acc < 2 ^ shift ->
    v * 2 ^ shift < bound ->
    varint_value wrap rounds shift acc v = acc + v * 2 ^ shift.
Proof.
  intros Hwrap. induction rounds as [|rounds IH]; intros v shift acc Hv Hshift Hacc Hfit.
  - simpl. rewrite Z.shiftl_mul_pow2, Hwrap by lia.
    apply lor_mul_add; lia.
  - simpl. destruct (Z.geb_spec v 128) as [Hbig|Hsmall].
    + pose proof (Z.mod_pos_bound v 128 ltac:(lia)) as Hm.
      pose proof (Z.div_mod v 128 ltac:(lia)) as Hdm.
      assert (Hpow : 2 ^ (shift + 7) = 2 ^ shift * 128).
      { rewrite Z.pow_add_r by lia. reflexivity. }
      assert (Hpos : 0 < 2 ^ shift) by (apply Z.pow_pos_nonneg; lia).
      rewrite (Z.shiftl_mul_pow2 (v mod 128)), Hwrap by nia.
      rewrite lor_mul_add by lia.
      rewrite IH.
      * rewrite Hpow. nia.
      * apply Z.div_pos; lia.
      * lia.
      * rewrite Hpow. nia.
      * rewrite Hpow. nia.
    + rewrite Z.shiftl_mul_pow2, Hwrap by lia.
      apply lor_mul_add; lia.
Qed.

Lemma wrap32_unique x y q :
  - 2 ^ 31 <= y < 2 ^ 31 -> x = y + q * 2 ^ 32 -> wrap32 x = y.
Proof.
  intros Hy ->. unfold wrap32.
  replace (y + q * 2 ^ 32 + 2 ^ 31) with (y + 2 ^ 31 + q * 2 ^ 32) by lia.
  rewrite Z.mod_add, Z.mod_small by lia. lia.
Qed.

Lemma wrap32_cases x :
  - 2 ^ 31 <= wrap32 x < 2 ^ 31 /\ exists q, x = wrap32 x + q * 2 ^ 32.
Proof.
  unfold wrap32.
  pose proof (Z.mod_pos_bound (x + 2 ^ 31) (2 ^ 32) ltac:(lia)) as Hm.
  pose proof (Z.div_mod (x + 2 ^ 31) (2 ^ 32) ltac:(lia)) as Hdm.
  split; [lia |]. exists ((x + 2 ^ 31) / 2 ^ 32). lia.
Qed.

(** A shift of an [int32] by 32 bits or more gives 0. *)
Lemma varint_value_wrap32_high rounds :
  forall v shift acc,
    32 <= shift -> 0 <= v -> varint_value wrap32 rounds shift acc v = acc.
Proof.
  assert (Hzero : forall x shift, 32 <= shift -> wrap32 (Z.shiftl x shift) = 0).
  { intros x shift Hs. rewrite Z.shiftl_mul_pow2 by lia.
    apply (wrap32_unique _ 0 (x * 2 ^ (shift - 32))); [lia |].
    replace shift with (shift - 32 + 32) at 1 by lia.
    rewrite Z.pow_add_r by lia. lia. }
  induction rounds as [|rounds IH]; intros v shift acc Hs Hv; simpl.
  - rewrite Hzero by exact Hs. apply Z.lor_0_r.
  - destruct (v >=? 128).
    + rewrite Hzero, Z.lor_0_r by exact Hs. apply IH; [lia |].
      apply Z.div_pos; lia.
    + rewrite Hzero by exact Hs. apply Z.lor_0_r.
Qed.

(** One more chunk of seven bits into an [int32] accumulator. *)
Lemma lor_wrap32_chunk acc c shift :
  0 <= shift <= 28 -> 0 <= acc < 2 ^ shift -> 0 <= c ->
  Z.lor acc (wrap32 (Z.shiftl c shift)) = wrap32 (acc + c * 2 ^ shift).
Proof.
  intros Hs Hacc Hc. rewrite Z.shiftl_mul_pow2 by lia.
  destruct (wrap32_cases (c * 2 ^ shift)) as (Hrange & q & Hq).
  assert (Hpos : 0 < 2 ^ shift) by (apply Z.pow_pos_nonneg; lia).
  assert (Hsplit : 2 ^ 32 = 2 ^ (32 - shift) * 2 ^ shift).
  { rewrite <- Z.pow_add_r by lia. f_equal. lia. }
  assert (Hhalf : 2 ^ 31 = 2 ^ (31 - shift) * 2 ^ shift).
  { rewrite <- Z.pow_add_r by lia. f_equal. lia. }
  assert (Hmul : wrap32 (c * 2 ^ shift) = (c - q * 2 ^ (32 - shift)) * 2 ^ shift).
  { rewrite Hsplit in Hq. lia. }
  set (b := c - q * 2 ^ (32 - shift)) in *.
  rewrite Hmul, lor_mul_add by lia.
  symmetry. apply (wrap32_unique _ _ q).
  - rewrite Hmul, Hhalf in Hrange. split; [nia |].
    assert (b < 2 ^ (31 - shift)) by nia.
    rewrite Hhalf. nia.
  - rewrite <- Hmul. lia.
Qed.

Lemma varint_value_wrap32 rounds :
  forall (k : nat) v acc,
    (k <= 4)%nat -> 0 <= v -> 0 <= acc < 2 ^ (7 * Z.of_nat k) ->
    varint_value wrap32 rounds (7 * Z.of_nat k) acc v =
      wrap32 (acc + v * 2 ^ (7 * Z.of_nat k)).
Proof.
  induction rounds as [|rounds IH]; intros k v acc Hk Hv Hacc; simpl.
  - apply lor_wrap32_chunk; lia.
  - destruct (Z.geb_spec v 128) as [Hbig|Hsmall]; [| apply lor_wrap32_chunk; lia].
    pose proof (Z.mod_pos_bound v 128 ltac:(lia)) as Hm.
    pose proof (Z.div_mod v 128 ltac:(lia)) as Hdm.
    assert (Hdiv : 0 <= v / 128) by (apply Z.div_pos; lia).
    set (s := 7 * Z.of_nat k) in *.
    assert (Hpos : 0 < 2 ^ s) by (apply Z.pow_pos_nonneg; lia).
    assert (Hpow : 2 ^ (s + 7) = 2 ^ s * 128).
    { rewrite Z.pow_add_r by lia. reflexivity. }
    rewrite lor_wrap32_chunk by lia.
    destruct (decide (k = 4%nat)) as [->|Hne].
    + rewrite varint_value_wrap32_high by (unfold s; lia).
      destruct (wrap32_cases (acc + v mod 128 * 2 ^ s)) as (Hrange & q & Hq).
      symmetry. apply (wrap32_unique _ _ (q + v / 128 * 8)); [exact Hrange |].
      unfold s in *. change (2 ^ (7 * Z.of_nat 4)) with (2 ^ 28) in *. lia.
    + assert (Hsmall1 : acc + v mod 128 * 2 ^ s < 2 ^ (s + 7)) by (rewrite Hpow; nia).
      assert (Hfit : 2 ^ (s + 7) <= 2 ^ 31).
      { apply Z.pow_le_mono_r; unfold s; lia. }
      rewrite (wrap32_unique (acc + v mod 128 * 2 ^ s) (acc + v mod 128 * 2 ^ s) 0)
        by (try split; nia || lia).
      replace (s + 7) with (7 * Z.of_nat (S k)) by (unfold s; lia).
      rewrite IH.
      * f_equal. replace (7 * Z.of_nat (S k)) with (s + 7) by (unfold s; lia).
        rewrite Hpow. nia.
      * lia.
      * exact Hdiv.
      * replace (7 * Z.of_nat (S k)) with (s + 7) by (unfold s; lia). nia.
Qed.

Lemma uint64_wrap64 v : 0 <= v < 2 ^ 64 -> uint64 (wrap64 v) = v.
Proof.
  intros Hv. unfold uint64.
  pose proof (wrap64_range v) as Hr. unfold int64_range in Hr.
  assert (Hcong : exists q, wrap64 v = v + q * 2 ^ 64).
  { unfold wrap64.
    pose proof (Z.div_mod (v + 2 ^ 63) (2 ^ 64) ltac:(lia)) as Hdm.
    exists (- ((v + 2 ^ 63) / 2 ^ 64)). lia. }
  destruct Hcong as [q ->]. rewrite Z.mod_add, Z.mod_small by lia. reflexivity.
Qed.

(** X19.  What [encodeVarintTx] writes for a [uint64] is read back by the
    loop of [Unmarshal]: into a [uint64] as the value, into an [int64] and
    into an [int32] as the value converted to that type; the bytes that
    follow are left. *)
Theorem encodeVarintTx_roundtrip (v : Z) (rest : list byte) :
  0 <= v < 2 ^ 64 ->
  readVarint uint64 0 0 (encodeVarintTx v ++ rest) = Ok (v, rest) /\
  readVarint wrap64 0 0 (encodeVarintTx v ++ rest) = Ok (wrap64 v, rest) /\
  readVarint wrap32 0 0 (encodeVarintTx v ++ rest) = Ok (wrap32 v, rest).
Proof.
  intros Hv. split; [| split].
  - unfold encodeVarintTx. rewrite readVarint_encode by (simpl; lia).
    rewrite (varint_value_below uint64 (2 ^ 64)); simpl; try lia.
    + repeat f_equal. lia.
    + intros x Hx. apply uint64_small. exact Hx.
  - rewrite <- (uint64_wrap64 v Hv) at 1.
    apply readVarint_int64, wrap64_range.
  - unfold encodeVarintTx. rewrite readVarint_encode by (simpl; lia).
    pose proof (varint_value_wrap32 9 0 v 0 ltac:(lia) ltac:(lia) ltac:(simpl; lia))
      as Hread.
    change (7 * Z.of_nat 0) with 0 in Hread. rewrite Hread.
    repeat f_equal. simpl. lia.
Qed.

Lemma length_encodeVarint_loop rounds v :
  (1 <= length (encodeVarint_loop rounds v) <= S rounds)%nat.
Proof.
  revert v. induction rounds as [|rounds IH]; intros v; simpl; [lia |].
  destruct (v >=? 128); simpl; [| lia]. specialize (IH (Z.shiftr v 7)). lia.
Qed.

(** X20.  [sovTx] is the number of bytes [encodeVarintTx] writes, between
    one and ten. *)
Theorem sovTx_spec (x : Z) :
  0 <= x < 2 ^ 64 ->
  sovTx x = Z.of_nat (length (encodeVarintTx x)) /\ 1 <= sovTx x <= 10.
Proof.
  intros Hx. rewrite sovTx_length by lia. split; [reflexivity |].
  pose proof (length_encodeVarint_loop 9 x) as Hlen.
  unfold encodeVarintTx. lia.
Qed.

(** *** More of the generated code: [ActionRaw] *)

(** X21.  An action whose unrecognized bytes are nil or unknown fields,
    and whose encoding fits an [int], goes through [Marshal] and
    [Unmarshal] unchanged; [Marshal] fills the buffer of [Size] bytes
    exactly. *)
Theorem ActionRaw_Marshal_Unmarshal (m : ActionRaw) (bs : list byte) :
  unrecognized_ok ActionRaw_known (ar_XXX_unrecognized m) ->
  ActionRaw_Size m < 2 ^ 63 ->
  ActionRaw_Marshal m = Ok bs ->
  Z.of_nat (length bs) = ActionRaw_Size m /\
  ActionRaw_Unmarshal ActionRaw_empty bs = Ok m.
Proof.
  intros Hu Hsize Hbs.
  destruct (ActionRaw_roundtrip m Hu Hsize) as [Hmarshal Hback].
  rewrite Hmarshal in Hbs. injection Hbs as <-.
  split; [symmetry; apply ActionRaw_Size_length | exact Hback].
Qed.

(** What [Unmarshal] makes of the receiver [m0] on the bytes of [m]. *)
Definition ActionRaw_merge (m0 m : ActionRaw) : ActionRaw :=
  mkActionRaw
    (match Contract m with [] => Contract m0 | _ => Contract m end)
    (match ActionName m with [] => ActionName m0 | _ => ActionName m end)
    (match Data m with [] => Data m0 | _ => Data m end)
    (append_unrecognized (ar_XXX_unrecognized m0)
       (unrecognized_bytes (ar_XXX_unrecognized m))).

Lemma ActionRaw_loop_merge m m0 fuel l :
  unknown_fields ActionRaw_known (unrecognized_bytes (ar_XXX_unrecognized m)) ->
  (length (ActionRaw_MarshalTo m) <= fuel)%nat ->
  Z.of_nat (length (ActionRaw_MarshalTo m)) <= l < 2 ^ 63 ->
  ActionRaw_loop fuel l m0 (ActionRaw_MarshalTo m) = Ok (ActionRaw_merge m0 m).
Proof.
  intros Hu. rewrite ActionRaw_MarshalTo_eq. unfold ActionRaw_merge.
  destruct m as [c a d u]. cbn [Contract ActionName Data ar_XXX_unrecognized] in *.
  set (ub := unrecognized_bytes u) in *.
  assert (Htail : forall fuel m',
            (length ub <= fuel)%nat -> Z.of_nat (length ub) <= l < 2 ^ 63 ->
            ActionRaw_loop fuel l m' ub =
            Ok (mkActionRaw (Contract m') (ActionName m') (Data m')
                  (append_unrecognized (ar_XXX_unrecognized m') ub))).
  { intros fuel' m' Hf Hl'. apply ActionRaw_loop_unknown; assumption. }
  assert (Hd : forall fuel m',
            (length (opt_delimited x1a d ++ ub) <= fuel)%nat ->
            Z.of_nat (length (opt_delimited x1a d ++ ub)) <= l < 2 ^ 63 ->
            ActionRaw_loop fuel l m' (opt_delimited x1a d ++ ub) =
            Ok (mkActionRaw (Contract m') (ActionName m')
                  (match d with [] => Data m' | _ => d end)
                  (append_unrecognized (ar_XXX_unrecognized m') ub))).
  { intros fuel' m' Hf Hl'. destruct d as [|d0 d].
    - rewrite opt_delimited_nil in *. apply Htail; assumption.
    - rewrite opt_delimited_cons in *.
      pose proof (length_put_delimited_pos x1a (d0 :: d)) as Hpos.
      rewrite length_app in Hf, Hl'.
      destruct fuel' as [|fuel']; [lia |].
      rewrite ActionRaw_loop_S by apply put_delimited_not_nil.
      rewrite ActionRaw_field_Data by (rewrite length_app; lia).
      rewrite bind_Ok. cbn [fst snd]. rewrite Htail by lia. reflexivity. }
  assert (Ha : forall fuel m',
            (length (opt_delimited x12 a ++ opt_delimited x1a d ++ ub) <= fuel)%nat ->
            Z.of_nat (length (opt_delimited x12 a ++ opt_delimited x1a d ++ ub))
              <= l < 2 ^ 63 ->
            ActionRaw_loop fuel l m' (opt_delimited x12 a ++ opt_delimited x1a d ++ ub) =
            Ok (mkActionRaw (Contract m')
                  (match a with [] => ActionName m' | _ => a end)
                  (match d with [] => Data m' | _ => d end)
                  (append_unrecognized (ar_XXX_unrecognized m') ub))).
  { intros fuel' m' Hf Hl'. destruct a as [|a0 a].
    - rewrite opt_delimited_nil in *. apply Hd; assumption.
    - rewrite opt_delimited_cons in *.
      pose proof (length_put_delimited_pos x12 (a0 :: a)) as Hpos.
      rewrite length_app in Hf, Hl'.
      destruct fuel' as [|fuel']; [lia |].
      rewrite ActionRaw_loop_S by apply put_delimited_not_nil.
      rewrite ActionRaw_field_ActionName by (rewrite length_app; lia).
      rewrite bind_Ok. cbn [fst snd]. rewrite Hd by lia. reflexivity. }
  intros Hf Hl. destruct c as [|c0 c].
  - rewrite opt_delimited_nil in *. apply Ha; assumption.
  - rewrite opt_delimited_cons in *.
    pose proof (length_put_delimited_pos x0a (c0 :: c)) as Hpos.
    rewrite length_app in Hf, Hl.
    destruct fuel as [|fuel]; [lia |].
    rewrite ActionRaw_loop_S by apply put_delimited_not_nil.
    rewrite ActionRaw_field_Contract by (rewrite length_app; lia).
    rewrite bind_Ok. cbn [fst snd]. rewrite Ha by lia. reflexivity.
Qed.

(** X22.  [Unmarshal] does not reset its receiver: on the bytes of an
    action it overwrites the strings that those bytes carry, keeps the
    others as the receiver had them, and appends the unknown fields to the
    unrecognized bytes of the receiver. *)
Theorem ActionRaw_Unmarshal_merges (m0 m : ActionRaw) :
  unknown_fields ActionRaw_known (unrecognized_bytes (ar_XXX_unrecognized m)) ->
  ActionRaw_Size m < 2 ^ 63 ->
  ActionRaw_Unmarshal m0 (ActionRaw_MarshalTo m) = Ok (ActionRaw_merge m0 m).
Proof.
  intros Hu Hsize. unfold ActionRaw_Unmarshal.
  rewrite ActionRaw_Size_length in Hsize.
  apply ActionRaw_loop_merge; [exact Hu | lia | lia].
Qed.

(** The field [Contract] announced with [n] bytes, followed by [short]. *)
Definition announced (n : Z) (short : list byte) : list byte :=
  x0a :: encodeVarintTx (uint64 n) ++ short.

Lemma ActionRaw_field_announced l m n short :
  0 <= n < 2 ^ 63 ->
  ActionRaw_field l m (announced n short) =
  s ← slice_to l short n;
  Ok (mkActionRaw s.1 (ActionName m) (Data m) (ar_XXX_unrecognized m), s.2).
Proof.
  intros Hn. unfold ActionRaw_field, announced.
  rewrite readVarint_tag by (vm_compute; reflexivity).
  rewrite bind_Ok. cbn [fst snd].
  change (Z.land (Z_of_byte x0a) 7) with 2.
  change (wrap32 (Z.shiftr (Z_of_byte x0a) 3)) with 1.
  cbn [Z.eqb Z.leb Z.compare Pos.compare Pos.compare_cont Pos.eqb negb].
  unfold readDelimited.
  rewrite readVarint_small by (auto using uint64_id_small).
  rewrite bind_Ok. cbn [fst snd].
  rewrite wrap64_id_small by exact Hn.
  destruct (Z.ltb_spec n 0); [lia | reflexivity].
Qed.


(** X24.  A field that announces so many bytes that the end index
    overflows is not refused: the test [postIndex > l] passes on the
    negative index and the slice expression panics. *)
Theorem ActionRaw_Unmarshal_overflow (m : ActionRaw) (n : Z) (short : list byte) :
  2 ^ 63 - 2 <= n < 2 ^ 63 ->
  Z.of_nat (length short) < 2 ^ 62 ->
  ActionRaw_Unmarshal m (announced n short) = Crash.
Proof.
  intros Hn Hshort. unfold ActionRaw_Unmarshal.
  assert (Hlen : (2 + length short <= length (announced n short)
                  <= 11 + length short)%nat).
  { unfold announced. simpl. rewrite length_app.
    pose proof (length_encodeVarint_loop 9 (uint64 n)) as Hv.
    unfold encodeVarintTx. lia. }
  destruct (length (announced n short)) as [|fuel] eqn:Hfuel; [lia |].
  rewrite ActionRaw_loop_S by discriminate.
  rewrite <- Hfuel, ActionRaw_field_announced by lia.
  unfold slice_to.
  set (i := Z.of_nat (length (announced n short)) - Z.of_nat (length short)).
  assert (Hi : 2 <= i <= 11) by (unfold i; lia).
  assert (Hwrap : wrap64 (i + n) = i + n - 2 ^ 64).
  { unfold wrap64.
    replace (i + n + 2 ^ 63) with (i + n - 2 ^ 63 + 1 * 2 ^ 64) by lia.
    rewrite Z.mod_add, Z.mod_small by lia. lia. }
  rewrite Hwrap.
  destruct (Z.gtb_spec (i + n - 2 ^ 64) (Z.of_nat (length (announced n short)))); [lia |].
  destruct (Z.ltb_spec (i + n - 2 ^ 64) i); [reflexivity | lia].
Qed.

(** *** [StatusRaw] *)

(** [Code] is an [int32]; the string is its bytes. *)
Record StatusRaw : Type := mkStatusRaw {
  Code : Z;
  Message : list byte;
  sr_XXX_unrecognized : option (list byte)
}.

Definition StatusRaw_empty : StatusRaw := mkStatusRaw 0 [] None.

Definition StatusRaw_Size (m : StatusRaw) : Z :=
  (if negb (Code m =? 0) then 1 + sovTx (uint64 (Code m)) else 0) +
  (if Z.of_nat (length (Message m)) >? 0
   then size_delimited (Z.of_nat (length (Message m))) else 0) +
  match sr_XXX_unrecognized m with
  | Some u => Z.of_nat (length u)
  | None => 0
  end.

Definition StatusRaw_MarshalTo (m : StatusRaw) : list byte :=
  (if negb (Code m =? 0) then x08 :: encodeVarintTx (uint64 (Code m)) else []) ++
  (if Z.of_nat (length (Message m)) >? 0 then put_delimited x12 (Message m) else []) ++
  match sr_XXX_unrecognized m with
  | Some u => u
  | None => []
  end.

Definition StatusRaw_Marshal (m : StatusRaw) : result (list byte) :=
  marshal_in (StatusRaw_Size m) (StatusRaw_MarshalTo m).

Definition StatusRaw_field (l : Z) (m : StatusRaw) (rest : list byte)
    : result (StatusRaw * list byte) :=
  r ← readVarint uint64 0 0 rest;
  let wire := r.1 in
  let fieldNum := wrap32 (Z.shiftr wire 3) in
  let wireType := Z.land wire 7 in
  if wireType =? 4 then Err "proto: StatusRaw: wiretype end group for non-group"
  else if fieldNum <=? 0 then Err "proto: StatusRaw: illegal tag"
  else if fieldNum =? 1 then
    if negb (wireType =? 0) then Err "proto: wrong wireType for field Code"
    else
      v ← readVarint wrap32 0 0 r.2;
      Ok (mkStatusRaw v.1 (Message m) (sr_XXX_unrecognized m), v.2)
  else if fieldNum =? 2 then
    if negb (wireType =? 2) then Err "proto: wrong wireType for field Message"
    else
      s ← readDelimited uint64 l r.2;
      Ok (mkStatusRaw (Code m) s.1 (sr_XXX_unrecognized m), s.2)
  else
    s ← skipUnknown l rest;
    Ok (mkStatusRaw (Code m) (Message m)
          (append_unrecognized (sr_XXX_unrecognized m) s.1), s.2).

Fixpoint StatusRaw_loop (fuel : nat) (l : Z) (m : StatusRaw) (rest : list byte)
    : result StatusRaw :=
  match rest with
  | [] => Ok m
  | _ =>
      match fuel with
      | O => Starved
      | S fuel' =>
          r ← StatusRaw_field l m rest;
          StatusRaw_loop fuel' l r.1 r.2
      end
  end.

Definition StatusRaw_Unmarshal (m : StatusRaw) (dAtA : list byte) : result StatusRaw :=
  StatusRaw_loop (length dAtA) (Z.of_nat (length dAtA)) m dAtA.

Definition StatusRaw_known (fieldNum : Z) : bool :=
  (fieldNum =? 1) || (fieldNum =? 2).

Definition int32_range (z : Z) : Prop := - 2 ^ 31 <= z < 2 ^ 31.

(** An [int32] comes back from the bytes of its [uint64] conversion, ten
    of them when it is negative. *)
Lemma readVarint_int32 c rest :
  int32_range c ->
  readVarint wrap32 0 0 (encodeVarintTx (uint64 c) ++ rest) = Ok (c, rest).
Proof.
  unfold int32_range. intros Hc.
  assert (Hu : 0 <= uint64 c < 2 ^ 64) by (apply Z.mod_pos_bound; lia).
  unfold encodeVarintTx. rewrite readVarint_encode by (simpl; lia).
  pose proof (varint_value_wrap32 9 0 (uint64 c) 0
                ltac:(lia) ltac:(lia) ltac:(simpl; lia)) as Hread.
  change (7 * Z.of_nat 0) with 0 in Hread. rewrite Hread.
  repeat f_equal.
  pose proof (Z.div_mod c (2 ^ 64) ltac:(lia)) as Hdm.
  apply (wrap32_unique _ c (- (c / 2 ^ 64) * 2 ^ 32)); [exact Hc |].
  unfold uint64. simpl (2 ^ 0). lia.
Qed.

Lemma StatusRaw_loop_S fuel l m rest :
  rest <> [] ->
  StatusRaw_loop (S fuel) l m rest =
  (r ← StatusRaw_field l m rest; StatusRaw_loop fuel l r.1 r.2).
Proof. destruct rest; [contradiction | reflexivity]. Qed.

Lemma StatusRaw_field_Code l m c rest :
  int32_range c ->
  StatusRaw_field l m (x08 :: encodeVarintTx (uint64 c) ++ rest) =
  Ok (mkStatusRaw c (Message m) (sr_XXX_unrecognized m), rest).
Proof.
  intros Hc. unfold StatusRaw_field.
  rewrite readVarint_tag by (vm_compute; reflexivity).
  rewrite bind_Ok. cbn [fst snd].
  change (Z.land (Z_of_byte x08) 7) with 0.
  change (wrap32 (Z.shiftr (Z_of_byte x08) 3)) with 1.
  cbn [Z.eqb Z.leb Z.compare Pos.compare Pos.compare_cont Pos.eqb negb].
  rewrite readVarint_int32 by exact Hc. reflexivity.
Qed.

Lemma StatusRaw_field_Message l m payload rest :
  Z.of_nat (length (payload ++ rest)) <= l < 2 ^ 63 ->
  StatusRaw_field l m (put_delimited x12 payload ++ rest) =
  Ok (mkStatusRaw (Code m) payload (sr_XXX_unrecognized m), rest).
Proof.
  intros Hl. unfold StatusRaw_field, put_delimited.
  rewrite <- app_comm_cons, <- app_assoc, readVarint_tag by (vm_compute; reflexivity).
  rewrite bind_Ok. cbn [fst snd].
  change (Z.land (Z_of_byte x12) 7) with 2.
  change (wrap32 (Z.shiftr (Z_of_byte x12) 3)) with 2.
  cbn [Z.eqb Z.leb Z.compare Pos.compare Pos.compare_cont Pos.eqb negb].
  rewrite readDelimited_put by (auto using uint64_id_small). reflexivity.
Qed.

Lemma StatusRaw_field_unknown l m chunk more wire tl :
  readVarint uint64 0 0 chunk = Ok (wire, tl) ->
  Z.land wire 7 <> 4 ->
  0 < wrap32 (Z.shiftr wire 3) ->
  StatusRaw_known (wrap32 (Z.shiftr wire 3)) = false ->
  skipTx chunk = Ok (Z.of_nat (length chunk)) ->
  Z.of_nat (length (chunk ++ more)) <= l < 2 ^ 63 ->
  StatusRaw_field l m (chunk ++ more) =
  Ok (mkStatusRaw (Code m) (Message m)
        (append_unrecognized (sr_XXX_unrecognized m) chunk), more).
Proof.
  intros Hread Hgroup Hpos Hknown Hskip Hl. unfold StatusRaw_field.
  rewrite (readVarint_app _ _ _ _ _ _ more Hread), bind_Ok. cbn [fst snd].
  unfold StatusRaw_known in Hknown.
  apply orb_false_elim in Hknown as [H1 H2].
  rewrite H1, H2.
  destruct (Z.eqb_spec (Z.land wire 7) 4); [contradiction |].
  destruct (Z.leb_spec (wrap32 (Z.shiftr wire 3)) 0); [lia |].
  rewrite skipUnknown_chunk by assumption. reflexivity.
Qed.

Lemma StatusRaw_loop_unknown u :
  unknown_fields StatusRaw_known u ->
  forall fuel l m,
    (length u <= fuel)%nat -> Z.of_nat (length u) <= l < 2 ^ 63 ->
    StatusRaw_loop fuel l m u =
    Ok (mkStatusRaw (Code m) (Message m)
          (append_unrecognized (sr_XXX_unrecognized m) u)).
Proof.
  induction 1 as [|chunk more wire tl Hread Hgroup Hpos Hknown Hskip Hmore IH];
    intros fuel l m Hfuel Hl.
  - destruct m. destruct fuel; reflexivity.
  - assert (Hchunk : (0 < length chunk)%nat).
    { apply readVarint_shorter in Hread. lia. }
    rewrite length_app in Hfuel.
    destruct fuel as [|fuel]; [lia |].
    rewrite StatusRaw_loop_S.
    2:{ intros Hnil. apply (f_equal length) in Hnil.
        rewrite length_app in Hnil. simpl in Hnil. lia. }
    rewrite (StatusRaw_field_unknown l m chunk more wire tl) by assumption.
    rewrite bind_Ok. cbn [fst snd].
    rewrite IH; [| lia | rewrite length_app in Hl; lia].
    cbn [Code Message sr_XXX_unrecognized].
    rewrite append_unrecognized_app. reflexivity.
Qed.

Lemma StatusRaw_Size_length m :
  StatusRaw_Size m = Z.of_nat (length (StatusRaw_MarshalTo m)).
Proof.
  unfold StatusRaw_Size, StatusRaw_MarshalTo.
  rewrite !length_app, !Nat2Z.inj_add.
  assert (Hcode : (if negb (Code m =? 0) then 1 + sovTx (uint64 (Code m)) else 0) =
                  Z.of_nat (length (if negb (Code m =? 0)
                                    then x08 :: encodeVarintTx (uint64 (Code m))
                                    else []))).
  { destruct (Code m =? 0); simpl negb; cbv iota; [reflexivity |].
    cbn [length]. rewrite Nat2Z.inj_succ, length_encodeVarintTx_sov. lia. }
  assert (Hmsg : (if Z.of_nat (length (Message m)) >? 0
                  then size_delimited (Z.of_nat (length (Message m))) else 0) =
                 Z.of_nat (length (if Z.of_nat (length (Message m)) >? 0
                                   then put_delimited x12 (Message m) else []))).
  { destruct (Z.of_nat (length (Message m)) >? 0); [| reflexivity].
    rewrite length_put_delimited. reflexivity. }
  rewrite Hcode, Hmsg. destruct (sr_XXX_unrecognized m); simpl; lia.
Qed.

Lemma StatusRaw_loop_MarshalTo m fuel l :
  int32_range (Code m) ->
  unrecognized_ok StatusRaw_known (sr_XXX_unrecognized m) ->
  (length (StatusRaw_MarshalTo m) <= fuel)%nat ->
  Z.of_nat (length (StatusRaw_MarshalTo m)) <= l < 2 ^ 63 ->
  StatusRaw_loop fuel l StatusRaw_empty (StatusRaw_MarshalTo m) = Ok m.
Proof.
  intros Hcode Hu. unfold StatusRaw_MarshalTo.
  destruct m as [c msg u]. cbn [Code Message sr_XXX_unrecognized] in *.
  set (ub := match u with Some u0 => u0 | None => [] end).
  assert (Htail : forall fuel c' msg',
            (length ub <= fuel)%nat -> Z.of_nat (length ub) <= l < 2 ^ 63 ->
            StatusRaw_loop fuel l (mkStatusRaw c' msg' None) ub =
            Ok (mkStatusRaw c' msg' u)).
  { intros fuel' c' msg' Hf Hl'.
    rewrite StatusRaw_loop_unknown; [| | exact Hf | exact Hl'].
    - cbn [Code Message sr_XXX_unrecognized].
      change ub with (unrecognized_bytes u).
      rewrite (append_unrecognized_ok _ _ Hu). reflexivity.
    - destruct u as [bs|]; [apply Hu | constructor]. }
  assert (Hmsg : forall fuel c',
            (length ((if Z.of_nat (length msg) >? 0
                      then put_delimited x12 msg else []) ++ ub) <= fuel)%nat ->
            Z.of_nat (length ((if Z.of_nat (length msg) >? 0
                               then put_delimited x12 msg else []) ++ ub))
              <= l < 2 ^ 63 ->
            StatusRaw_loop fuel l (mkStatusRaw c' [] None)
              ((if Z.of_nat (length msg) >? 0 then put_delimited x12 msg else []) ++ ub) =
            Ok (mkStatusRaw c' msg u)).
  { intros fuel' c' Hf Hl'. destruct msg as [|b0 msg].
    - simpl in *. apply Htail; assumption.
    - change (Z.of_nat (length (b0 :: msg)) >? 0) with true in *. cbv iota in *.
      pose proof (length_put_delimited_pos x12 (b0 :: msg)) as Hpos.
      rewrite length_app in Hf, Hl'.
      destruct fuel' as [|fuel']; [lia |].
      rewrite StatusRaw_loop_S by apply put_delimited_not_nil.
      rewrite StatusRaw_field_Message by (rewrite length_app; lia).
      rewrite bind_Ok. apply Htail; lia. }
  destruct (Z.eqb_spec c 0) as [->|Hne]; simpl negb; cbv iota.
  - simpl app. apply Hmsg.
  - rewrite <- app_comm_cons. intros Hf Hl.
    cbn [length] in Hf, Hl. rewrite length_app in Hf, Hl.
    destruct fuel as [|fuel]; [lia |].
    rewrite StatusRaw_loop_S by discriminate.
    rewrite StatusRaw_field_Code by exact Hcode.
    rewrite bind_Ok. apply Hmsg; lia.
Qed.

(** X25.  A status whose code is an [int32], negative or not, whose
    unrecognized bytes are nil or unknown fields and whose encoding fits
    an [int], goes through [Marshal] and [Unmarshal] unchanged. *)
Theorem StatusRaw_roundtrip (m : StatusRaw) :
  int32_range (Code m) ->
  unrecognized_ok StatusRaw_known (sr_XXX_unrecognized m) ->
  StatusRaw_Size m < 2 ^ 63 ->
  StatusRaw_Marshal m = Ok (StatusRaw_MarshalTo m) /\
  StatusRaw_Unmarshal StatusRaw_empty (StatusRaw_MarshalTo m) = Ok m.
Proof.
  intros Hcode Hu Hsize. split.
  - unfold StatusRaw_Marshal, marshal_in. rewrite StatusRaw_Size_length.
    destruct (Z.leb_spec (Z.of_nat (length (StatusRaw_MarshalTo m)))
                (Z.of_nat (length (StatusRaw_MarshalTo m)))); [reflexivity | lia].
  - unfold StatusRaw_Unmarshal. rewrite StatusRaw_Size_length in Hsize.
    apply StatusRaw_loop_MarshalTo; [exact Hcode | exact Hu | lia | lia].
Qed.

(** *** The rest of the codec at work *)

Lemma encodeVarintTx_roundtrip_witness :
  readVarint uint64 0 0 (encodeVarintTx 300 ++ [x07]) = Ok (300, [x07]) /\
  readVarint wrap64 0 0 (encodeVarintTx (2 ^ 64 - 1) ++ []) = Ok (-1, []) /\
  readVarint wrap32 0 0 (encodeVarintTx (2 ^ 32 + 5) ++ []) = Ok (5, []).
Proof.
  destruct (encodeVarintTx_roundtrip 300 [x07]) as (H1 & _); [lia |].
  destruct (encodeVarintTx_roundtrip (2 ^ 64 - 1) []) as (_ & H2 & _); [lia |].
  destruct (encodeVarintTx_roundtrip (2 ^ 32 + 5) []) as (_ & _ & H3); [lia |].
  split; [exact H1 |]. split; [exact H2 | exact H3].
Defined.

Lemma sovTx_spec_witness :
  sovTx 300 = Z.of_nat (length (encodeVarintTx 300)) /\ 1 <= sovTx 300 <= 10.
Proof. apply (sovTx_spec 300). lia. Defined.

Definition action_transfer : ActionRaw :=
  mkActionRaw [x69; x6f; x73; x74] [x54] [x5b; x5d] None.

Lemma ActionRaw_Marshal_Unmarshal_witness :
  ActionRaw_Marshal action_transfer = Ok (ActionRaw_MarshalTo action_transfer) /\
  Z.of_nat (length (ActionRaw_MarshalTo action_transfer)) = ActionRaw_Size action_transfer /\
  ActionRaw_Unmarshal ActionRaw_empty (ActionRaw_MarshalTo action_transfer) =
    Ok action_transfer.
Proof.
  split; [reflexivity |].
  apply (ActionRaw_Marshal_Unmarshal action_transfer (ActionRaw_MarshalTo action_transfer));
    [exact I | reflexivity | reflexivity].
Defined.

(** Decoding an action that carries only a name into [action_transfer]
    replaces the name and keeps the rest. *)
Lemma ActionRaw_Unmarshal_merges_witness :
  ActionRaw_Unmarshal action_transfer
    (ActionRaw_MarshalTo (mkActionRaw [] [x55] [] None)) =
  Ok (mkActionRaw [x69; x6f; x73; x74] [x55] [x5b; x5d] None).
Proof.
  apply (ActionRaw_Unmarshal_merges action_transfer (mkActionRaw [] [x55] [] None));
    [constructor | reflexivity].
Defined.


Lemma ActionRaw_Unmarshal_overflow_witness :
  ActionRaw_Unmarshal ActionRaw_empty (announced (2 ^ 63 - 1) [x69]) = Crash.
Proof.
  apply (ActionRaw_Unmarshal_overflow ActionRaw_empty (2 ^ 63 - 1) [x69]);
    [lia | simpl; lia].
Defined.

Definition status_failed : StatusRaw := mkStatusRaw (-1) [x6e; x6f] None.

Lemma StatusRaw_roundtrip_witness :
  StatusRaw_Marshal status_failed = Ok (StatusRaw_MarshalTo status_failed) /\
  StatusRaw_Unmarshal StatusRaw_empty (StatusRaw_MarshalTo status_failed) =
    Ok status_failed.
Proof.
  apply (StatusRaw_roundtrip status_failed);
    [unfold int32_range; simpl; lia | exact I | reflexivity].
Defined.

(** The bytes of the status: the code -1 takes ten bytes after its tag. *)
Example status_failed_bytes :
  StatusRaw_MarshalTo status_failed =
  [x08; xff; xff; xff; xff; xff; xff; xff; xff; xff; x01; x12; x02; x6e; x6f].
Proof. reflexivity. Qed.

End TxCodec.

(** ** Package core/contract: the generated codec of [Cost] *)

Module ContractCodec.

Import TxCodec.

(** [encodeVarintContract], [sovContract] and [skipContract] are, their
    names apart, the text of [encodeVarintTx], [sovTx] and [skipTx] of
    package tx; the two error values carry the same messages. *)
Definition encodeVarintContract (v : Z) : list byte := encodeVarintTx v.
Definition sovContract (x : Z) : Z := sovTx x.
Definition skipContract (dAtA : list byte) : result Z := skipTx dAtA.
Definition ErrInvalidLengthContract : error := ErrInvalidLengthTx.
Definition ErrIntOverflowContract : error := ErrIntOverflowTx.

(** [contract.Cost]: three [int64] and the unrecognized bytes. *)
Record Cost : Type := mkCost {
  Data : Z;
  Net : Z;
  CPU : Z;
  XXX_unrecognized : option (list byte)
}.

Definition Cost_empty : Cost := mkCost 0 0 0 None.

Definition Cost_Size (m : Cost) : Z :=
  (if negb (Data m =? 0) then 1 + sovContract (uint64 (Data m)) else 0) +
  (if negb (Net m =? 0) then 1 + sovContract (uint64 (Net m)) else 0) +
  (if negb (CPU m =? 0) then 1 + sovContract (uint64 (CPU m)) else 0) +
  match XXX_unrecognized m with
  | Some u => Z.of_nat (length u)
  | None => 0
  end.

(** A field of wire type 0 that [MarshalTo] writes when it is not zero. *)
Definition put_int64 (tag : byte) (v : Z) : list byte :=
  if negb (v =? 0) then tag :: encodeVarintContract (uint64 v) else [].

Definition Cost_MarshalTo (m : Cost) : list byte :=
  put_int64 x08 (Data m) ++ put_int64 x10 (Net m) ++ put_int64 x18 (CPU m) ++
  match XXX_unrecognized m with
  | Some u => u
  | None => []
  end.

Definition Cost_Marshal (m : Cost) : result (list byte) :=
  marshal_in (Cost_Size m) (Cost_MarshalTo m).

Definition Cost_field (l : Z) (m : Cost) (rest : list byte)
    : result (Cost * list byte) :=
  r ← readVarint uint64 0 0 rest;
  let wire := r.1 in
  let fieldNum := wrap32 (Z.shiftr wire 3) in
  let wireType := Z.land wire 7 in
  if wireType =? 4 then Err "proto: Cost: wiretype end group for non-group"
  else if fieldNum <=? 0 then Err "proto: Cost: illegal tag"
  else if fieldNum =? 1 then
    if negb (wireType =? 0) then Err "proto: wrong wireType for field Data"
    else
      v ← readVarint wrap64 0 0 r.2;
      Ok (mkCost v.1 (Net m) (CPU m) (XXX_unrecognized m), v.2)
  else if fieldNum =? 2 then
    if negb (wireType =? 0) then Err "proto: wrong wireType for field Net"
    else
      v ← readVarint wrap64 0 0 r.2;
      Ok (mkCost (Data m) v.1 (CPU m) (XXX_unrecognized m), v.2)
  else if fieldNum =? 3 then
    if negb (wireType =? 0) then Err "proto: wrong wireType for field CPU"
    else
      v ← readVarint wrap64 0 0 r.2;
      Ok (mkCost (Data m) (Net m) v.1 (XXX_unrecognized m), v.2)
  else
    s ← skipUnknown l rest;
    Ok (mkCost (Data m) (Net m) (CPU m)
          (append_unrecognized (XXX_unrecognized m) s.1), s.2).

Fixpoint Cost_loop (fuel : nat) (l : Z) (m : Cost) (rest : list byte) : result Cost :=
  match rest with
  | [] => Ok m
  | _ =>
      match fuel with
      | O => Starved
      | S fuel' =>
          r ← Cost_field l m rest;
          Cost_loop fuel' l r.1 r.2
      end
  end.

Definition Cost_Unmarshal (m : Cost) (dAtA : list byte) : result Cost :=
  Cost_loop (length dAtA) (Z.of_nat (length dAtA)) m dAtA.

Definition Cost_known (fieldNum : Z) : bool :=
  (fieldNum =? 1) || (fieldNum =? 2) || (fieldNum =? 3).

(** From [bs] on, the loop ends with [final], on any sufficient budget. *)
Definition decodes (l : Z) (m : Cost) (bs : list byte) (final : Cost) : Prop :=
  forall fuel, (length bs <= fuel)%nat -> Cost_loop fuel l m bs = Ok final.

Lemma Cost_decodes_nil l m : decodes l m [] m.
Proof. intros fuel _. destruct fuel; reflexivity. Qed.

Lemma Cost_decodes_step l m bytes rest m' final :
  bytes <> [] ->
  Cost_field l m (bytes ++ rest) = Ok (m', rest) ->
  decodes l m' rest final ->
  decodes l m (bytes ++ rest) final.
Proof.
  intros Hbytes Hfield Hrest fuel Hfuel.
  destruct bytes as [|b bytes]; [contradiction |].
  rewrite length_app in Hfuel. simpl in Hfuel.
  destruct fuel as [|fuel]; [lia |].
  change (Cost_loop (S fuel) l m ((b :: bytes) ++ rest)) with
    (r ← Cost_field l m ((b :: bytes) ++ rest); Cost_loop fuel l r.1 r.2).
  rewrite Hfield, bind_Ok. apply Hrest. simpl. lia.
Qed.

Lemma Cost_field_int64 l m tag v rest :
  int64_range v ->
  Z_of_byte tag < 128 -> Z.land (Z_of_byte tag) 7 = 0 ->
  Cost_field l m (tag :: encodeVarintContract (uint64 v) ++ rest) =
  let fieldNum := wrap32 (Z.shiftr (Z_of_byte tag) 3) in
  if fieldNum <=? 0 then Err "proto: Cost: illegal tag"
  else if fieldNum =? 1 then Ok (mkCost v (Net m) (CPU m) (XXX_unrecognized m), rest)
  else if fieldNum =? 2 then Ok (mkCost (Data m) v (CPU m) (XXX_unrecognized m), rest)
  else if fieldNum =? 3 then Ok (mkCost (Data m) (Net m) v (XXX_unrecognized m), rest)
  else
    s ← skipUnknown l (tag :: encodeVarintContract (uint64 v) ++ rest);
    Ok (mkCost (Data m) (Net m) (CPU m)
          (append_unrecognized (XXX_unrecognized m) s.1), s.2).
Proof.
  intros Hv Htag Hwire. unfold Cost_field, encodeVarintContract.
  rewrite readVarint_tag by exact Htag.
  rewrite bind_Ok. cbn [fst snd]. rewrite Hwire.
  cbn [Z.eqb negb]. rewrite readVarint_int64 by exact Hv.
  rewrite !bind_Ok. cbn [fst snd]. reflexivity.
Qed.

Lemma Cost_decodes_put l tag v m m' rest final :
  int64_range v ->
  Z_of_byte tag < 128 -> Z.land (Z_of_byte tag) 7 = 0 ->
  (v <> 0 ->
   (let fieldNum := wrap32 (Z.shiftr (Z_of_byte tag) 3) in
    if fieldNum <=? 0 then Err "proto: Cost: illegal tag"
    else if fieldNum =? 1 then Ok (mkCost v (Net m) (CPU m) (XXX_unrecognized m), rest)
    else if fieldNum =? 2 then Ok (mkCost (Data m) v (CPU m) (XXX_unrecognized m), rest)
    else if fieldNum =? 3 then Ok (mkCost (Data m) (Net m) v (XXX_unrecognized m), rest)
    else
      s ← skipUnknown l (tag :: encodeVarintContract (uint64 v) ++ rest);
      Ok (mkCost (Data m) (Net m) (CPU m)
            (append_unrecognized (XXX_unrecognized m) s.1), s.2)) = Ok (m', rest)) ->
  (v = 0 -> m' = m) ->
  decodes l m' rest final ->
  decodes l m (put_int64 tag v ++ rest) final.
Proof.
  unfold put_int64. intros Hv Htag Hwire Hfield Hsame Hrest.
  destruct (Z.eqb_spec v 0) as [Hz|Hnz]; simpl negb; cbv iota.
  - rewrite <- (Hsame Hz). exact Hrest.
  - eapply Cost_decodes_step; [discriminate | | exact Hrest].
    rewrite <- app_comm_cons, Cost_field_int64 by assumption. exact (Hfield Hnz).
Qed.

Lemma Cost_field_unknown l m chunk more wire tl :
  readVarint uint64 0 0 chunk = Ok (wire, tl) ->
  Z.land wire 7 <> 4 ->
  0 < wrap32 (Z.shiftr wire 3) ->
  Cost_known (wrap32 (Z.shiftr wire 3)) = false ->
  skipTx chunk = Ok (Z.of_nat (length chunk)) ->
  Z.of_nat (length (chunk ++ more)) <= l < 2 ^ 63 ->
  Cost_field l m (chunk ++ more) =
  Ok (mkCost (Data m) (Net m) (CPU m)
        (append_unrecognized (XXX_unrecognized m) chunk), more).
Proof.
  intros Hread Hgroup Hpos Hknown Hskip Hl. unfold Cost_field.
  rewrite (readVarint_app _ _ _ _ _ _ more Hread), bind_Ok. cbn [fst snd].
  unfold Cost_known in Hknown.
  apply orb_false_elim in Hknown as [Hknown H3].
  apply orb_false_elim in Hknown as [H1 H2].
  rewrite H1, H2, H3.
  destruct (Z.eqb_spec (Z.land wire 7) 4); [contradiction |].
  destruct (Z.leb_spec (wrap32 (Z.shiftr wire 3)) 0); [lia |].
  rewrite skipUnknown_chunk by assumption. reflexivity.
Qed.

Lemma Cost_decodes_unknown l u :
  unknown_fields Cost_known u ->
  forall m,
    Z.of_nat (length u) <= l < 2 ^ 63 ->
    decodes l m u
      (mkCost (Data m) (Net m) (CPU m) (append_unrecognized (XXX_unrecognized m) u)).
Proof.
  induction 1 as [|chunk more wire tl Hread Hgroup Hpos Hknown Hskip Hmore IH];
    intros m Hl.
  - destruct m. apply Cost_decodes_nil.
  - assert (Hchunk : chunk <> []).
    { intros ->. simpl in Hread. discriminate. }
    eapply Cost_decodes_step; [exact Hchunk | |].
    + eapply Cost_field_unknown; eassumption.
    + rewrite <- append_unrecognized_app.
      rewrite length_app in Hl.
      specialize (IH (mkCost (Data m) (Net m) (CPU m)
                        (append_unrecognized (XXX_unrecognized m) chunk))).
      apply IH. lia.
Qed.

Lemma length_put_int64 tag v :
  Z.of_nat (length (put_int64 tag v)) =
  if negb (v =? 0) then 1 + sovContract (uint64 v) else 0.
Proof.
  unfold put_int64, sovContract, encodeVarintContract.
  destruct (v =? 0); simpl negb; cbv iota; [reflexivity |].
  cbn [length]. rewrite Nat2Z.inj_succ, length_encodeVarintTx_sov. lia.
Qed.

(** [Size] is the number of bytes that [MarshalTo] writes. *)
Lemma Cost_Size_length m :
  Cost_Size m = Z.of_nat (length (Cost_MarshalTo m)).
Proof.
  unfold Cost_Size, Cost_MarshalTo.
  rewrite !length_app, !Nat2Z.inj_add, !length_put_int64.
  destruct (XXX_unrecognized m); cbn [length]; lia.
Qed.

(** X26.  A cost whose three components are [int64], whose unrecognized
    bytes are nil or unknown fields and whose encoding fits an [int], goes
    through [Marshal] and [Unmarshal] unchanged; [Marshal] fills the buffer
    of [Size] bytes exactly, and the zero cost takes no byte. *)
Theorem Cost_roundtrip (m : Cost) :
  int64_range (Data m) -> int64_range (Net m) -> int64_range (CPU m) ->
  unrecognized_ok Cost_known (XXX_unrecognized m) ->
  Cost_Size m < 2 ^ 63 ->
  Cost_Marshal m = Ok (Cost_MarshalTo m) /\
  Z.of_nat (length (Cost_MarshalTo m)) = Cost_Size m /\
  Cost_Unmarshal Cost_empty (Cost_MarshalTo m) = Ok m /\
  Cost_MarshalTo Cost_empty = [].
Proof.
  intros Hdata Hnet Hcpu Hu Hsize.
  pose proof (Cost_Size_length m) as Hlen.
  split; [| split; [| split]].
  - unfold Cost_Marshal, marshal_in. rewrite Hlen.
    destruct (Z.leb_spec (Z.of_nat (length (Cost_MarshalTo m)))
                (Z.of_nat (length (Cost_MarshalTo m)))); [reflexivity | lia].
  - symmetry. exact Hlen.
  - unfold Cost_Unmarshal.
    assert (Hdec : forall l, Z.of_nat (length (Cost_MarshalTo m)) <= l < 2 ^ 63 ->
                   decodes l Cost_empty (Cost_MarshalTo m) m).
    { unfold Cost_MarshalTo. destruct m as [d n c u].
      cbn [Data Net CPU XXX_unrecognized] in *. intros l Hfit.
      rewrite !length_app, !Nat2Z.inj_add in Hfit.
      eapply Cost_decodes_put with (m' := mkCost d 0 0 None);
        [exact Hdata | vm_compute; reflexivity | reflexivity
        | intros _; reflexivity | intros ->; reflexivity |].
      eapply Cost_decodes_put with (m' := mkCost d n 0 None);
        [exact Hnet | vm_compute; reflexivity | reflexivity
        | intros _; reflexivity | intros ->; reflexivity |].
      eapply Cost_decodes_put with (m' := mkCost d n c None);
        [exact Hcpu | vm_compute; reflexivity | reflexivity
        | intros _; reflexivity | intros ->; reflexivity |].
      assert (Hfields : unknown_fields Cost_known (unrecognized_bytes u)).
      { destruct u as [bs|]; [exact (proj2 Hu) | constructor]. }
      pose proof (Cost_decodes_unknown l (unrecognized_bytes u) Hfields
                    (mkCost d n c None)) as Htail.
      cbn [Data Net CPU XXX_unrecognized] in Htail.
      rewrite (append_unrecognized_ok _ _ Hu) in Htail.
      destruct u as [bs|]; apply Htail; simpl in *; lia. }
    apply Hdec; lia.
  - reflexivity.
Qed.

Definition cost_sample : Cost := mkCost 100 (-1) 0 None.

Lemma Cost_roundtrip_witness :
  Cost_Marshal cost_sample = Ok (Cost_MarshalTo cost_sample) /\
  Z.of_nat (length (Cost_MarshalTo cost_sample)) = Cost_Size cost_sample /\
  Cost_Unmarshal Cost_empty (Cost_MarshalTo cost_sample) = Ok cost_sample /\
  Cost_MarshalTo Cost_empty = [].
Proof.
  apply (Cost_roundtrip cost_sample);
    [vm_compute; split; [discriminate | reflexivity]
    | vm_compute; split; [discriminate | reflexivity]
    | vm_compute; split; [discriminate | reflexivity]
    | exact I | reflexivity].
Defined.

End ContractCodec.

(** ** Package vm: the privilege of an account in a call *)

Module VM.

(** [IOSTAccount] is a string.  Of [ContractInfo] and of [Context] only
    the publisher and the signers are read. *)
Record ContractInfo : Type := mkContractInfo {
  Publisher : string;
  Signers : list string
}.

Record Frame : Type := mkFrame {
  ctx_Publisher : string;
  ctx_Signers : list string
}.

(** A [*Context] is a chain through [Base] that ends in nil: the list of
    its frames, the innermost first; the nil context is the empty list. *)
Definition Context : Type := list Frame.

(** The loop over a slice of signers that returns at the first match. *)
Fixpoint signs (name : string) (signers : list string) : bool :=
  match signers with
  | [] => false
  | signer :: rest => if bool_decide (name = signer) then true else signs name rest
  end.

Fixpoint CheckPrivilege (ctx : Context) (info : ContractInfo) (name : string) : Z :=
  match ctx with
  | c :: base =>
      if bool_decide (name = ctx_Publisher c) then 2
      else if signs name (ctx_Signers c) then 1
      else CheckPrivilege base info name
  | [] =>
      if bool_decide (name = Publisher info) then 2
      else if signs name (Signers info) then 1
      else 0
  end.

(** Publisher and signers of every level of a call, the innermost context
    first and the contract's own information last. *)
Definition levels (ctx : Context) (info : ContractInfo) : list (string * list string) :=
  map (fun c => (ctx_Publisher c, ctx_Signers c)) ctx ++
  [(Publisher info, Signers info)].

Definition mentions (name : string) (level : string * list string) : Prop :=
  name = level.1 \/ name ∈ level.2.

Lemma signs_elem_of name signers : signs name signers = true <-> name ∈ signers.
Proof.
  induction signers as [|s rest IH]; simpl.
  - split; [discriminate | intros H; inversion H].
  - rewrite elem_of_cons. case_bool_decide as Hs; [tauto |].
    rewrite IH. tauto.
Qed.

Lemma level_silent name pub signers :
  ~ mentions name (pub, signers) ->
  bool_decide (name = pub) = false /\ signs name signers = false.
Proof.
  unfold mentions. simpl. intros H. split.
  - apply bool_decide_eq_false. tauto.
  - apply not_true_is_false. rewrite signs_elem_of. tauto.
Qed.

Lemma level_speaks name pub signers next :
  mentions name (pub, signers) ->
  (if bool_decide (name = pub) then 2
   else if signs name signers then 1 else next) =
  if bool_decide (name = pub) then 2 else 1.
Proof.
  unfold mentions. simpl. intros [H | H].
  - rewrite bool_decide_eq_true_2 by exact H. reflexivity.
  - apply signs_elem_of in H. rewrite H. reflexivity.
Qed.

(** X28.  [CheckPrivilege] answers 0 exactly when the name is neither the
    publisher nor a signer at any level of the call, the contexts and the
    contract's information.  Otherwise the first level that mentions the
    name decides, from the innermost context outwards: 2 where the name is
    that level's publisher, 1 where it only signs there, whatever the
    levels behind say.  So a signer of the inner context that publishes an
    outer one gets 1. *)
Theorem CheckPrivilege_spec (ctx : Context) (info : ContractInfo) (name : string) :
  (CheckPrivilege ctx info name = 0 <->
     forall level, level ∈ levels ctx info -> ~ mentions name level) /\
  (forall before level behind,
     levels ctx info = before ++ level :: behind ->
     (forall l, l ∈ before -> ~ mentions name l) ->
     mentions name level ->
     CheckPrivilege ctx info name = if bool_decide (name = level.1) then 2 else 1).
Proof.
  unfold levels. induction ctx as [|c base [IH0 IH1]]; simpl.
  - split.
    + split.
      * intros Hzero level Hin. apply list_elem_of_singleton in Hin as ->.
        unfold mentions. simpl. intros [H | H].
        -- rewrite bool_decide_eq_true_2 in Hzero by exact H. discriminate.
        -- apply signs_elem_of in H. rewrite H in Hzero.
           case_bool_decide; discriminate.
      * intros Hnone.
        destruct (level_silent name (Publisher info) (Signers info)) as [-> ->];
          [apply Hnone; apply list_elem_of_singleton; reflexivity | reflexivity].
    + intros before level behind Heq Hbefore Hlevel.
      destruct before as [|b before].
      * simpl in Heq. injection Heq as <- _. apply level_speaks. exact Hlevel.
      * simpl in Heq. injection Heq as _ Heq. destruct before; discriminate.
  - split.
    + split.
      * intros Hzero level Hin. apply elem_of_cons in Hin as [-> | Hin].
        -- unfold mentions. simpl. intros [H | H].
           ++ rewrite bool_decide_eq_true_2 in Hzero by exact H. discriminate.
           ++ apply signs_elem_of in H. rewrite H in Hzero.
              case_bool_decide; discriminate.
        -- apply IH0; [| exact Hin].
           destruct (bool_decide (name = ctx_Publisher c)); [discriminate |].
           destruct (signs name (ctx_Signers c)); [discriminate | exact Hzero].
      * intros Hnone.
        destruct (level_silent name (ctx_Publisher c) (ctx_Signers c)) as [-> ->];
          [apply Hnone; left |].
        apply IH0. intros level Hin. apply Hnone. right. exact Hin.
    + intros before level behind Heq Hbefore Hlevel.
      destruct before as [|b before].
      * simpl in Heq. injection Heq as <- _. apply level_speaks. exact Hlevel.
      * simpl in Heq. injection Heq as <- Heq.
        destruct (level_silent name (ctx_Publisher c) (ctx_Signers c)) as [-> ->];
          [apply Hbefore; left |].
        apply (IH1 before level behind Heq); [| exact Hlevel].
        intros l Hl. apply Hbefore. right. exact Hl.
Qed.

(** A call of a contract published by carol, from a context published by
    bob that alice signed, itself called from a context that alice
    published. *)
Definition ctx_nested : Context :=
  [mkFrame "bob" ["alice"; "dave"]; mkFrame "alice" []].

Definition info_carol : ContractInfo := mkContractInfo "carol" ["erin"].

Lemma CheckPrivilege_spec_witness :
  CheckPrivilege ctx_nested info_carol "alice" = 1 /\
  CheckPrivilege ctx_nested info_carol "carol" = 2 /\
  (CheckPrivilege ctx_nested info_carol "frank" = 0 <->
     forall level, level ∈ levels ctx_nested info_carol -> ~ mentions "frank" level).
Proof.
  destruct (CheckPrivilege_spec ctx_nested info_carol "alice") as [_ Halice].
  destruct (CheckPrivilege_spec ctx_nested info_carol "carol") as [_ Hcarol].
  destruct (CheckPrivilege_spec ctx_nested info_carol "frank") as [Hfrank _].
  split; [| split; [| exact Hfrank]].
  - apply (Halice [] ("bob"%string, ["alice"; "dave"]%string)
             [("alice"%string, []); ("carol"%string, ["erin"]%string)]).
    + reflexivity.
    + intros l Hl. inversion Hl.
    + right. simpl. apply elem_of_cons. left. reflexivity.
  - apply (Hcarol [("bob"%string, ["alice"; "dave"]%string); ("alice"%string, [])]
             ("carol"%string, ["erin"]%string) []).
    + reflexivity.
    + intros l Hl. unfold mentions.
      apply elem_of_cons in Hl as [-> | Hl];
        [| apply list_elem_of_singleton in Hl as ->]; simpl.
      * intros [H | H]; [discriminate |].
        apply elem_of_cons in H as [H | H]; [discriminate |].
        apply list_elem_of_singleton in H. discriminate.
      * intros [H | H]; [discriminate | inversion H].
    + left. reflexivity.
Defined.

End VM.
